(** * Levenberg-Marquardt curve fitting

    A shallow embedding of [src/ml-levenberg-marquardt.js] and the
    properties its specification states about it.

    JavaScript numbers are IEEE 754 binary64 values, so they are Rocq's
    primitive [float]s: every arithmetic operation below is the one the
    program performs, with its rounding, its infinities and its NaN. *)

From Stdlib Require Import String ZArith List Bool Lia Floats Reals Lra.
Import ListNotations.

Set Warnings "-inexact-float".
Local Open Scope float_scope.

(** ** JavaScript numbers *)

Module JS.

(** [isNaN(v)] on a number. *)
Definition isNaN (v : float) : bool := is_nan v.

(** [Math.pow(b, 2)]: the square, computed as the product [b * b]. *)
Definition Math_pow2 (b : float) : float := b * b.

(** [Math.max(a, b)]: NaN as soon as one argument is NaN, and [+0] counts
    as larger than [-0]. *)
Definition Math_max (a b : float) : float :=
  if is_nan a || is_nan b then nan
  else if a <? b then b
  else if b <? a then a
  else match classify a with NZero => b | _ => a end.

(** [Math.min(a, b)]: NaN as soon as one argument is NaN, and [-0] counts
    as smaller than [+0]. *)
Definition Math_min (a b : float) : float :=
  if is_nan a || is_nan b then nan
  else if a <? b then a
  else if b <? a then b
  else match classify a with PZero => b | _ => a end.

Definition MAX_SAFE_INTEGER : float := 9007199254740991.
Definition MIN_SAFE_INTEGER : float := - 9007199254740991.

(** Reading [a[i]] where a number is expected: past the end the read
    yields [undefined], which every arithmetic operation and [Math.max] /
    [Math.min] turn into NaN. *)
Definition at_ (a : list float) (i : nat) : float := nth i a nan.

(** An array slot that may hold [undefined] ([None]). *)
Definition slot := option float.

(** [ToNumber] of a slot. *)
Definition toNumber (s : slot) : float :=
  match s with Some v => v | None => nan end.

(** [s === 0]. *)
Definition is_zero_slot (s : slot) : bool :=
  match s with Some v => v =? 0 | None => false end.

(** The values an option or a field of [data] may hold, as far as the
    program's run-time checks tell them apart: [undefined], a number, an
    array of numbers, or anything else (of which only the truthiness and
    the [length] property, when it is a count, matter). *)
Inductive value :=
| VUndefined
| VNumber (v : float)
| VArray (a : list float)
| VOther (truthy : bool) (len : option nat).

(** ToBoolean. *)
Definition truthy (v : value) : bool :=
  match v with
  | VUndefined => false
  | VNumber n => negb ((n =? 0) || is_nan n)
  | VArray _ => true
  | VOther t _ => t
  end.

(** [isAnyArray(v)]. *)
Definition isArray (v : value) : bool :=
  match v with VArray _ => true | _ => false end.

(** [v.length], [None] when it is [undefined]. *)
Definition length_of (v : value) : option nat :=
  match v with
  | VArray a => Some (List.length a)
  | VOther _ len => len
  | _ => None
  end.

(** The length of [new Array(n)]: [n] slots when [n] is a count, and the
    one-element array [[undefined]] when [n] is [undefined]. *)
Definition new_Array_length (n : option nat) : nat :=
  match n with Some k => k | None => 1%nat end.

(** The elements of an array value. *)
Definition elements (v : value) : list float :=
  match v with VArray a => a | _ => [] end.

(** A destructuring default [v = d]: it applies to [undefined] only. *)
Definition default (v d : value) : value :=
  match v with VUndefined => d | _ => v end.

Definition default_opt {A : Type} (v : option A) (d : A) : A :=
  match v with Some a => a | None => d end.

End JS.

(** ** Lists used as arrays *)

Section Arrays.
Context {A B : Type}.

(** [l.map((a, i) => f(i, a))], counting from [i]. *)
Fixpoint imap_from (f : nat -> A -> B) (i : nat) (l : list A) : list B :=
  match l with
  | [] => []
  | a :: l' => f i a :: imap_from f (S i) l'
  end.

Definition imap (f : nat -> A -> B) (l : list A) : list B := imap_from f 0 l.

(** [l[i] = f(l[i])] for [i] within the array; the program never writes
    past the end. *)
Fixpoint update (i : nat) (f : A -> A) (l : list A) : list A :=
  match l, i with
  | [], _ => []
  | a :: l', O => f a :: l'
  | a :: l', S i' => a :: update i' f l'
  end.
End Arrays.

(** ** The dense matrices of ml-matrix

    The program builds and combines its matrices through the ml-matrix
    library.  A matrix carries its dimensions and its rows.  The operations
    are the library's: [mmul] accumulates each entry from [0], left to right;
    [scale('row', {scale})] divides row [i] by [scale[i]]; [add], [mulS] and
    [scale] update the receiver in place and return it (no receiver is read
    again after such an update in this program, so they are functions
    here). *)

Module Matrix.

Record t := mk { rows : nat; columns : nat; data : list (list float) }.

Definition zeros (r c : nat) : t := mk r c (repeat (repeat 0 c) r).

Definition eye (r c : nat) (v : float) : t :=
  mk r c (map (fun i => map (fun j => if Nat.eqb i j then v else 0) (seq 0 c))
              (seq 0 r)).

Definition get (m : t) (i j : nat) : float := nth j (nth i (data m) []) nan.

Definition set (m : t) (i j : nat) (v : float) : t :=
  mk (rows m) (columns m) (update i (update j (fun _ => v)) (data m)).

Definition transpose (m : t) : t :=
  mk (columns m) (rows m)
     (map (fun j => map (fun i => get m i j) (seq 0 (rows m)))
          (seq 0 (columns m))).

Definition mmul (a b : t) : t :=
  mk (rows a) (columns b)
     (map (fun i =>
             map (fun j =>
                    fold_left (fun s k => s + get a i k * get b k j)
                              (seq 0 (columns a)) 0)
                 (seq 0 (columns b)))
          (seq 0 (rows a))).

Definition add (a b : t) : t :=
  mk (rows a) (columns a)
     (imap (fun i => imap (fun j v => v + get b i j)) (data a)).

Definition mulS (a : t) (s : float) : t :=
  mk (rows a) (columns a) (map (map (fun v => v * s)) (data a)).

Definition scale_row (a : t) (scale : list float) : t :=
  mk (rows a) (columns a)
     (imap (fun i => map (fun v => v / JS.at_ scale i)) (data a)).

End Matrix.

(** ** Calls, exceptions and the clock

    A run is observed through the calls it makes: each invocation of the
    model function [parameterizedFunction(p)], each call of [step] (with the
    damping it receives) and each call of [checkTimeout()] is appended to a
    trace; [Date.now()] reads are counted. *)

Inductive event :=
| EvModel (p : list float)
| EvStep (damping : float)
| EvCheckTimeout.

Record World := mkWorld { reads : nat; trace : list event }.

(** [throw new Error(msg)]; the time-out message interpolates
    [options.timeout]. *)
Inductive exn :=
| Error (msg : string)
| TimeoutError (timeout : JS.value).

Inductive outcome (A : Type) :=
| Ok (a : A)
| Throw (e : exn).
Arguments Ok {A} a.
Arguments Throw {A} e.

Definition M (A : Type) : Type := World -> outcome A * World.

Definition ret {A} (a : A) : M A := fun w => (Ok a, w).

Definition bind {A B} (c : M A) (k : A -> M B) : M B :=
  fun w => match c w with
           | (Ok a, w') => k a w'
           | (Throw e, w') => (Throw e, w')
           end.

Definition throw {A} (e : exn) : M A := fun w => (Throw e, w).

Definition emit (e : event) : M unit :=
  fun w => (Ok tt, mkWorld (reads w) (trace w ++ [e])).

Definition lift {A} (o : outcome A) : M A := fun w => (o, w).

Declare Scope fit_scope.
Delimit Scope fit_scope with fit.
Notation "x <- c ;; k" := (bind c (fun x => k))
  (at level 61, c at next level, right associativity) : fit_scope.
Notation "' pat <- c ;; k" := (bind c (fun x => match x with pat => k end))
  (at level 61, pat pattern, c at next level, right associativity) : fit_scope.
Notation "c ;;; k" := (bind c (fun _ => k))
  (at level 61, right associativity) : fit_scope.
Local Open Scope fit_scope.

(** ** The data of a fit *)

Module Data.
Record t := mk { x : JS.value; y : JS.value }.
End Data.

(** The [options] object. *)
Module Opt.
Record t := mk {
  timeout : JS.value;
  minValues : option (list float);
  maxValues : option (list float);
  initialValues : JS.value;
  weights : JS.value;
  damping : option float;
  dampingStepUp : option float;
  dampingStepDown : option float;
  maxIterations : option nat;
  errorTolerance : option float;
  centralDifference : option bool;
  gradientDifference : JS.value;
  improvementThreshold : option float
}.

(** [{}]: every option left out. *)
Definition empty : t :=
  mk JS.VUndefined None None JS.VUndefined JS.VUndefined None None None None
     None None JS.VUndefined None.

(** [{...o, weights: v}]. *)
Definition set_weights (o : t) (v : JS.value) : t :=
  mk (timeout o) (minValues o) (maxValues o) (initialValues o) v (damping o)
     (dampingStepUp o) (dampingStepDown o) (maxIterations o)
     (errorTolerance o) (centralDifference o) (gradientDifference o)
     (improvementThreshold o).

(** [{...o, gradientDifference: v}]. *)
Definition set_gradientDifference (o : t) (v : JS.value) : t :=
  mk (timeout o) (minValues o) (maxValues o) (initialValues o) (weights o)
     (damping o) (dampingStepUp o) (dampingStepDown o) (maxIterations o)
     (errorTolerance o) (centralDifference o) v (improvementThreshold o).
End Opt.

(** The object [checkOptions] returns.  [checkTimeout] is the closure's
    captured [endTime], [None] for the closure that always answers
    [false]. *)
Module Cfg.
Record t := mk {
  checkTimeout : option float;
  minValues : list float;
  maxValues : list float;
  parameters : list float;
  weightSquare : list float;
  damping : float;
  dampingStepUp : float;
  dampingStepDown : float;
  maxIterations : nat;
  errorTolerance : float;
  centralDifference : bool;
  gradientDifference : list JS.slot;
  improvementThreshold : float
}.
End Cfg.

(** The result of a fit. *)
Module Fit.
Record t := mk {
  parameterValues : list float;
  parameterError : float;
  iterations : nat
}.
End Fit.

(** The variables of the loop of [levenbergMarquardt]. *)
Module Loop.
Record t := mk {
  parameters : list float;
  error : float;
  damping : float;
  iteration : nat;
  converged : bool
}.
End Loop.

(** What one iteration has computed when it scores its trial: the clamped
    parameters, their error, and the two matrices [step] returned. *)
Module Trial.
Record t := mk {
  parameters : list float;
  error : float;
  perturbations : Matrix.t;
  jacobianWeigthResidualError : Matrix.t
}.
End Trial.

(** How an iteration ends: it reaches the end of the loop body, or leaves
    the loop through [break]. *)
Inductive flow :=
| Next (st : Loop.t)
| Break (st : Loop.t).

(** A [for] loop over an array whose body may call the model function. *)
Fixpoint foldM {A S : Type} (f : S -> A -> M S) (l : list A) (s : S) : M S :=
  match l with
  | [] => ret s
  | a :: l' => s' <- f s a ;; foldM f l' s'
  end.

(** ** The program *)

Section LevenbergMarquardt.

(** [Date.now()]: the value of the clock at its k-th read, in
    milliseconds. *)
Variable Date_now : nat -> float.

(** The model function, a pure function of the parameters and of the
    independent variable, and its declared arity
    ([parameterizedFunction.length]). *)
Variable parameterizedFunction : list float -> float -> float.
Variable arity : nat.

(** [mlMatrix.inverse], which may throw.  The library answers with a
    matrix of the dimensions of its argument; for such an answer every
    matrix index the program uses is in range. *)
Variable inverse : Matrix.t -> outcome Matrix.t.

Definition now : M float :=
  fun w => (Ok (Date_now (reads w)), mkWorld (S (reads w)) (trace w)).

(** [parameterizedFunction(p)]. *)
Definition call (p : list float) : M (float -> float) :=
  emit (EvModel p) ;;; ret (parameterizedFunction p).

(** The normalisation of [gradientDifference] in [checkOptions], for
    [parLen] parameters. *)
Definition gradientDifferenceArray (gradientDifference : JS.value)
    (parLen : nat) : M (list JS.slot) :=
  match gradientDifference with
  | JS.VNumber g => ret (repeat (Some g) parLen)
  | JS.VArray g =>
      if negb (length g =? parLen)%nat
      then ret (repeat (nth_error g 0) parLen)
      else ret (map Some g)
  | _ =>
      throw (Error
        "gradientDifference should be a number or array with length equal to the number of parameters")
  end.

(** The choice of [filler] in [checkOptions], [nbx] being
    [data.x.length]. *)
Definition weightFiller (weights : JS.value) (nbx : nat)
    : M (nat -> float) :=
  match weights with
  | JS.VNumber w =>
      let value := 1 / JS.Math_pow2 w in
      ret (fun _ : nat => value)
  | JS.VArray w =>
      if (length w <? nbx)%nat then
        let value := 1 / JS.Math_pow2 (JS.at_ w 0) in
        ret (fun _ : nat => value)
      else ret (fun i : nat => 1 / JS.Math_pow2 (JS.at_ w i))
  | _ =>
      throw (Error
        "weights should be a number or array with length equal to the number of data points")
  end.

(** The choice of [checkTimeout] in [checkOptions]: the captured
    [endTime], if any. *)
Definition timeoutClosure (timeout : JS.value) : M (option float) :=
  match timeout with
  | JS.VUndefined => ret None
  | JS.VNumber t =>
      n <- now ;;
      let endTime := n + t * 1000 in
      ret (Some endTime)
  | _ => throw (Error "timeout should be a number")
  end.

(** [maxIterations] is taken as a count: the loop counter then stays
    among the integers that a number represents exactly. *)
Definition checkOptions (data : Data.t) (options : Opt.t) : M Cfg.t :=
  let timeout := Opt.timeout options in
  let minValues := Opt.minValues options in
  let maxValues := Opt.maxValues options in
  let initialValues := Opt.initialValues options in
  let weights := JS.default (Opt.weights options) (JS.VNumber 1) in
  let damping := JS.default_opt (Opt.damping options) 1e-2 in
  let dampingStepUp := JS.default_opt (Opt.dampingStepUp options) 11 in
  let dampingStepDown := JS.default_opt (Opt.dampingStepDown options) 9 in
  let maxIterations := JS.default_opt (Opt.maxIterations options) 100%nat in
  let errorTolerance := JS.default_opt (Opt.errorTolerance options) 1e-7 in
  let centralDifference :=
    JS.default_opt (Opt.centralDifference options) false in
  let gradientDifference :=
    JS.default (Opt.gradientDifference options) (JS.VNumber 10e-2) in
  let improvementThreshold :=
    JS.default_opt (Opt.improvementThreshold options) 1e-3 in
  let x := Data.x data in
  let y := Data.y data in
  if damping <=? 0 then
    throw (Error "The damping option must be a positive number")
  else if negb (JS.truthy x) || negb (JS.truthy y) then
    throw (Error "The data parameter must have x and y elements")
  else if negb (JS.isArray x)
          || (length (JS.elements x) <? 2)%nat
          || negb (JS.isArray y)
          || (length (JS.elements y) <? 2)%nat then
    throw (Error
      "The data parameter elements must be an array with more than 2 points")
  else if negb (length (JS.elements x) =? length (JS.elements y))%nat then
    throw (Error "The data parameter elements must have the same size")
  else
    let parameters :=
      if JS.truthy initialValues then initialValues
      else JS.VArray (repeat 1 arity) in
    let nbPoints := length (JS.elements y) in
    let parLen := JS.length_of parameters in
    let maxValues :=
      JS.default_opt maxValues
        (repeat JS.MAX_SAFE_INTEGER (JS.new_Array_length parLen)) in
    let minValues :=
      JS.default_opt minValues
        (repeat JS.MIN_SAFE_INTEGER (JS.new_Array_length parLen)) in
    if negb (length maxValues =? length minValues)%nat then
      throw (Error "minValues and maxValues must be the same size")
    else
      match parameters with
      | JS.VArray parameters =>
          let parLen := length parameters in
          gradientDifference <-
            gradientDifferenceArray gradientDifference parLen ;;
          filler <- weightFiller weights (length (JS.elements x)) ;;
          checkTimeout <- timeoutClosure timeout ;;
          let weightSquare := map filler (seq 0 nbPoints) in
          ret (Cfg.mk checkTimeout minValues maxValues parameters
                      weightSquare damping dampingStepUp dampingStepDown
                      maxIterations errorTolerance centralDifference
                      gradientDifference improvementThreshold)
      | _ => throw (Error "initialValues must be an array")
      end.

(** The closure [checkTimeout] of the returned object. *)
Definition checkTimeout (cfg : Cfg.t) : M bool :=
  emit EvCheckTimeout ;;;
  match Cfg.checkTimeout cfg with
  | Some endTime => n <- now ;; ret (endTime <? n)
  | None => ret false
  end.

Definition errorCalculation (data : Data.t) (parameters : list float)
    (weightSquare : list float) : M float :=
  let error := 0 in
  func <- call parameters ;;
  ret (fold_left
         (fun error i =>
            error
            + JS.Math_pow2 (JS.at_ (JS.elements (Data.y data)) i
                            - func (JS.at_ (JS.elements (Data.x data)) i))
              / JS.at_ weightSquare i)
         (seq 0 (length (JS.elements (Data.x data)))) error).

(** One round of the loop over the parameters in [gradientFunction]. *)
Definition gradientRow (data : Data.t) (evaluatedData params : list float)
    (gradientDifference : list JS.slot) (centralDifference : bool)
    (nbPoints : nat) (acc : Matrix.t * nat) (param : nat)
    : M (Matrix.t * nat) :=
  let '(ans, rowIndex) := acc in
  if JS.is_zero_slot (nth param gradientDifference None) then ret (ans, rowIndex)
  else
    let delta := JS.toNumber (nth param gradientDifference None) in
    let auxParams := update param (fun v => v + delta) params in
    funcParam <- call auxParams ;;
    if negb centralDifference then
      let ans :=
        fold_left
          (fun ans point =>
             Matrix.set ans rowIndex point
               ((JS.at_ evaluatedData point
                 - funcParam (JS.at_ (JS.elements (Data.x data)) point))
                / delta))
          (seq 0 nbPoints) ans in
      ret (ans, S rowIndex)
    else
      let auxParams := update param (fun v => v - delta) params in
      let delta := delta * 2 in
      funcParam2 <- call auxParams ;;
      let ans :=
        fold_left
          (fun ans point =>
             Matrix.set ans rowIndex point
               ((funcParam2 (JS.at_ (JS.elements (Data.x data)) point)
                 - funcParam (JS.at_ (JS.elements (Data.x data)) point))
                / delta))
          (seq 0 nbPoints) ans in
      ret (ans, S rowIndex).

Definition gradientFunction (data : Data.t)
    (evaluatedData params : list float) (gradientDifference : list JS.slot)
    (centralDifference : bool) : M Matrix.t :=
  let nbParams := length params in
  let nbPoints := length (JS.elements (Data.x data)) in
  let ans := Matrix.zeros nbParams nbPoints in
  let rowIndex := 0%nat in
  '(ans, _) <- foldM (gradientRow data evaluatedData params
                        gradientDifference centralDifference nbPoints)
                     (seq 0 nbParams) (ans, rowIndex) ;;
  ret ans.

Definition matrixFunction (data : Data.t) (evaluatedData : list float)
    : Matrix.t :=
  let m := length (JS.elements (Data.x data)) in
  let ans := Matrix.zeros m 1 in
  fold_left
    (fun ans point =>
       Matrix.set ans point 0
         (JS.at_ (JS.elements (Data.y data)) point
          - JS.at_ evaluatedData point))
    (seq 0 m) ans.

(** The matrix [step] hands to [mlMatrix.inverse]. *)
Definition dampedNormalMatrix (params : list float) (damping : float)
    (gradientFunc : Matrix.t) (weights : list float) : Matrix.t :=
  let value := damping in
  let identity := Matrix.eye (length params) (length params) value in
  Matrix.add identity
    (Matrix.mmul gradientFunc
       (Matrix.scale_row (Matrix.transpose gradientFunc) weights)).

Definition step (data : Data.t) (params : list float) (damping : float)
    (gradientDifference : list JS.slot) (centralDifference : bool)
    (weights : list float) : M (Matrix.t * Matrix.t) :=
  emit (EvStep damping) ;;;
  func <- call params ;;
  let evaluatedData := map func (JS.elements (Data.x data)) in
  gradientFunc <- gradientFunction data evaluatedData params
                    gradientDifference centralDifference ;;
  let residualError := matrixFunction data evaluatedData in
  inverseMatrix <-
    lift (inverse (dampedNormalMatrix params damping gradientFunc weights)) ;;
  let jacobianWeigthResidualError :=
    Matrix.mmul gradientFunc (Matrix.scale_row residualError weights) in
  let perturbations :=
    Matrix.mmul inverseMatrix jacobianWeigthResidualError in
  ret (perturbations, jacobianWeigthResidualError).

(** The parameter update of an iteration: every entry is moved by its
    perturbation and clamped. *)
Definition clamped (cfg : Cfg.t) (parameters : list float)
    (perturbations : Matrix.t) : list float :=
  imap (fun k p =>
          JS.Math_min
            (JS.Math_max (JS.at_ (Cfg.minValues cfg) k)
                         (p - Matrix.get perturbations k 0))
            (JS.at_ (Cfg.maxValues cfg) k))
       parameters.

(** An iteration up to the new [error]. *)
Definition attempt (data : Data.t) (cfg : Cfg.t) (st : Loop.t)
    : M Trial.t :=
  '(perturbations, jacobianWeigthResidualError) <-
    step data (Loop.parameters st) (Loop.damping st)
         (Cfg.gradientDifference cfg) (Cfg.centralDifference cfg)
         (Cfg.weightSquare cfg) ;;
  let parameters := clamped cfg (Loop.parameters st) perturbations in
  error <- errorCalculation data parameters (Cfg.weightSquare cfg) ;;
  ret (Trial.mk parameters error perturbations
                jacobianWeigthResidualError).

(** The denominator of the improvement metric. *)
Definition predictedReduction (st : Loop.t) (t : Trial.t) : float :=
  Matrix.get
    (Matrix.mmul
       (Matrix.transpose (Trial.perturbations t))
       (Matrix.add
          (Matrix.mulS (Trial.perturbations t) (Loop.damping st))
          (Trial.jacobianWeigthResidualError t)))
    0 0.

Definition improvementMetric (st : Loop.t) (t : Trial.t) : float :=
  (Loop.error st - Trial.error t) / predictedReduction st t.

(** The accepted / rejected branch of an iteration: [error] and
    [damping] after it, the parameters being those of the trial. *)
Definition settle (cfg : Cfg.t) (st : Loop.t) (t : Trial.t) : Loop.t :=
  let previousError := Loop.error st in
  if Cfg.improvementThreshold cfg <? improvementMetric st t then
    Loop.mk (Trial.parameters t) (Trial.error t)
            (JS.Math_max (Loop.damping st / Cfg.dampingStepDown cfg) 1e-7)
            (Loop.iteration st) (Loop.converged st)
  else
    Loop.mk (Trial.parameters t) previousError
            (JS.Math_min (Loop.damping st * Cfg.dampingStepUp cfg) 1e7)
            (Loop.iteration st) (Loop.converged st).

(** The body of the loop. *)
Definition body (data : Data.t) (options : Opt.t) (cfg : Cfg.t)
    (st : Loop.t) : M flow :=
  t <- attempt data cfg st ;;
  if JS.isNaN (Trial.error t) then
    ret (Break (Loop.mk (Trial.parameters t) (Trial.error t)
                        (Loop.damping st) (Loop.iteration st)
                        (Loop.converged st)))
  else
    let st' := settle cfg st t in
    expired <- checkTimeout cfg ;;
    if expired then throw (TimeoutError (Opt.timeout options))
    else
      ret (Next (Loop.mk (Loop.parameters st') (Loop.error st')
                         (Loop.damping st') (Loop.iteration st')
                         (Loop.error st' <=? Cfg.errorTolerance cfg))).

(** [iteration++]. *)
Definition increment (st : Loop.t) : Loop.t :=
  Loop.mk (Loop.parameters st) (Loop.error st) (Loop.damping st)
          (S (Loop.iteration st)) (Loop.converged st).

(** The [for] loop, unrolled at most [fuel] times. *)
Fixpoint loop (data : Data.t) (options : Opt.t) (cfg : Cfg.t) (fuel : nat)
    (st : Loop.t) : M Loop.t :=
  if (Loop.iteration st <? Cfg.maxIterations cfg)%nat
     && negb (Loop.converged st) then
    match fuel with
    | O => ret st
    | S fuel' =>
        r <- body data options cfg st ;;
        match r with
        | Break st' => ret st'
        | Next st' => loop data options cfg fuel' (increment st')
        end
    end
  else ret st.

(** The loop runs at most [maxIterations] times, so that much fuel
    runs it to its end (see [loop_fuel]). *)
Definition levenbergMarquardt (data : Data.t) (options : Opt.t)
    : M Fit.t :=
  cfg <- checkOptions data options ;;
  error <- errorCalculation data (Cfg.parameters cfg)
             (Cfg.weightSquare cfg) ;;
  let converged := error <=? Cfg.errorTolerance cfg in
  let iteration := 0%nat in
  st <- loop data options cfg (Cfg.maxIterations cfg)
          (Loop.mk (Cfg.parameters cfg) error (Cfg.damping cfg)
                   iteration converged) ;;
  ret (Fit.mk (Loop.parameters st) (Loop.error st) (Loop.iteration st)).

(** ** Notions the properties are stated with *)

(** The rows [gradientFunction] fills: one per parameter whose step is not
    [0], in the order of the parameters. *)
Definition activeParameters (gradientDifference : list JS.slot)
    (nbParams : nat) : list nat :=
  filter (fun param =>
            negb (JS.is_zero_slot (nth param gradientDifference None)))
         (seq 0 nbParams).

(** The row [gradientFunction] computes for the parameter [param]. *)
Definition differenceQuotients (data : Data.t)
    (evaluatedData params : list float) (gradientDifference : list JS.slot)
    (centralDifference : bool) (param : nat) : list float :=
  let delta := JS.toNumber (nth param gradientDifference None) in
  let funcParam :=
    parameterizedFunction (update param (fun v => v + delta) params) in
  let funcParam2 :=
    parameterizedFunction (update param (fun v => v - delta) params) in
  map (fun point =>
         let x := JS.at_ (JS.elements (Data.x data)) point in
         if centralDifference
         then (funcParam2 x - funcParam x) / (delta * 2)
         else (JS.at_ evaluatedData point - funcParam x) / delta)
      (seq 0 (length (JS.elements (Data.x data)))).

(** The sign of a float, when it has one. *)
Definition sf_signed (s : bool) (x : spec_float) : Prop :=
  match x with
  | S754_nan => True
  | S754_zero s' | S754_infinity s' | S754_finite s' _ _ => s' = s
  end.

(** NaN, or a float whose sign bit is clear. *)
Definition sf_nonneg (x : spec_float) : Prop := sf_signed false x.

Definition nonneg (v : float) : Prop := sf_nonneg (Prim2SF v).

(** [+Infinity] or a finite float above [0]. *)
Definition sf_positive (x : spec_float) : Prop :=
  match x with
  | S754_infinity false | S754_finite false _ _ => True
  | _ => False
  end.

(** The real number [m * 2 ^ e] a positive finite float stands for. *)
Definition bpow (e : Z) : R := powerRZ 2 e.

Definition real_value (m : positive) (e : Z) : R :=
  (IZR (Zpos m) * bpow e)%R.

(** The interval the specification gives for the damping. *)
Definition in_range (d : float) : Prop :=
  (1e-7 <=? d) = true /\ (d <=? 1e7) = true.

(** A parameter that kept the value [c], or turned into NaN. *)
Definition kept_or_nan (c p : float) : Prop := p = c \/ p = nan.

(** [c] appends to the trace, whatever its outcome, events that satisfy
    [P]. *)
Definition emits (P : list event -> Prop) {A : Type} (c : M A) : Prop :=
  forall w r w', c w = (r, w') ->
    exists l, trace w' = trace w ++ l /\ P l.

(** No call of [step]. *)
Definition no_step (l : list event) : Prop :=
  forall d, ~ In (EvStep d) l.

(** Every call of [step] receives a damping within the interval. *)
Definition steps_in_range (l : list event) : Prop :=
  forall d, In (EvStep d) l -> in_range d.

(** ** Concrete fits *)

(** [mlMatrix.inverse] on a 1 x 1 matrix [[a]]: its LU decomposition is
    the matrix itself, singular when [a] is [0], and solving against the
    identity leaves [1 / a]. *)
Definition reciprocal (m : Matrix.t) : outcome Matrix.t :=
  if Matrix.get m 0 0 =? 0 then Throw (Error "LU matrix is singular")
  else Ok (Matrix.mk 1 1 [[1 / Matrix.get m 0 0]]).

(** A clock that stands still, and the world before a call. *)
Definition still (k : nat) : float := 0.

Definition start : World := mkWorld 0 [].

(** Model functions: [a => x => a * x], [a => x => a * a * x],
    [a => x => x / a], [a => x => Math.sqrt(1 - a) * x] and
    [(a, b) => x => a + b * x]. *)
Definition proportional (p : list float) (x : float) : float :=
  JS.at_ p 0 * x.

Definition quadratic (p : list float) (x : float) : float :=
  JS.at_ p 0 * JS.at_ p 0 * x.

Definition hyperbola (p : list float) (x : float) : float :=
  x / JS.at_ p 0.

Definition root (p : list float) (x : float) : float :=
  PrimFloat.sqrt (1 - JS.at_ p 0) * x.

Definition line (p : list float) (x : float) : float :=
  JS.at_ p 0 + JS.at_ p 1 * x.

(** The samples [{x: [1, 2], y}]. *)
Definition samples (y : list float) : Data.t :=
  Data.mk (JS.VArray [1; 2]) (JS.VArray y).

(** [{initialValues, maxIterations}]. *)
Definition starting_at (initialValues : list float) (maxIterations : nat)
    : Opt.t :=
  Opt.mk JS.VUndefined None None (JS.VArray initialValues) JS.VUndefined
         None None None (Some maxIterations) None None JS.VUndefined None.

(** [{initialValues: [0.25], maxIterations: 1, improvementThreshold: -10}]. *)
Definition lenient : Opt.t :=
  Opt.mk JS.VUndefined None None (JS.VArray [0.25]) JS.VUndefined
         None None None (Some 1%nat) None None JS.VUndefined (Some (-10)).

(** [{initialValues: [1], maxIterations: 2, damping: 1e8}]. *)
Definition heavily_damped : Opt.t :=
  Opt.mk JS.VUndefined None None (JS.VArray [1]) JS.VUndefined
         (Some 1e8) None None (Some 2%nat) None None JS.VUndefined None.

(** [{initialValues: [1], minValues: [0], maxIterations: 1}]. *)
Definition kept_positive : Opt.t :=
  Opt.mk JS.VUndefined (Some [0]) None (JS.VArray [1]) JS.VUndefined
         None None None (Some 1%nat) None None JS.VUndefined None.

(** [{initialValues: [1], minValues: [1], maxValues: [1]}]. *)
Definition pinned : Opt.t :=
  Opt.mk JS.VUndefined (Some [1]) (Some [1]) (JS.VArray [1]) JS.VUndefined
         None None None None None None JS.VUndefined None.

(** The object [checkOptions] returns for
    [{initialValues: [1], maxIterations: 100}] on two samples. *)
Definition defaults : Cfg.t :=
  Cfg.mk None [JS.MIN_SAFE_INTEGER] [JS.MAX_SAFE_INTEGER] [1] [1; 1]
         1e-2 11 9 100 1e-7 false [Some 10e-2] 1e-3.

(** The variables of a loop before an iteration, and a trial that lowers
    the error from [5] to [1]. *)
Definition before : Loop.t := Loop.mk [1] 5 0.5 0 false.

Definition improved : Trial.t :=
  Trial.mk [2] 1 (Matrix.mk 1 1 [[-1]]) (Matrix.mk 1 1 [[-4]]).

(** ** Notions for the calls and the clock of a run *)

(** [c] never reads the clock. *)
Definition keeps_clock {A : Type} (c : M A) : Prop :=
  forall w r w', c w = (r, w') -> reads w' = reads w.

(** Only calls of the model function. *)
Definition model_calls (l : list event) : Prop :=
  forall e, In e l -> exists p, e = EvModel p.

Definition is_step (e : event) : bool :=
  match e with EvStep _ => true | _ => false end.

Definition is_check (e : event) : bool :=
  match e with EvCheckTimeout => true | _ => false end.

(** How many events of a kind a trace holds. *)
Definition count (kind : event -> bool) (l : list event) : nat :=
  length (filter kind l).

(** A parameter that respects its upper bound, and its lower bound too
    when the two bounds are ordered. *)
Definition within (lo hi p : float) : Prop :=
  (p <=? hi) = true /\ ((lo <=? hi) = true -> (lo <=? p) = true).

(** The calls of the model function that [gradientFunction] makes for the
    parameter [param]: none when its step is [0], one at the parameter
    moved up by its step, and with central differences a second one at the
    parameter moved down. *)
Definition gradientCalls (params : list float)
    (gradientDifference : list JS.slot) (centralDifference : bool)
    (param : nat) : list event :=
  if JS.is_zero_slot (nth param gradientDifference None) then []
  else
    let delta := JS.toNumber (nth param gradientDifference None) in
    let up := EvModel (update param (fun v => v + delta) params) in
    let down := EvModel (update param (fun v => v - delta) params) in
    if centralDifference then [up; down] else [up].

(** [{...o, timeout: undefined}]. *)
Definition without_timeout (o : Opt.t) : Opt.t :=
  Opt.mk JS.VUndefined (Opt.minValues o) (Opt.maxValues o)
         (Opt.initialValues o) (Opt.weights o) (Opt.damping o)
         (Opt.dampingStepUp o) (Opt.dampingStepDown o) (Opt.maxIterations o)
         (Opt.errorTolerance o) (Opt.centralDifference o)
         (Opt.gradientDifference o) (Opt.improvementThreshold o).

(** The object [checkOptions] returns, with the [checkTimeout] that always
    answers [false]. *)
Definition never_expiring (cfg : Cfg.t) : Cfg.t :=
  Cfg.mk None (Cfg.minValues cfg) (Cfg.maxValues cfg) (Cfg.parameters cfg)
         (Cfg.weightSquare cfg) (Cfg.damping cfg) (Cfg.dampingStepUp cfg)
         (Cfg.dampingStepDown cfg) (Cfg.maxIterations cfg)
         (Cfg.errorTolerance cfg) (Cfg.centralDifference cfg)
         (Cfg.gradientDifference cfg) (Cfg.improvementThreshold cfg).

(** Two runs with the same outcome and the same calls. *)
Definition agree {A : Type} (r1 r2 : outcome A * World) : Prop :=
  fst r1 = fst r2 /\ trace (snd r1) = trace (snd r2).

(** [c] does not look at the clock: its outcome and its calls depend on
    the trace only. *)
Definition clock_blind {A : Type} (c : M A) : Prop :=
  forall w1 w2, trace w1 = trace w2 -> agree (c w1) (c w2).

Definition is_model (e : event) : bool :=
  match e with EvModel _ => true | _ => false end.

(** The parameters of the last call of the model function in a trace. *)
Fixpoint last_model (l : list event) : option (list float) :=
  match l with
  | [] => None
  | e :: l' =>
      match last_model l', e with
      | Some p, _ => Some p
      | None, EvModel p => Some p
      | None, _ => None
      end
  end.

(** The number of model evaluations of one iteration: one in [step], one
    or two per parameter whose step is not [0] in [gradientFunction], one
    in [errorCalculation]. *)
Definition evaluationsPerIteration (cfg : Cfg.t) : nat :=
  2 + (if Cfg.centralDifference cfg then 2 else 1)
      * length (activeParameters (Cfg.gradientDifference cfg)
                  (length (Cfg.parameters cfg))).

(** ** More concrete fits *)

(** A clock that shows [0] at its first read and [2000] from then on. *)
Definition late (k : nat) : float :=
  match k with O => 0 | S _ => 2000 end.

(** [{initialValues: [1], timeout: 1}]. *)
Definition timed : Opt.t :=
  Opt.mk (JS.VNumber 1) None None (JS.VArray [1]) JS.VUndefined
         None None None None None None JS.VUndefined None.

(** [{initialValues: [1], minValues: [], maxValues: []}]. *)
Definition unbounded : Opt.t :=
  Opt.mk JS.VUndefined (Some []) (Some []) (JS.VArray [1]) JS.VUndefined
         None None None None None None JS.VUndefined None.


(** A trial that moves nothing: no perturbation, the error [5] of
    [before]. *)
Definition stalled : Trial.t :=
  Trial.mk [1] 5 (Matrix.mk 1 1 [[0]]) (Matrix.mk 1 1 [[0]]).

(** * Properties *)

(** ** Floating-point facts: signs *)

Lemma binary_round_aux_signed s m e l :
  sf_signed s (binary_round_aux prec emax s m e l).
Proof.
  unfold binary_round_aux.
  destruct (shr_fexp prec emax m e l) as [mrs' e'].
  destruct (shr_fexp prec emax _ e' loc_Exact) as [mrs'' e''].
  destruct (shr_m mrs''); simpl; auto.
  destruct (Z.leb _ _); simpl; auto.
Qed.

Lemma binary_round_signed s m e :
  sf_signed s (binary_round prec emax s m e).
Proof.
  unfold binary_round.
  destruct (shl_align _ _ _) as [mz ez].
  apply binary_round_aux_signed.
Qed.

Lemma SFmul_square_nonneg x : sf_nonneg (SF64mul x x).
Proof.
  destruct x as [s|s| |s m e]; simpl; auto.
  - now destruct s.
  - now destruct s.
  - unfold SF64mul, SFmul.
    generalize (binary_round_aux_signed (xorb s s) (Zpos (m * m)) (e + e) loc_Exact).
    rewrite xorb_nilpotent.
    destruct (binary_round_aux _ _ _ _ _ _); simpl; auto.
Qed.

Lemma SFdiv_nonneg x y :
  sf_nonneg x -> sf_nonneg y -> sf_nonneg (SF64div x y).
Proof.
  destruct x as [sx|sx| |sx mx ex], y as [sy|sy| |sy my ey];
    simpl; intros; subst; simpl; auto.
  unfold SF64div, SFdiv.
  destruct (SFdiv_core_binary _ _ _ _ _ _) as [[mz ez] lz].
  generalize (binary_round_aux_signed (xorb false false) mz ez lz).
  simpl. destruct (binary_round_aux _ _ _ _ _ _); simpl; auto.
Qed.

Lemma SFadd_nonneg x y :
  sf_nonneg x -> sf_nonneg y -> sf_nonneg (SF64add x y).
Proof.
  destruct x as [sx|sx| |sx mx ex], y as [sy|sy| |sy my ey];
    simpl; intros; subst; simpl; auto.
  unfold SF64add, SFadd. simpl.
  generalize (binary_round_signed false
     (fst (shl_align mx ex (Z.min ex ey)) + fst (shl_align my ey (Z.min ex ey)))
     (Z.min ex ey)).
  destruct (binary_round _ _ _ _ _); simpl; auto.
Qed.

Lemma is_nan_spec v : is_nan v = true <-> Prim2SF v = S754_nan.
Proof.
  unfold is_nan. rewrite eqb_spec. unfold SFeqb.
  destruct (Prim2SF v) as [s|s| |s m e]; simpl.
  - split; discriminate.
  - destruct s; simpl; split; discriminate.
  - split; reflexivity.
  - rewrite Z.compare_refl. 
    assert (H : Pos.compare_cont Eq m m = Eq) by apply Pos.compare_cont_refl.
    destruct s; rewrite H; simpl; split; discriminate.
Qed.

Lemma nonneg_leb v : nonneg v -> is_nan v = true \/ (0 <=? v) = true.
Proof.
  unfold nonneg. intros H.
  destruct (is_nan v) eqn:E; [now left|right].
  rewrite leb_spec. 
  assert (N : Prim2SF v <> S754_nan).
  { intros C. apply is_nan_spec in C. congruence. }
  change (Prim2SF 0) with (S754_zero false).
  destruct (Prim2SF v) as [s|s| |s m e]; simpl in *; subst; auto; congruence.
Qed.

(** ** Floating-point facts: comparisons, [Math.max] and [Math.min] *)

Lemma SFcompare_antisym x y :
  SFcompare y x = option_map CompOpp (SFcompare x y).
Proof.
  destruct x as [sx|sx| |sx mx ex], y as [sy|sy| |sy my ey]; simpl;
    try reflexivity;
    try (destruct sx; reflexivity); try (destruct sy; reflexivity);
    try (destruct sx, sy; reflexivity).
  rewrite (Z.compare_antisym ex ey).
  pose proof (Pos.compare_cont_antisym mx my Eq) as H; simpl in H;
    rewrite <- H; clear H.
  destruct sx, sy; simpl; try reflexivity;
    destruct (ex ?= ey)%Z; simpl; try reflexivity;
    destruct (Pos.compare_cont Eq mx my); reflexivity.
Qed.

Lemma SFcompare_refl x : x <> S754_nan -> SFcompare x x = Some Eq.
Proof.
  destruct x as [s|s| |s m e]; simpl; intros H; try congruence.
  - now destruct s.
  - rewrite Z.compare_refl, Pos.compare_cont_refl. now destruct s.
Qed.

Lemma ltb_asym a b : (a <? b) = true -> (b <? a) = false.
Proof.
  rewrite !ltb_spec. unfold SFltb. rewrite (SFcompare_antisym (Prim2SF a)).
  destruct (SFcompare _ _) as [[]|]; simpl; congruence.
Qed.

Lemma ltb_irrefl a : (a <? a) = false.
Proof.
  destruct (a <? a) eqn:E; auto. now rewrite (ltb_asym _ _ E) in E.
Qed.

Lemma nan_unique a : is_nan a = true -> a = nan.
Proof.
  intros H. apply is_nan_spec in H. apply Prim2SF_inj. now rewrite H.
Qed.

Lemma compare_eq_of_not_lt a b :
  is_nan a = false -> is_nan b = false ->
  (a <? b) = false -> (b <? a) = false ->
  SFcompare (Prim2SF a) (Prim2SF b) = Some Eq.
Proof.
  intros Na Nb. rewrite !ltb_spec. unfold SFltb.
  rewrite (SFcompare_antisym (Prim2SF a)).
  assert (Ha : Prim2SF a <> S754_nan) by (rewrite <- is_nan_spec; congruence).
  assert (Hb : Prim2SF b <> S754_nan) by (rewrite <- is_nan_spec; congruence).
  destruct (SFcompare (Prim2SF a) (Prim2SF b)) as [[]|] eqn:E; simpl;
    try congruence.
  destruct (Prim2SF a), (Prim2SF b); simpl in E; congruence.
Qed.

Lemma Math_min_same c : JS.Math_min c c = c.
Proof.
  unfold JS.Math_min. destruct (is_nan c) eqn:N; simpl.
  - symmetry. now apply nan_unique.
  - rewrite ltb_irrefl. now destruct (classify c).
Qed.

Lemma classify_NZero a : classify a = NZero -> Prim2SF a = S754_zero true.
Proof.
  rewrite classify_spec. unfold SF64classify, SFclassify.
  destruct (Prim2SF a) as [[]|[]| |[] m e]; try discriminate; auto;
    destruct (Z.eqb _ _); discriminate.
Qed.

Lemma classify_PZero a : classify a = PZero -> Prim2SF a = S754_zero false.
Proof.
  rewrite classify_spec. unfold SF64classify, SFclassify.
  destruct (Prim2SF a) as [[]|[]| |[] m e]; try discriminate; auto;
    destruct (Z.eqb _ _); discriminate.
Qed.

(** Clamping between equal bounds. *)
Lemma clamp_fixed c z :
  is_nan z = false -> JS.Math_min (JS.Math_max c z) c = c.
Proof.
  intros Nz. unfold JS.Math_max. rewrite Nz, orb_false_r.
  destruct (is_nan c) eqn:Nc.
  - unfold JS.Math_min. simpl. symmetry. now apply nan_unique.
  - destruct (c <? z) eqn:L1.
    + unfold JS.Math_min. rewrite Nz, Nc. simpl.
      now rewrite (ltb_asym _ _ L1), L1.
    + destruct (z <? c) eqn:L2.
      * apply Math_min_same.
      * destruct (classify c) eqn:C; try apply Math_min_same.
        unfold JS.Math_min. rewrite Nz, Nc, L2, L1. simpl.
        pose proof (compare_eq_of_not_lt c z Nc Nz L1 L2) as E.
        pose proof (classify_NZero _ C) as Hc. rewrite Hc in E.
        assert (Hz : classify z = PZero \/ z = c).
        { rewrite classify_spec. apply or_comm.
          destruct (Prim2SF z) as [[]|[]| |[] m e] eqn:Pz;
            simpl in E; try discriminate.
          - left. apply Prim2SF_inj. congruence.
          - right. reflexivity. }
        destruct Hz as [Hz|Hz]; [now rewrite Hz|].
        subst z. now destruct (classify c).
Qed.

Lemma clamp_fixed_or_nan c z :
  JS.Math_min (JS.Math_max c z) c = c \/ JS.Math_min (JS.Math_max c z) c = nan.
Proof.
  destruct (is_nan z) eqn:Nz.
  - right. unfold JS.Math_max. rewrite Nz, orb_true_r. reflexivity.
  - left. now apply clamp_fixed.
Qed.

(** One-sided clamps of the damping. *)
Lemma ltb_leb a b : (a <? b) = true -> (a <=? b) = true.
Proof.
  rewrite ltb_spec, leb_spec. unfold SFltb, SFleb.
  destruct (SFcompare _ _) as [[]|]; congruence.
Qed.

Lemma leb_refl a : is_nan a = false -> (a <=? a) = true.
Proof.
  intros N. rewrite leb_spec. unfold SFleb. rewrite SFcompare_refl; auto.
  rewrite <- is_nan_spec. congruence.
Qed.

Lemma leb_of_not_lt a b :
  is_nan a = false -> is_nan b = false -> (a <? b) = false -> (b <=? a) = true.
Proof.
  intros Na Nb L. destruct (b <? a) eqn:L2.
  - now apply ltb_leb.
  - pose proof (compare_eq_of_not_lt a b Na Nb L L2) as E.
    rewrite leb_spec. unfold SFleb. rewrite SFcompare_antisym, E. reflexivity.
Qed.

Lemma Math_max_lower a b :
  is_nan (JS.Math_max a b) = true \/ (b <=? JS.Math_max a b) = true.
Proof.
  unfold JS.Math_max.
  destruct (is_nan a) eqn:Na; [now left|].
  destruct (is_nan b) eqn:Nb; [now left|]. simpl. right.
  destruct (a <? b) eqn:L1; [now apply leb_refl|].
  destruct (b <? a) eqn:L2; [now apply ltb_leb|].
  destruct (classify a); try (now apply leb_refl); now apply leb_of_not_lt.
Qed.

Lemma Math_min_upper a b :
  is_nan (JS.Math_min a b) = true \/ (JS.Math_min a b <=? b) = true.
Proof.
  unfold JS.Math_min.
  destruct (is_nan a) eqn:Na; [now left|].
  destruct (is_nan b) eqn:Nb; [now left|]. simpl. right.
  destruct (a <? b) eqn:L1; [now apply ltb_leb|].
  destruct (b <? a) eqn:L2; [now apply leb_refl|].
  pose proof (compare_eq_of_not_lt a b Na Nb L1 L2) as E.
  destruct (classify a); try (now apply leb_refl);
    rewrite leb_spec; unfold SFleb; now rewrite E.
Qed.

(** ** Floating-point facts: the sign of a difference and of a quotient *)

Lemma positive_of_gt_nonneg t q :
  (0 <=? t) = true -> (t <? q) = true -> sf_positive (Prim2SF q).
Proof.
  rewrite leb_spec, ltb_spec. unfold SFleb, SFltb.
  change (Prim2SF 0) with (S754_zero false).
  destruct (Prim2SF t) as [st|st| |st mt et], (Prim2SF q) as [sq|sq| |sq mq eq];
    simpl; try discriminate;
    try (destruct st; discriminate); try (destruct sq; discriminate);
    try (destruct st, sq; discriminate);
    try (destruct sq; simpl; auto; discriminate);
    try (destruct st, sq; simpl; auto; discriminate).
Qed.

Lemma positive_of_gt_zero d : (0 <? d) = true -> sf_positive (Prim2SF d).
Proof.
  intros H. apply (positive_of_gt_nonneg 0 d); auto.
Qed.

Lemma SFdiv_positive n d :
  sf_positive d -> sf_positive (SF64div n d) -> sf_positive n.
Proof.
  destruct d as [sd|[]| |[] md ed]; simpl; try contradiction; intros _;
    destruct n as [sn|[]| |[] mn en]; simpl; auto.
  unfold SF64div, SFdiv.
  destruct (SFdiv_core_binary _ _ _ _ _ _) as [[mz ez] lz].
  generalize (binary_round_aux_signed (xorb true false) mz ez lz).
  simpl. destruct (binary_round_aux _ _ _ _ _ _) as [|[]| |[]]; simpl; auto;
    discriminate.
Qed.

Lemma digits2_pos_bounds m :
  (2 ^ (Zpos (digits2_pos m) - 1) <= Zpos m < 2 ^ Zpos (digits2_pos m))%Z.
Proof.
  induction m as [p IH|p IH|]; simpl digits2_pos.
  - rewrite Pos2Z.inj_succ.
    replace (Z.succ (Zpos (digits2_pos p)) - 1)%Z with (Z.succ (Zpos (digits2_pos p) - 1))%Z by lia.
    rewrite !Z.pow_succ_r by lia. lia.
  - rewrite Pos2Z.inj_succ.
    replace (Z.succ (Zpos (digits2_pos p)) - 1)%Z with (Z.succ (Zpos (digits2_pos p) - 1))%Z by lia.
    rewrite !Z.pow_succ_r by lia. lia.
  - simpl. lia.
Qed.

Lemma iter_xO_pow m d : Zpos (Pos.iter xO m d) = (Zpos m * 2 ^ Zpos d)%Z.
Proof.
  induction d as [|d IH] using Pos.peano_ind.
  - simpl. lia.
  - rewrite Pos.iter_succ, Pos2Z.inj_succ, Z.pow_succ_r by lia.
    rewrite Pos2Z.inj_xO, IH. lia.
Qed.

Lemma shl_align_value m e ez :
  (ez <= e)%Z -> Zpos (fst (shl_align m e ez)) = (Zpos m * 2 ^ (e - ez))%Z.
Proof.
  intros H. unfold shl_align.
  destruct (ez - e)%Z as [|p|p] eqn:D.
  - replace (e - ez)%Z with 0%Z by lia. simpl. lia.
  - lia.
  - simpl. rewrite iter_xO_pow. replace (e - ez)%Z with (Zpos p) by lia.
    reflexivity.
Qed.

Lemma canonical_bounds m e :
  SpecFloat.bounded prec emax m e = true ->
  ((e = -1074 /\ Zpos m < 2 ^ 53) \/ (-1074 < e /\ 2 ^ 52 <= Zpos m < 2 ^ 53))%Z.
Proof.
  unfold SpecFloat.bounded, canonical_mantissa, fexp, SpecFloat.emin.
  intros H. apply andb_prop in H as [H _]. apply Z.eqb_eq in H.
  pose proof (digits2_pos_bounds m) as [Lo Hi].
  change prec with 53%Z in H. change emax with 1024%Z in H.
  set (d := Zpos (digits2_pos m)) in *.
  assert (Dp : (0 < d)%Z) by (unfold d; lia). clearbody d.
  destruct (Z.max_spec (d + e - 53) (3 - 1024 - 53)) as [[A B]|[A B]];
    rewrite B in H.
  - left. split; [lia|].
    eapply Z.lt_le_trans; [exact Hi|]. apply Z.pow_le_mono_r; lia.
  - assert (d = 53)%Z by lia.
    destruct (Z.eq_dec e (-1074)) as [->|Ne].
    + left. split; auto. rewrite <- H0. exact Hi.
    + right. split; [lia|]. rewrite H0 in *. auto.
Qed.

Lemma canonical_exponent_lt m1 e1 m2 e2 :
  SpecFloat.bounded prec emax m1 e1 = true -> SpecFloat.bounded prec emax m2 e2 = true ->
  (e1 < e2)%Z -> (Zpos m1 < Zpos m2 * 2 ^ (e2 - e1))%Z.
Proof.
  intros B1 B2 L.
  apply canonical_bounds in B1, B2.
  assert (H1 : (Zpos m1 < 2 ^ 53)%Z) by (destruct B1 as [[]|[]]; lia).
  assert (H2 : (2 ^ 52 <= Zpos m2)%Z) by (destruct B1 as [[]|[]], B2 as [[]|[]]; lia).
  assert (H3 : (2 ^ 1 <= 2 ^ (e2 - e1))%Z) by (apply Z.pow_le_mono_r; lia).
  change (2 ^ 53)%Z with (2 ^ 52 * 2 ^ 1)%Z in H1.
  assert (0 < 2 ^ 52)%Z by lia.
  nia.
Qed.

Lemma SFsub_positive a b :
  valid_binary a = true -> valid_binary b = true ->
  sf_positive (SF64sub a b) -> SFcompare b a = Some Lt.
Proof.
  destruct a as [sa|sa| |sa ma ea], b as [sb|sb| |sb mb eb]; simpl;
    try contradiction;
    try (destruct sa, sb; simpl; (contradiction || reflexivity));
    try (destruct sa; simpl; (contradiction || reflexivity));
    try (destruct sb; simpl; (contradiction || reflexivity)).
  intros Va Vb.
  unfold SF64sub, SFsub.
  assert (Ea : (Z.min ea eb <= ea)%Z) by lia.
  assert (Eb : (Z.min ea eb <= eb)%Z) by lia.
  pose proof (shl_align_value ma ea _ Ea) as Xa.
  pose proof (shl_align_value mb eb _ Eb) as Xb.
  set (za := Zpos (fst (shl_align ma ea (Z.min ea eb)))) in *.
  set (zb := Zpos (fst (shl_align mb eb (Z.min ea eb)))) in *.
  intros P.
  assert (D : (0 < cond_Zopp sa za - cond_Zopp sb zb)%Z).
  { destruct (cond_Zopp sa za - cond_Zopp sb zb)%Z as [|p|p]; simpl in P.
    - contradiction.
    - lia.
    - generalize (binary_round_signed true p (Z.min ea eb)).
      destruct (binary_round _ _ _ _ _) as [|[]| |[]]; simpl in *;
        try contradiction; discriminate. }
  clear P.
  assert (Pa : (0 < za)%Z) by (unfold za; lia).
  assert (Pb : (0 < zb)%Z) by (unfold zb; lia).
  clearbody za zb.
  destruct sa, sb; simpl in D; try lia; try reflexivity.
  - (* both negative *)
    destruct (Z.compare_spec eb ea) as [E|L|G].
    + subst eb. rewrite Z.min_id, Z.sub_diag in Xa, Xb. simpl in Xa, Xb.
      assert (Zpos ma < Zpos mb)%Z by lia.
      change (Pos.compare_cont Eq mb ma) with (Pos.compare mb ma).
      rewrite (proj2 (Pos.compare_gt_iff mb ma)); auto.
    + exfalso. pose proof (canonical_exponent_lt _ _ _ _ Vb Va L).
      rewrite Z.min_r in Xa, Xb by lia.
      rewrite Z.sub_diag in Xb. simpl in Xb. lia.
    + reflexivity.
  - (* both positive *)
    destruct (Z.compare_spec eb ea) as [E|L|G].
    + subst eb. rewrite Z.min_id, Z.sub_diag in Xa, Xb. simpl in Xa, Xb.
      assert (Zpos mb < Zpos ma)%Z by lia.
      change (Pos.compare_cont Eq mb ma) with (Pos.compare mb ma).
      rewrite (proj2 (Pos.compare_lt_iff mb ma)); auto.
    + reflexivity.
    + exfalso. pose proof (canonical_exponent_lt _ _ _ _ Va Vb G).
      rewrite Z.min_l in Xa, Xb by lia.
      rewrite Z.sub_diag in Xa. simpl in Xa. lia.
Qed.

(** A step is accepted when [thr < (prev - err) / d]. *)
Lemma accepted_decreases prev err d thr :
  (0 <=? thr) = true -> (0 <? d) = true ->
  (thr <? (prev - err) / d) = true -> (err <? prev) = true.
Proof.
  intros Ht Hd Hq.
  pose proof (positive_of_gt_nonneg _ _ Ht Hq) as Pq.
  rewrite div_spec in Pq.
  apply SFdiv_positive in Pq; [|now apply positive_of_gt_zero].
  rewrite sub_spec in Pq.
  apply SFsub_positive in Pq; try apply Prim2SF_valid.
  rewrite ltb_spec. unfold SFltb. now rewrite Pq.
Qed.

(** ** Floating-point facts: rounding *)

Open Scope Z_scope.

Lemma shr_1_m mrs : 0 <= shr_m mrs -> shr_m (shr_1 mrs) = shr_m mrs / 2.
Proof.
  destruct mrs as [m r s]. cbn [shr_m]. intros H.
  destruct m as [|[p|p|]|p]; cbn [shr_1 shr_m]; try reflexivity; try lia.
  - apply Z.div_unique with (r := 1); lia.
  - apply Z.div_unique with (r := 0); lia.
Qed.

Lemma iter_pos_shr_m p :
  forall mrs, 0 <= shr_m mrs ->
    shr_m (SpecFloat.iter_pos shr_1 p mrs) = shr_m mrs / 2 ^ Zpos p.
Proof.
  induction p as [p IH|p IH|]; intros mrs H; simpl SpecFloat.iter_pos.
  - assert (H1 : 0 <= shr_m (shr_1 mrs))
      by (rewrite shr_1_m by auto; apply Z.div_pos; lia).
    assert (H2 : 0 <= shr_m (SpecFloat.iter_pos shr_1 p (shr_1 mrs)))
      by (rewrite IH by auto; apply Z.div_pos; lia).
    rewrite IH, IH, shr_1_m by auto.
    assert (E : 2 ^ Zpos p~1 = 2 * 2 ^ Zpos p * 2 ^ Zpos p).
    { rewrite <- Z.mul_assoc, <- Z.pow_add_r by lia.
      change 2 with (2 ^ 1) at 2. rewrite <- Z.pow_add_r by lia.
      f_equal. lia. }
    rewrite E. assert (0 < 2 ^ Zpos p) by lia.
    rewrite !Z.div_div by lia. f_equal. ring.
  - assert (H2 : 0 <= shr_m (SpecFloat.iter_pos shr_1 p mrs))
      by (rewrite IH by auto; apply Z.div_pos; lia).
    rewrite IH, IH by auto.
    assert (E : 2 ^ Zpos p~0 = 2 ^ Zpos p * 2 ^ Zpos p).
    { rewrite <- Z.pow_add_r by lia. f_equal. lia. }
    rewrite E. assert (0 < 2 ^ Zpos p) by lia.
    rewrite !Z.div_div by lia. reflexivity.
  - rewrite shr_1_m by auto. reflexivity.
Qed.

Lemma shr_record_of_loc_m m l : shr_m (shr_record_of_loc m l) = m.
Proof. destruct l as [|[]]; reflexivity. Qed.

(** [shr_fexp] drops the [n] low bits, [n] being what the target exponent
    asks for. *)
Lemma shr_fexp_spec m e l :
  0 <= m ->
  let n := Z.max 0 (fexp prec emax (Zdigits2 m + e) - e) in
  shr_m (fst (shr_fexp prec emax m e l)) = m / 2 ^ n
  /\ snd (shr_fexp prec emax m e l) = e + n.
Proof.
  intros H n. unfold shr_fexp, shr. subst n.
  destruct (fexp prec emax (Zdigits2 m + e) - e) as [|p|p] eqn:D; simpl fst;
    simpl snd.
  - rewrite shr_record_of_loc_m. simpl. rewrite Z.div_1_r. lia.
  - rewrite iter_pos_shr_m by (rewrite shr_record_of_loc_m; auto).
    rewrite shr_record_of_loc_m.
    replace (Z.max 0 (Zpos p)) with (Zpos p) by lia. auto.
  - rewrite shr_record_of_loc_m.
    replace (Z.max 0 (Zneg p)) with 0 by lia. simpl. rewrite Z.div_1_r. lia.
Qed.

Lemma Zdigits2_bounds m :
  0 < m -> 2 ^ (Zdigits2 m - 1) <= m < 2 ^ Zdigits2 m.
Proof.
  destruct m as [|p|p]; try lia. intros _. apply digits2_pos_bounds.
Qed.

Lemma Zdigits2_nonneg m : 0 <= Zdigits2 m.
Proof. destruct m; simpl; lia. Qed.

Lemma Zdigits2_le m k : 0 <= m < 2 ^ k -> 0 <= k -> Zdigits2 m <= k.
Proof.
  intros [H0 H] Hk. destruct (Z.eq_dec m 0) as [->|N]; [simpl; lia|].
  destruct (Zdigits2_bounds m ltac:(lia)) as [Lo _].
  destruct (Z_le_gt_dec (Zdigits2 m) k) as [L|G]; auto.
  exfalso. assert (2 ^ k <= 2 ^ (Zdigits2 m - 1)) by (apply Z.pow_le_mono_r; lia).
  lia.
Qed.

Lemma Zdigits2_ge m k : 2 ^ k <= m -> 0 <= k -> k + 1 <= Zdigits2 m.
Proof.
  intros H Hk. assert (0 < m) by (pose proof (Z.pow_pos_nonneg 2 k); lia).
  destruct (Zdigits2_bounds m ltac:(lia)) as [_ Hi].
  destruct (Z_le_gt_dec (k + 1) (Zdigits2 m)) as [L|G]; auto.
  exfalso. assert (2 ^ Zdigits2 m <= 2 ^ k).
  { apply Z.pow_le_mono_r; try lia. }
  lia.
Qed.

Lemma bpow_pos e : (0 < bpow e)%R.
Proof. apply powerRZ_lt. lra. Qed.

Lemma bpow_add a b : bpow (a + b) = (bpow a * bpow b)%R.
Proof. apply powerRZ_add. lra. Qed.

Lemma bpow_IZR n : 0 <= n -> IZR (2 ^ n) = bpow n.
Proof.
  intros H. unfold bpow.
  rewrite <- (Z2Nat.id n H) at 1. rewrite <- pow_IZR.
  rewrite <- (Z2Nat.id n H) at 2. now rewrite <- pow_powerRZ.
Qed.

Lemma bpow_le a b : a <= b -> (bpow a <= bpow b)%R.
Proof.
  intros H. replace b with (a + (b - a)) by lia. rewrite bpow_add.
  rewrite <- (bpow_IZR (b - a)) by lia.
  assert (1 <= 2 ^ (b - a)) by (pose proof (Z.pow_pos_nonneg 2 (b - a)); lia).
  apply IZR_le in H0. pose proof (bpow_pos a). nra.
Qed.

Lemma first_stage M E l :
  0 <= M -> E <= fexp prec emax (Zdigits2 M + E) ->
  let m1 := shr_m (fst (shr_fexp prec emax M E l)) in
  let e1 := snd (shr_fexp prec emax M E l) in
  E <= e1 /\ -1074 <= e1 /\ 0 <= m1 < 2 ^ 53
  /\ (e1 = -1074 \/ 2 ^ 52 <= m1)
  /\ m1 * 2 ^ (e1 - E) <= M < (m1 + 1) * 2 ^ (e1 - E).
Proof.
  intros HM H m1 e1.
  destruct (shr_fexp_spec M E l HM) as [Hm He].
  fold m1 in Hm. fold e1 in He.
  set (fe := fexp prec emax (Zdigits2 M + E)) in *.
  replace (Z.max 0 (fe - E)) with (fe - E) in * by lia.
  assert (Efe : e1 = fe) by lia. clear He.
  set (n := fe - E) in *. assert (Hn : 0 <= n) by (unfold n; lia).
  assert (Pn : 0 < 2 ^ n) by (apply Z.pow_pos_nonneg; lia).
  replace (e1 - E) with n by lia.
  assert (Fe : fe = Z.max (Zdigits2 M + E - 53) (-1074)) by reflexivity.
  pose proof (Zdigits2_nonneg M) as Dn.
  assert (T1 : m1 * 2 ^ n <= M).
  { rewrite Hm, Z.mul_comm. apply Z.mul_div_le. lia. }
  assert (T2 : M < (m1 + 1) * 2 ^ n).
  { rewrite Hm. pose proof (Z.mul_succ_div_gt M (2 ^ n) Pn). nia. }
  assert (P1 : 0 <= m1) by (rewrite Hm; apply Z.div_pos; lia).
  repeat split; try lia.
  - (* m1 < 2^53 *)
    rewrite Hm. apply Z.div_lt_upper_bound; [lia|].
    destruct (Z.eq_dec M 0) as [->|NM]; [lia|].
    destruct (Zdigits2_bounds M ltac:(lia)) as [_ Hi].
    eapply Z.lt_le_trans; [exact Hi|].
    rewrite <- Z.pow_add_r by lia. apply Z.pow_le_mono_r; lia.
  - (* canonical shape *)
    destruct (Z.eq_dec e1 (-1074)) as [|Ne]; [now left|right].
    assert (Fd : fe = Zdigits2 M + E - 53) by lia.
    destruct (Z.eq_dec M 0) as [->|NM].
    { simpl in Fd, Fe. lia. }
    destruct (Zdigits2_bounds M ltac:(lia)) as [Lo _].
    rewrite Hm. apply Z.div_le_lower_bound; [lia|].
    rewrite Z.mul_comm, <- Z.pow_add_r by lia.
    replace (52 + n) with (Zdigits2 M - 1) by lia. exact Lo.
Qed.

Lemma round_nearest_even_range m l :
  m <= round_nearest_even m l <= m + 1.
Proof.
  destruct l as [|[]]; simpl; try lia. destruct (Z.even m); lia.
Qed.

Lemma second_stage m2 e1 :
  0 <= m2 <= 2 ^ 53 -> -1074 <= e1 ->
  let m3 := shr_m (fst (shr_fexp prec emax m2 e1 loc_Exact)) in
  let e3 := snd (shr_fexp prec emax m2 e1 loc_Exact) in
  (m3 = m2 /\ e3 = e1) \/ (m2 = 2 ^ 53 /\ m3 = 2 ^ 52 /\ e3 = e1 + 1).
Proof.
  intros [H0 H1] He m3 e3.
  destruct (shr_fexp_spec m2 e1 loc_Exact H0) as [Hm Hx].
  fold m3 in Hm. fold e3 in Hx.
  assert (Fe : fexp prec emax (Zdigits2 m2 + e1)
               = Z.max (Zdigits2 m2 + e1 - 53) (-1074)) by reflexivity.
  rewrite Fe in *.
  assert (D : Zdigits2 m2 <= 54) by (apply Zdigits2_le; lia).
  destruct (Z_le_gt_dec (Zdigits2 m2) 53) as [L|G].
  - left. replace (Z.max 0 _) with 0 in * by lia.
    rewrite Z.pow_0_r, Z.div_1_r in Hm. lia.
  - right. assert (D54 : Zdigits2 m2 = 54) by lia.
    assert (N0 : m2 <> 0) by (intros ->; simpl in *; lia).
    destruct (Zdigits2_bounds m2 ltac:(lia)) as [Lo _].
    rewrite D54 in Lo. change (54 - 1) with 53 in Lo.
    assert (E2 : m2 = 2 ^ 53) by lia.
    replace (Z.max 0 _) with 1 in * by lia.
    split; [exact E2|]. split; [|lia]. rewrite Hm, E2. reflexivity.
Qed.

(** The shape of a rounded result: the mantissa is first truncated to
    [m1] at exponent [e1], then moved to [m1] or [m1 + 1]. *)
Lemma binary_round_aux_result s M E l :
  0 <= M -> E <= fexp prec emax (Zdigits2 M + E) ->
  exists m1 e1 m3 e3,
    -1074 <= e1 /\ 0 <= m1 /\ (e1 = -1074 \/ 2 ^ 52 <= m1)
    /\ (IZR m1 * bpow e1 <= IZR M * bpow E < IZR (m1 + 1) * bpow e1)%R
    /\ (IZR m1 * bpow e1 <= IZR m3 * bpow e3 <= IZR (m1 + 1) * bpow e1)%R
    /\ 0 <= m3 /\ (e3 = -1074 \/ 2 ^ 52 <= m3)
    /\ binary_round_aux prec emax s M E l
       = match m3 with
         | Z0 => S754_zero s
         | Zpos p => if e3 <=? 971 then S754_finite s p e3
                     else S754_infinity s
         | Zneg _ => S754_nan
         end.
Proof.
  intros HM H.
  destruct (first_stage M E l HM H) as (A1 & A2 & A3 & A4 & A5).
  unfold binary_round_aux.
  destruct (shr_fexp prec emax M E l) as [mrs' e1] eqn:S1.
  cbn [fst snd] in *.
  set (m1 := shr_m mrs') in *.
  pose proof (round_nearest_even_range m1 (loc_of_shr_record mrs')) as Rr.
  set (m2 := round_nearest_even m1 (loc_of_shr_record mrs')) in *.
  destruct (second_stage m2 e1 ltac:(lia) A2) as [[B1 B2]|[B1 [B2 B3]]];
    destruct (shr_fexp prec emax m2 e1 loc_Exact) as [mrs'' e3] eqn:S2;
    cbn [fst snd] in *;
    exists m1, e1, (shr_m mrs''), e3.
  - rewrite B1, B2.
    assert (V : (IZR m1 * bpow e1 <= IZR M * bpow E
                 < IZR (m1 + 1) * bpow e1)%R).
    { replace e1 with (E + (e1 - E)) by lia. rewrite bpow_add.
      rewrite <- (bpow_IZR (e1 - E)) by lia. pose proof (bpow_pos E).
      destruct A5 as [T1 T2]. apply IZR_le in T1. apply IZR_lt in T2.
      rewrite mult_IZR in T1, T2. split; nra. }
    assert (W : (IZR m1 * bpow e1 <= IZR m2 * bpow e1
                 <= IZR (m1 + 1) * bpow e1)%R).
    { pose proof (bpow_pos e1). destruct Rr as [R1 R2].
      apply IZR_le in R1, R2. split; nra. }
    repeat split; try lia; try apply V; try apply W.
  - rewrite B2, B3.
    assert (V : (IZR m1 * bpow e1 <= IZR M * bpow E
                 < IZR (m1 + 1) * bpow e1)%R).
    { replace e1 with (E + (e1 - E)) by lia. rewrite bpow_add.
      rewrite <- (bpow_IZR (e1 - E)) by lia. pose proof (bpow_pos E).
      destruct A5 as [T1 T2]. apply IZR_le in T1. apply IZR_lt in T2.
      rewrite mult_IZR in T1, T2. split; nra. }
    assert (m1 + 1 = 2 ^ 53) by lia.
    assert (X : (IZR (2 ^ 52) * bpow (e1 + 1) = IZR (m1 + 1) * bpow e1)%R).
    { rewrite H0, bpow_add.
      assert (B1' : bpow 1 = 2%R) by (unfold bpow; simpl; lra).
      rewrite B1'. change (2 ^ 53) with (2 ^ 52 * 2). rewrite mult_IZR.
      lra. }
    assert (Y : (IZR m1 * bpow e1 <= IZR (m1 + 1) * bpow e1)%R).
    { pose proof (bpow_pos e1).
      assert (L : m1 <= m1 + 1) by lia. apply IZR_le in L. nra. }
    repeat split; try lia; try apply V; rewrite ?X; try lra.
Qed.

Lemma value_pos m e : (0 < real_value m e)%R.
Proof.
  unfold real_value. pose proof (bpow_pos e).
  assert (0 < IZR (Zpos m))%R by (apply IZR_lt; lia). nra.
Qed.

(** No float lies strictly between two neighbours of a binade. *)
Lemma gap mc ec m1 e1 :
  SpecFloat.bounded prec emax mc ec = true ->
  -1074 <= e1 -> 0 <= m1 -> (e1 = -1074 \/ 2 ^ 52 <= m1) ->
  (IZR m1 * bpow e1 < real_value mc ec)%R ->
  (IZR (m1 + 1) * bpow e1 <= real_value mc ec)%R.
Proof.
  intros B He Hm Hc L. unfold real_value in *.
  apply canonical_bounds in B.
  destruct (Z_le_gt_dec e1 ec) as [Le|Gt].
  - replace ec with (e1 + (ec - e1)) in * by lia.
    rewrite bpow_add in *. rewrite <- (bpow_IZR (ec - e1)) in * by lia.
    pose proof (bpow_pos e1) as P.
    assert (K : m1 < Zpos mc * 2 ^ (ec - e1)).
    { apply lt_IZR. rewrite mult_IZR. nra. }
    assert (K' : m1 + 1 <= Zpos mc * 2 ^ (ec - e1)) by lia.
    apply IZR_le in K'. rewrite mult_IZR in K'. nra.
  - exfalso.
    assert (M1 : 2 ^ 52 <= m1) by lia.
    assert (Mc : Zpos mc < 2 ^ 53) by (destruct B as [[]|[]]; lia).
    replace e1 with (ec + (e1 - ec)) in L by lia.
    rewrite bpow_add in L. rewrite <- (bpow_IZR (e1 - ec)) in L by lia.
    pose proof (bpow_pos ec) as P.
    assert (K : m1 * 2 ^ (e1 - ec) < Zpos mc).
    { apply lt_IZR. rewrite mult_IZR. nra. }
    assert (2 ^ 1 <= 2 ^ (e1 - ec)) by (apply Z.pow_le_mono_r; lia).
    change (2 ^ 1) with 2 in H. change (2 ^ 53) with (2 ^ 52 * 2) in Mc.
    nia.
Qed.

(** On canonical floats the comparison is that of the values. *)
Lemma SFleb_of_value ma ea mb eb :
  SpecFloat.bounded prec emax ma ea = true -> SpecFloat.bounded prec emax mb eb = true ->
  (real_value ma ea <= real_value mb eb)%R ->
  SFleb (S754_finite false ma ea) (S754_finite false mb eb) = true.
Proof.
  intros Ba Bb V. unfold SFleb, SFcompare.
  destruct (Z.compare_spec ea eb) as [E|L|G]; auto.
  - subst eb. unfold real_value in V. pose proof (bpow_pos ea).
    assert (K : Zpos ma <= Zpos mb) by (apply le_IZR; nra).
    change (Pos.compare_cont Eq ma mb) with (Pos.compare ma mb).
    destruct (Pos.compare_spec ma mb); auto; lia.
  - exfalso. pose proof (canonical_exponent_lt _ _ _ _ Bb Ba G) as K.
    unfold real_value in V.
    replace ea with (eb + (ea - eb)) in V by lia.
    rewrite bpow_add in V. rewrite <- (bpow_IZR (ea - eb)) in V by lia.
    pose proof (bpow_pos eb). apply IZR_lt in K. rewrite mult_IZR in K.
    nra.
Qed.

Lemma value_of_SFleb ma ea mb eb :
  SpecFloat.bounded prec emax ma ea = true -> SpecFloat.bounded prec emax mb eb = true ->
  SFleb (S754_finite false ma ea) (S754_finite false mb eb) = true ->
  (real_value ma ea <= real_value mb eb)%R.
Proof.
  intros Ba Bb. unfold SFleb, SFcompare.
  destruct (Z.compare_spec ea eb) as [E|L|G]; try discriminate.
  - subst eb. change (Pos.compare_cont Eq ma mb) with (Pos.compare ma mb).
    destruct (Pos.compare_spec ma mb) as [->|K|K]; try discriminate;
      intros _; unfold real_value; pose proof (bpow_pos ea).
    + lra.
    + assert (Zpos ma < Zpos mb) by lia. apply IZR_lt in H0. nra.
  - intros _. pose proof (canonical_exponent_lt _ _ _ _ Ba Bb L) as K.
    unfold real_value.
    replace eb with (ea + (eb - ea)) by lia.
    rewrite bpow_add. rewrite <- (bpow_IZR (eb - ea)) by lia.
    pose proof (bpow_pos ea). apply IZR_lt in K. rewrite mult_IZR in K.
    nra.
Qed.

Lemma value_below_overflow m e :
  SpecFloat.bounded prec emax m e = true -> (real_value m e < bpow 1024)%R.
Proof.
  intros B. assert (E : e <= 971).
  { unfold SpecFloat.bounded in B. apply andb_prop in B as [_ B].
    apply Z.leb_le in B. exact B. }
  apply canonical_bounds in B.
  assert (Mc : Zpos m < 2 ^ 53) by (destruct B as [[]|[]]; lia).
  unfold real_value. replace 1024 with (53 + 971) by lia.
  rewrite bpow_add, <- (bpow_IZR 53) by lia.
  pose proof (bpow_le e 971 E). pose proof (bpow_pos e).
  apply IZR_lt in Mc. assert (0 < IZR (Zpos m))%R by (apply IZR_lt; lia).
  nra.
Qed.

(** A canonical float below the exact real_value stays below its rounding. *)
Lemma round_above_canonical mc ec M E l :
  SpecFloat.bounded prec emax mc ec = true ->
  0 <= M -> E <= fexp prec emax (Zdigits2 M + E) ->
  (real_value mc ec <= IZR M * bpow E)%R ->
  valid_binary (binary_round_aux prec emax false M E l) = true ->
  SFleb (S754_finite false mc ec) (binary_round_aux prec emax false M E l)
  = true.
Proof.
  intros B HM H V Val.
  destruct (binary_round_aux_result false M E l HM H)
    as (m1 & e1 & m3 & e3 & A1 & A2 & A3 & [A4 A4'] & [A5 A5'] & A6 & A7
        & EQ).
  rewrite EQ in *. clear EQ.
  assert (C : (real_value mc ec <= IZR m1 * bpow e1)%R).
  { destruct (Rle_or_lt (real_value mc ec) (IZR m1 * bpow e1)) as [|L]; auto.
    pose proof (gap mc ec m1 e1 B A1 A2 A3 L) as G.
    exfalso. apply (Rlt_irrefl (real_value mc ec)).
    eapply Rle_lt_trans; [exact V|].
    eapply Rlt_le_trans; [exact A4'|exact G]. }
  pose proof (value_pos mc ec) as Pc.
  destruct m3 as [|p|p]; try lia.
  - exfalso. simpl in A5'. lra.
  - destruct (e3 <=? 971); [|reflexivity].
    apply SFleb_of_value; auto.
    eapply Rle_trans; [exact C|exact A5].
Qed.

(** A canonical float strictly above the truncated real_value stays above its
    rounding. *)
Lemma round_below_canonical mc ec M E l :
  SpecFloat.bounded prec emax mc ec = true ->
  0 <= M -> E <= fexp prec emax (Zdigits2 M + E) ->
  (IZR M * bpow E < real_value mc ec)%R ->
  valid_binary (binary_round_aux prec emax false M E l) = true ->
  SFleb (binary_round_aux prec emax false M E l) (S754_finite false mc ec)
  = true.
Proof.
  intros B HM H V Val.
  destruct (binary_round_aux_result false M E l HM H)
    as (m1 & e1 & m3 & e3 & A1 & A2 & A3 & [A4 A4'] & [A5 A5'] & A6 & A7
        & EQ).
  rewrite EQ in *. clear EQ.
  assert (C : (IZR (m1 + 1) * bpow e1 <= real_value mc ec)%R).
  { apply gap; auto. lra. }
  destruct m3 as [|p|p]; try lia; [reflexivity|].
  destruct (Z.leb_spec e3 971) as [L|G].
  - apply SFleb_of_value; auto.
    eapply Rle_trans; [exact A5'|exact C].
  - exfalso. pose proof (value_below_overflow mc ec B) as O.
    assert (P52 : 2 ^ 52 <= Zpos p) by lia.
    apply IZR_le in P52. rewrite (bpow_IZR 52) in P52 by lia.
    assert (Q : (bpow 1024 <= bpow 52 * bpow e3)%R).
    { rewrite <- bpow_add. apply bpow_le. lia. }
    pose proof (bpow_pos e3). nra.
Qed.

Lemma value_lt_of_SFltb ma ea mb eb :
  SpecFloat.bounded prec emax ma ea = true ->
  SpecFloat.bounded prec emax mb eb = true ->
  SFltb (S754_finite false ma ea) (S754_finite false mb eb) = true ->
  (real_value ma ea < real_value mb eb)%R.
Proof.
  intros Ba Bb. unfold SFltb, SFcompare.
  destruct (Z.compare_spec ea eb) as [E|L|G]; try discriminate.
  - subst eb. change (Pos.compare_cont Eq ma mb) with (Pos.compare ma mb).
    destruct (Pos.compare_spec ma mb) as [->|K|K]; try discriminate.
    intros _; unfold real_value; pose proof (bpow_pos ea).
    assert (Zpos ma < Zpos mb) by lia. apply IZR_lt in H0. nra.
  - intros _. pose proof (canonical_exponent_lt _ _ _ _ Ba Bb L) as K.
    unfold real_value.
    replace eb with (ea + (eb - ea)) by lia.
    rewrite bpow_add. rewrite <- (bpow_IZR (eb - ea)) by lia.
    pose proof (bpow_pos ea). apply IZR_lt in K. rewrite mult_IZR in K.
    nra.
Qed.

Lemma value_one : real_value 4503599627370496 (-52) = 1%R.
Proof.
  unfold real_value. change (Zpos 4503599627370496) with (2 ^ 52).
  rewrite (bpow_IZR 52) by lia. rewrite <- bpow_add. reflexivity.
Qed.

Lemma value_mul ma ea mb eb :
  (IZR (Zpos (ma * mb)) * bpow (ea + eb) = real_value ma ea * real_value mb eb)%R.
Proof.
  unfold real_value. rewrite Pos2Z.inj_mul, mult_IZR, bpow_add. ring.
Qed.

(** What [SFdiv_core_binary] hands to the rounding. *)
Lemma SFdiv_core_binary_spec m1 e1 m2 e2 :
  let '(q, e', l) :=
    SFdiv_core_binary prec emax (Zpos m1) e1 (Zpos m2) e2 in
  0 <= q /\ e' <= fexp prec emax (Zdigits2 q + e')
  /\ (IZR q * bpow e' * real_value m2 e2 <= real_value m1 e1)%R.
Proof.
  unfold SFdiv_core_binary.
  set (d1 := Zdigits2 (Zpos m1)). set (d2 := Zdigits2 (Zpos m2)).
  set (e' := Z.min (fexp prec emax (d1 + e1 - (d2 + e2))) (e1 - e2)).
  set (s := e1 - e2 - e').
  assert (Hs : 0 <= s) by (unfold s, e'; lia).
  set (m' := match s with
             | 0 => Zpos m1 | Zpos _ => Z.shiftl (Zpos m1) s | Zneg _ => 0
             end).
  assert (Hm' : m' = Zpos m1 * 2 ^ s).
  { unfold m'. destruct s as [|p|p] eqn:S; try lia.
    rewrite Z.shiftl_mul_pow2 by lia. reflexivity. }
  clearbody m'.
  assert (P2 : 0 < 2 ^ s) by (apply Z.pow_pos_nonneg; lia).
  destruct (Z.div_eucl m' (Zpos m2)) as [q r] eqn:D.
  assert (Hq : q = m' / Zpos m2) by (unfold Z.div; now rewrite D).
  assert (Q0 : 0 <= q) by (rewrite Hq; apply Z.div_pos; lia).
  assert (Q1 : q * Zpos m2 <= m').
  { rewrite Hq, Z.mul_comm. apply Z.mul_div_le. lia. }
  split; [exact Q0|split].
  - assert (Fe : forall z, fexp prec emax z = Z.max (z - 53) (-1074))
      by reflexivity.
    rewrite Fe. destruct (Z_le_gt_dec e' (-1074)) as [L|G]; [lia|].
    assert (E1 : e' <= d1 + e1 - (d2 + e2) - 53).
    { unfold e' in *. rewrite Fe in *. lia. }
    assert (S1 : d2 - d1 + 53 <= s) by (unfold s; lia).
    destruct (Zdigits2_bounds (Zpos m1) ltac:(lia)) as [Lo1 _].
    destruct (Zdigits2_bounds (Zpos m2) ltac:(lia)) as [_ Hi2].
    fold d1 in Lo1. fold d2 in Hi2.
    assert (D1 : 1 <= d1) by (unfold d1; simpl; lia).
    assert (D2 : 1 <= d2) by (unfold d2; simpl; lia).
    assert (Q52 : 2 ^ 52 <= q).
    { rewrite Hq. apply Z.div_le_lower_bound; [lia|].
      rewrite Hm'.
      assert (2 ^ (d2 + 52) <= 2 ^ (d1 - 1) * 2 ^ s).
      { rewrite <- Z.pow_add_r by lia. apply Z.pow_le_mono_r; lia. }
      assert (Zpos m2 * 2 ^ 52 < 2 ^ (d2 + 52)).
      { rewrite Z.pow_add_r by lia. nia. }
      nia. }
    pose proof (Zdigits2_ge q 52 Q52 ltac:(lia)). lia.
  - unfold real_value.
    assert (E : bpow e1 = (IZR (2 ^ s) * (bpow e' * bpow e2))%R).
    { replace e1 with (s + (e' + e2))%Z by (unfold s; lia).
      rewrite !bpow_add. rewrite <- (bpow_IZR s) by lia. reflexivity. }
    rewrite E.
    rewrite Hm' in Q1. apply IZR_le in Q1. rewrite !mult_IZR in Q1.
    pose proof (bpow_pos e'). pose proof (bpow_pos e2).
    assert (0 < bpow e' * bpow e2)%R by nra.
    nra.
Qed.

Close Scope Z_scope.

Lemma positive_finite_of_leb c d mc ec :
  Prim2SF c = S754_finite false mc ec -> (c <=? d) = true ->
  Prim2SF d = S754_infinity false
  \/ exists md ed, Prim2SF d = S754_finite false md ed.
Proof.
  intros Hc. rewrite leb_spec, Hc. unfold SFleb, SFcompare.
  destruct (Prim2SF d) as [s|[]| |[] md ed]; try discriminate; eauto.
Qed.

Lemma positive_finite_of_ltb c d mc ec :
  Prim2SF c = S754_finite false mc ec -> (c <? d) = true ->
  Prim2SF d = S754_infinity false
  \/ exists md ed, Prim2SF d = S754_finite false md ed.
Proof. intros Hc L. apply ltb_leb in L. eapply positive_finite_of_leb; eauto. Qed.

Lemma valid_finite x s m e :
  Prim2SF x = S754_finite s m e -> SpecFloat.bounded prec emax m e = true.
Proof. intros H. pose proof (Prim2SF_valid x) as V. now rewrite H in V. Qed.

Lemma Prim2SF_one : Prim2SF 1 = S754_finite false 4503599627370496 (-52).
Proof. reflexivity. Qed.

Lemma value_gt_one u mu eu :
  Prim2SF u = S754_finite false mu eu -> (1 <? u) = true ->
  (1 < real_value mu eu)%R.
Proof.
  intros Hu L. rewrite ltb_spec, Hu, Prim2SF_one in L.
  rewrite <- value_one. apply value_lt_of_SFltb; auto.
  apply (valid_finite u _ _ _ Hu).
Qed.

Lemma large_mantissa m e :
  SpecFloat.bounded prec emax m e = true -> (-1074 < e)%Z ->
  (2 ^ 52 <= Zpos m)%Z.
Proof. intros B E. apply canonical_bounds in B. destruct B as [[]|[]]; lia. Qed.

(** Multiplying by a factor above [1] keeps a float above a normal lower
    bound. *)
Lemma mul_keeps_lower_bound c d u mc ec :
  Prim2SF c = S754_finite false mc ec -> (-1074 < ec)%Z ->
  (c <=? d) = true -> (1 <? u) = true -> (c <=? d * u) = true.
Proof.
  intros Hc Nc Ld Lu.
  pose proof (valid_finite c _ _ _ Hc) as Bc.
  destruct (positive_finite_of_leb c d mc ec Hc Ld) as [Hd|(md & ed & Hd)];
    destruct (positive_finite_of_ltb 1 u _ _ Prim2SF_one Lu)
      as [Hu|(mu & eu & Hu)];
    rewrite leb_spec, mul_spec, Hc, Hd, Hu; try reflexivity.
  pose proof (valid_finite d _ _ _ Hd) as Bd.
  pose proof (valid_finite u _ _ _ Hu) as Bu.
  pose proof (Prim2SF_valid (d * u)) as V.
  rewrite mul_spec, Hd, Hu in V.
  unfold SF64mul, SFmul in *. cbn [xorb] in *.
  rewrite leb_spec, Hc, Hd in Ld.
  pose proof (value_of_SFleb _ _ _ _ Bc Bd Ld) as Vcd.
  pose proof (value_gt_one u mu eu Hu Lu) as Vu.
  assert (Ed : (-1074 < ed)%Z).
  { unfold SFleb, SFcompare in Ld.
    destruct (Z.compare_spec ec ed); try discriminate; lia. }
  assert (Eu : (-1074 < eu)%Z).
  { rewrite ltb_spec, Hu, Prim2SF_one in Lu. unfold SFltb, SFcompare in Lu.
    destruct (Z.compare_spec (-52) eu); try discriminate; lia. }
  pose proof (large_mantissa _ _ Bd Ed) as Md.
  pose proof (large_mantissa _ _ Bu Eu) as Mu.
  apply round_above_canonical; auto; try lia.
  - assert (L : (2 ^ 104 <= Zpos (md * mu))%Z).
    { rewrite Pos2Z.inj_mul. change (2 ^ 104)%Z with (2 ^ 52 * 2 ^ 52)%Z.
      nia. }
    pose proof (Zdigits2_ge _ 104 L ltac:(lia)).
    assert (Fe : forall z, fexp prec emax z = Z.max (z - 53) (-1074))
      by reflexivity.
    rewrite Fe. lia.
  - rewrite value_mul. pose proof (value_pos md ed).
    pose proof (value_pos mc ec). nra.
Qed.

(** Dividing by a divisor above [1] keeps a float below an upper bound. *)
Lemma div_keeps_upper_bound c d u mc ec md ed :
  Prim2SF c = S754_finite false mc ec ->
  Prim2SF d = S754_finite false md ed ->
  (d <=? c) = true -> (1 <? u) = true -> (d / u <=? c) = true.
Proof.
  intros Hc Hd Ld Lu.
  pose proof (valid_finite c _ _ _ Hc) as Bc.
  pose proof (valid_finite d _ _ _ Hd) as Bd.
  destruct (positive_finite_of_ltb 1 u _ _ Prim2SF_one Lu)
    as [Hu|(mu & eu & Hu)];
    rewrite leb_spec, div_spec, Hc, Hd, Hu; try reflexivity.
  pose proof (valid_finite u _ _ _ Hu) as Bu.
  pose proof (Prim2SF_valid (d / u)) as V.
  rewrite div_spec, Hd, Hu in V.
  unfold SF64div, SFdiv in *. cbn [xorb] in *.
  rewrite leb_spec, Hc, Hd in Ld.
  pose proof (value_of_SFleb _ _ _ _ Bd Bc Ld) as Vdc.
  pose proof (value_gt_one u mu eu Hu Lu) as Vu.
  pose proof (SFdiv_core_binary_spec md ed mu eu) as S.
  destruct (SFdiv_core_binary prec emax (Zpos md) ed (Zpos mu) eu)
    as [[q e'] l].
  destruct S as (Q0 & H & Vq).
  apply round_below_canonical; auto.
  pose proof (value_pos md ed). pose proof (bpow_pos e').
  apply IZR_le in Q0.
  assert (0 <= IZR q * bpow e')%R by nra.
  nra.
Qed.

Lemma leb_not_nan_l a b : (a <=? b) = true -> is_nan a = false.
Proof.
  rewrite leb_spec. intros H. destruct (is_nan a) eqn:N; auto.
  apply is_nan_spec in N. rewrite N in H. discriminate.
Qed.

Lemma Prim2SF_lower : Prim2SF 1e-7 = S754_finite false 7555786372591432 (-76).
Proof. reflexivity. Qed.

Lemma Prim2SF_upper : Prim2SF 1e7 = S754_finite false 5368709120000000 (-29).
Proof. reflexivity. Qed.

Lemma in_range_finite d :
  in_range d -> exists md ed, Prim2SF d = S754_finite false md ed.
Proof.
  intros [L U].
  destruct (positive_finite_of_leb _ _ _ _ Prim2SF_lower L) as [I|F]; auto.
  rewrite leb_spec, I, Prim2SF_upper in U. discriminate.
Qed.

Lemma in_range_lower : in_range 1e-7.
Proof. split; reflexivity. Qed.

Lemma in_range_upper : in_range 1e7.
Proof. split; reflexivity. Qed.

Lemma damping_decrease_in_range d down :
  in_range d -> (1 <? down) = true ->
  in_range (JS.Math_max (d / down) 1e-7).
Proof.
  intros R L. destruct (in_range_finite d R) as (md & ed & Hd).
  destruct R as [Lo Up].
  pose proof (div_keeps_upper_bound 1e7 d down _ _ _ _ Prim2SF_upper Hd Up L)
    as U.
  pose proof (leb_not_nan_l _ _ U) as N.
  unfold JS.Math_max. rewrite N. cbn [orb].
  change (is_nan 1e-7) with false. cbv iota.
  destruct (d / down <? 1e-7) eqn:L1; [apply in_range_lower|].
  destruct (1e-7 <? d / down) eqn:L2; [split; auto; now apply ltb_leb|].
  destruct (classify (d / down)); try apply in_range_lower;
    (split; auto; apply leb_of_not_lt; auto).
Qed.

Lemma damping_increase_in_range d up :
  in_range d -> (1 <? up) = true ->
  in_range (JS.Math_min (d * up) 1e7).
Proof.
  intros [Lo Up] L.
  pose proof (mul_keeps_lower_bound 1e-7 d up _ _ Prim2SF_lower
                ltac:(lia) Lo L) as U.
  assert (N : is_nan (d * up) = false).
  { destruct (is_nan (d * up)) eqn:N; auto.
    apply is_nan_spec in N. rewrite leb_spec, N in U.
    rewrite Prim2SF_lower in U. discriminate. }
  unfold JS.Math_min. rewrite N. cbn [orb].
  change (is_nan 1e7) with false. cbv iota.
  destruct (d * up <? 1e7) eqn:L1; [split; auto; now apply ltb_leb|].
  destruct (1e7 <? d * up) eqn:L2; [apply in_range_upper|].
  destruct (classify (d * up)); try apply in_range_upper;
    (split; auto; rewrite leb_spec; unfold SFleb;
     now rewrite (compare_eq_of_not_lt (d * up) 1e7 N
                    (eq_refl : is_nan 1e7 = false) L1 L2)).
Qed.

(** ** The program *)


Lemma errorCalculation_run data p ws w :
  errorCalculation data p ws w =
  (Ok (fold_left
         (fun error i =>
            error
            + JS.Math_pow2 (JS.at_ (JS.elements (Data.y data)) i
                            - parameterizedFunction p
                                (JS.at_ (JS.elements (Data.x data)) i))
              / JS.at_ ws i)
         (seq 0 (length (JS.elements (Data.x data)))) 0),
   mkWorld (reads w) (trace w ++ [EvModel p])).
Proof. reflexivity. Qed.

Lemma gradientDifferenceArray_world g n w r w' :
  gradientDifferenceArray g n w = (r, w') -> w' = w.
Proof.
  unfold gradientDifferenceArray, ret, throw.
  destruct g; try (intros H; now inversion H).
  destruct (negb _); intros H; now inversion H.
Qed.

Lemma weightFiller_world g n w r w' :
  weightFiller g n w = (r, w') -> w' = w.
Proof.
  unfold weightFiller, ret, throw.
  destruct g; try (intros H; now inversion H).
  destruct (Nat.ltb _ _); intros H; now inversion H.
Qed.

Lemma timeoutClosure_trace t w r w' :
  timeoutClosure t w = (r, w') -> trace w' = trace w.
Proof.
  unfold timeoutClosure, ret, throw, bind, now.
  destruct t; intros H; now inversion H.
Qed.

(** What a successful [checkOptions] has established and returns. *)
Lemma checkOptions_inv data opts w cfg w' :
  checkOptions data opts w = (Ok cfg, w') ->
  exists xs ys params filler,
    Data.x data = JS.VArray xs /\ Data.y data = JS.VArray ys
    /\ (2 <= length xs)%nat /\ length xs = length ys
    /\ (JS.default_opt (Opt.damping opts) 1e-2 <=? 0) = false
    /\ (if JS.truthy (Opt.initialValues opts) then Opt.initialValues opts
        else JS.VArray (repeat 1 arity)) = JS.VArray params
    /\ gradientDifferenceArray
         (JS.default (Opt.gradientDifference opts) (JS.VNumber 10e-2))
         (length params) w = (Ok (Cfg.gradientDifference cfg), w)
    /\ weightFiller (JS.default (Opt.weights opts) (JS.VNumber 1))
         (length xs) w = (Ok filler, w)
    /\ timeoutClosure (Opt.timeout opts) w = (Ok (Cfg.checkTimeout cfg), w')
    /\ cfg = Cfg.mk (Cfg.checkTimeout cfg)
               (JS.default_opt (Opt.minValues opts)
                  (repeat JS.MIN_SAFE_INTEGER (length params)))
               (JS.default_opt (Opt.maxValues opts)
                  (repeat JS.MAX_SAFE_INTEGER (length params)))
               params (map filler (seq 0 (length ys)))
               (JS.default_opt (Opt.damping opts) 1e-2)
               (JS.default_opt (Opt.dampingStepUp opts) 11)
               (JS.default_opt (Opt.dampingStepDown opts) 9)
               (JS.default_opt (Opt.maxIterations opts) 100%nat)
               (JS.default_opt (Opt.errorTolerance opts) 1e-7)
               (JS.default_opt (Opt.centralDifference opts) false)
               (Cfg.gradientDifference cfg)
               (JS.default_opt (Opt.improvementThreshold opts) 1e-3).
Proof.
  unfold checkOptions.
  destruct (JS.default_opt (Opt.damping opts) 1e-2 <=? 0) eqn:D;
    [discriminate|].
  destruct (negb (JS.truthy (Data.x data)) || negb (JS.truthy (Data.y data)));
    [discriminate|].
  destruct (Data.x data) as [|vx|xs|bx lx] eqn:Hx;
    cbn [negb orb JS.isArray]; try discriminate.
  destruct (Data.y data) as [|vy|ys|by' ly] eqn:Hy;
    cbn [negb orb JS.isArray]; rewrite ?orb_true_r; cbn [orb];
    try discriminate.
  cbn [JS.elements].
  destruct (Nat.ltb_spec (length xs) 2); cbn [negb orb]; [discriminate|].
  destruct (Nat.ltb_spec (length ys) 2); cbn [negb orb]; [discriminate|].
  destruct (Nat.eqb_spec (length xs) (length ys)); cbn [negb];
    [|discriminate].
  destruct (if JS.truthy (Opt.initialValues opts)
            then Opt.initialValues opts else JS.VArray (repeat 1 arity))
    as [|v|params|b l] eqn:P; simpl;
    try (destruct (negb _); discriminate).
  destruct (negb _); [discriminate|].
  unfold bind.
  destruct (gradientDifferenceArray _ _ w) as [[gd|?] w1] eqn:G;
    [|discriminate].
  pose proof (gradientDifferenceArray_world _ _ _ _ _ G); subst w1.
  destruct (weightFiller _ _ w) as [[filler|?] w2] eqn:F; [|discriminate].
  pose proof (weightFiller_world _ _ _ _ _ F); subst w2.
  destruct (timeoutClosure _ w) as [[ct|?] w3] eqn:T; [|discriminate].
  unfold ret. intros R. inversion R; subst; clear R. simpl.
  exists xs, ys, params, filler. repeat split; auto.
Qed.

Lemma checkOptions_trace data opts w cfg w' :
  checkOptions data opts w = (Ok cfg, w') -> trace w' = trace w.
Proof.
  intros H. apply checkOptions_inv in H.
  destruct H as (xs & ys & params & filler & _ & _ & _ & _ & _ & _ & _ & _ & T & _).
  now apply timeoutClosure_trace in T.
Qed.

Lemma checkOptions_throws data opts w e w' :
  checkOptions data opts w = (Throw e, w') -> exists msg, e = Error msg.
Proof.
  unfold checkOptions, gradientDifferenceArray, weightFiller, timeoutClosure,
    bind, ret, throw, now.
  repeat match goal with
         | |- context [if ?b then _ else _] => destruct b
         | |- context [match ?v with JS.VUndefined => _ | _ => _ end] =>
             destruct v
         end;
    intros H; inversion H; eauto.
Qed.

(** C9. [checkOptions] normalises [gradientDifference] as follows: a number
    (the default [0.1] when the option is left out) is broadcast to one
    slot per parameter; an array whose length differs from the parameter
    count is replaced by that many copies of its first element (of
    [undefined] when it is empty), while an array of the right length is
    kept; any other value makes [checkOptions] throw an error. *)
Theorem gradientDifference_normalized data opts w :
  (forall cfg w',
      checkOptions data opts w = (Ok cfg, w') ->
      let parLen := length (Cfg.parameters cfg) in
      match Opt.gradientDifference opts with
      | JS.VUndefined =>
          Cfg.gradientDifference cfg = repeat (Some 10e-2) parLen
      | JS.VNumber g => Cfg.gradientDifference cfg = repeat (Some g) parLen
      | JS.VArray g =>
          (length g <> parLen ->
           Cfg.gradientDifference cfg = repeat (nth_error g 0) parLen)
          /\ (length g = parLen -> Cfg.gradientDifference cfg = map Some g)
      | JS.VOther _ _ => False
      end)
  /\ (forall b len,
        Opt.gradientDifference opts = JS.VOther b len ->
        exists msg, fst (checkOptions data opts w) = Throw (Error msg)).
Proof.
  assert (N : forall cfg w',
      checkOptions data opts w = (Ok cfg, w') ->
      let parLen := length (Cfg.parameters cfg) in
      match Opt.gradientDifference opts with
      | JS.VUndefined =>
          Cfg.gradientDifference cfg = repeat (Some 10e-2) parLen
      | JS.VNumber g => Cfg.gradientDifference cfg = repeat (Some g) parLen
      | JS.VArray g =>
          (length g <> parLen ->
           Cfg.gradientDifference cfg = repeat (nth_error g 0) parLen)
          /\ (length g = parLen -> Cfg.gradientDifference cfg = map Some g)
      | JS.VOther _ _ => False
      end).
  { intros cfg w' H. apply checkOptions_inv in H.
    destruct H as (xs & ys & params & filler & _ & _ & _ & _ & _ & _ & G & _
                   & _ & E).
    assert (P : Cfg.parameters cfg = params) by (rewrite E; reflexivity).
    simpl. rewrite P. clear E P.
    unfold gradientDifferenceArray, ret, throw in G.
    destruct (Opt.gradientDifference opts) as [|g|g|b l]; simpl in G.
    - now inversion G.
    - now inversion G.
    - destruct (Nat.eqb_spec (length g) (length params)); simpl in G;
        inversion G; split; intros; congruence.
    - discriminate. }
  split; [exact N|].
  intros b len G.
  destruct (checkOptions data opts w) as [[cfg|e] w'] eqn:C.
  - specialize (N cfg w' eq_refl). rewrite G in N. contradiction.
  - destruct (checkOptions_throws _ _ _ _ _ C) as (msg & ->).
    exists msg. reflexivity.
Qed.


Lemma loop_done data opts cfg fuel st :
  (Loop.iteration st <? Cfg.maxIterations cfg)%nat
    && negb (Loop.converged st) = false ->
  loop data opts cfg fuel st = ret st.
Proof. intros H. destruct fuel; simpl; now rewrite H. Qed.

Lemma checkOptions_input_error data opts w xs ys :
  Data.x data = JS.VArray xs -> Data.y data = JS.VArray ys ->
  length xs <> length ys \/ (length xs < 2)%nat \/ (length ys < 2)%nat
    \/ (JS.default_opt (Opt.damping opts) 1e-2 <=? 0) = true ->
  exists msg, checkOptions data opts w = (Throw (Error msg), w).
Proof.
  intros Hx Hy H. unfold checkOptions. rewrite Hx, Hy.
  cbn [JS.truthy JS.isArray JS.elements negb orb].
  destruct (JS.default_opt (Opt.damping opts) 1e-2 <=? 0) eqn:D;
    [eexists; reflexivity|].
  destruct (Nat.ltb_spec (length xs) 2); cbn [orb]; [eexists; reflexivity|].
  destruct (Nat.ltb_spec (length ys) 2); cbn [orb]; [eexists; reflexivity|].
  destruct (Nat.eqb_spec (length xs) (length ys)); cbn [negb];
    [|eexists; reflexivity].
  exfalso. destruct H as [H|[H|[H|H]]]; try lia; congruence.
Qed.

(** C6. When the [x] and [y] sequences differ in length, or one of them
    has fewer than two elements, or the damping is not positive, the fit
    throws an error and leaves the world as it was: the model function has
    not been called. *)
Theorem input_error_before_model data opts w xs ys :
  Data.x data = JS.VArray xs -> Data.y data = JS.VArray ys ->
  length xs <> length ys \/ (length xs < 2)%nat \/ (length ys < 2)%nat
    \/ (JS.default_opt (Opt.damping opts) 1e-2 <=? 0) = true ->
  exists msg,
    levenbergMarquardt data opts w = (Throw (Error msg), w).
Proof.
  intros Hx Hy H.
  destruct (checkOptions_input_error data opts w xs ys Hx Hy H) as [msg E].
  exists msg. unfold levenbergMarquardt, bind. now rewrite E.
Qed.

(** C10. When the error at the initial parameters is already within
    [errorTolerance], the fit returns at once: no iteration, the initial
    parameters (the given [initialValues], or the default vector of ones),
    the initial error; the only call it has made is the one model
    evaluation of [errorCalculation], so neither [step] nor
    [checkTimeout] was called. *)
Theorem converged_at_once data opts w cfg w1 e w2 :
  checkOptions data opts w = (Ok cfg, w1) ->
  errorCalculation data (Cfg.parameters cfg) (Cfg.weightSquare cfg) w1
    = (Ok e, w2) ->
  (e <=? Cfg.errorTolerance cfg) = true ->
  levenbergMarquardt data opts w
    = (Ok (Fit.mk (Cfg.parameters cfg) e 0), w2)
  /\ trace w2 = trace w ++ [EvModel (Cfg.parameters cfg)]
  /\ JS.VArray (Cfg.parameters cfg)
     = (if JS.truthy (Opt.initialValues opts) then Opt.initialValues opts
        else JS.VArray (repeat 1 arity)).
Proof.
  intros HC HE HT. split; [|split].
  - unfold levenbergMarquardt, bind at 1. rewrite HC.
    unfold bind at 1. rewrite HE.
    unfold bind. rewrite loop_done; [reflexivity|].
    simpl. rewrite HT. apply andb_false_r.
  - rewrite errorCalculation_run in HE. inversion HE; subst; simpl.
    now rewrite (checkOptions_trace _ _ _ _ _ HC).
  - apply checkOptions_inv in HC.
    destruct HC as (xs & ys & params & filler & _ & _ & _ & _ & _ & P & _ & _ & _ & E).
    rewrite P, E. reflexivity.
Qed.

Lemma body_timeout data o1 o2 cfg st :
  Opt.timeout o1 = Opt.timeout o2 ->
  body data o1 cfg st = body data o2 cfg st.
Proof. intros H. unfold body. now rewrite H. Qed.

Lemma loop_timeout data o1 o2 cfg fuel :
  Opt.timeout o1 = Opt.timeout o2 ->
  forall st w, loop data o1 cfg fuel st w = loop data o2 cfg fuel st w.
Proof.
  intros H. induction fuel as [|fuel IH]; intros st w; simpl; auto.
  rewrite (body_timeout data o1 o2 cfg st H).
  destruct (_ && _); auto.
  unfold bind. destruct (body data o2 cfg st w) as [[[st'|st']|e] w1]; auto.
Qed.

Lemma weightSquare_uniform ws v n w :
  ws <> [] -> (forall x, In x ws -> x = v) ->
  exists f,
    weightFiller (JS.VArray ws) n w = (Ok f, w)
    /\ forall m, (m <= n)%nat ->
        map f (seq 0 m) = map (fun _ => 1 / JS.Math_pow2 v) (seq 0 m).
Proof.
  intros NE U. unfold weightFiller, ret.
  destruct (Nat.ltb_spec (length ws) n) as [L|L].
  - eexists. split; [reflexivity|]. intros m _.
    destruct ws as [|a ws']; [congruence|]. simpl.
    now rewrite (U a (or_introl eq_refl)).
  - eexists. split; [reflexivity|]. intros m Hm.
    apply map_ext_in. intros i Hi. apply in_seq in Hi.
    rewrite (U (JS.at_ ws i)); auto.
    apply nth_In. lia.
Qed.

(** C8. A weight vector whose entries all equal [v] gives exactly the run
    (result, exception and calls) of the scalar weight [v]. *)
Theorem uniform_weight_vector data opts w ws v :
  ws <> [] -> (forall x, In x ws -> x = v) ->
  levenbergMarquardt data (Opt.set_weights opts (JS.VArray ws)) w
  = levenbergMarquardt data (Opt.set_weights opts (JS.VNumber v)) w.
Proof.
  intros NE U.
  assert (C : checkOptions data (Opt.set_weights opts (JS.VArray ws)) w
              = checkOptions data (Opt.set_weights opts (JS.VNumber v)) w).
  { unfold checkOptions. cbn [Opt.set_weights Opt.timeout Opt.minValues
      Opt.maxValues Opt.initialValues Opt.weights Opt.damping
      Opt.dampingStepUp Opt.dampingStepDown Opt.maxIterations
      Opt.errorTolerance Opt.centralDifference Opt.gradientDifference
      Opt.improvementThreshold JS.default].
    destruct (_ <=? 0); auto.
    destruct (negb _ || negb _); auto.
    destruct (negb (JS.isArray (Data.x data)) || _ || _ || _) eqn:A; auto.
    destruct (Nat.eqb_spec (length (JS.elements (Data.x data)))
                (length (JS.elements (Data.y data)))) as [EQ|]; cbn [negb]; auto.
    destruct (negb (_ =? _)%nat); auto.
    destruct (if JS.truthy _ then _ else _); auto.
    unfold bind.
    destruct (gradientDifferenceArray _ _ w) as [[gd|?] w1] eqn:G; auto.
    pose proof (gradientDifferenceArray_world _ _ _ _ _ G); subst w1.
    destruct (weightSquare_uniform ws v (length (JS.elements (Data.x data))) w NE U)
      as (f & F & Hf).
    rewrite F.
    change (weightFiller (JS.VNumber v) (length (JS.elements (Data.x data))) w)
      with (Ok (fun _ : nat => 1 / JS.Math_pow2 v), w).
    cbv beta iota.
    destruct (timeoutClosure (Opt.timeout opts) w) as [[ct|?] w3]; auto.
    unfold ret. rewrite Hf by lia. reflexivity. }
  unfold levenbergMarquardt, bind. rewrite C.
  destruct (checkOptions data (Opt.set_weights opts (JS.VNumber v)) w)
    as [[cfg|e] w1]; auto.
  destruct (errorCalculation data (Cfg.parameters cfg) (Cfg.weightSquare cfg) w1)
    as [[e|?] w2]; auto.
  rewrite (loop_timeout data _ (Opt.set_weights opts (JS.VNumber v)));
    reflexivity.
Qed.


Lemma attempt_inv data cfg st w t w1 :
  attempt data cfg st w = (Ok t, w1) ->
  Trial.parameters t
    = clamped cfg (Loop.parameters st) (Trial.perturbations t)
  /\ exists w', errorCalculation data (Trial.parameters t)
                  (Cfg.weightSquare cfg) w' = (Ok (Trial.error t), w1).
Proof.
  unfold attempt, bind.
  destruct (step _ _ _ _ _ _ w) as [[[p j]|e] w'] eqn:S; [|discriminate].
  rewrite errorCalculation_run. unfold ret. intros H.
  inversion H; subst; clear H. simpl. split; auto.
  exists w'. apply errorCalculation_run.
Qed.

Lemma body_nan data opts cfg st w t w1 :
  attempt data cfg st w = (Ok t, w1) ->
  JS.isNaN (Trial.error t) = true ->
  body data opts cfg st w
  = (Ok (Break (Loop.mk (Trial.parameters t) (Trial.error t)
                        (Loop.damping st) (Loop.iteration st)
                        (Loop.converged st))), w1).
Proof.
  intros A N. unfold body, bind. rewrite A, N. reflexivity.
Qed.

Lemma body_next data opts cfg st w t w1 r w2 :
  attempt data cfg st w = (Ok t, w1) ->
  JS.isNaN (Trial.error t) = false ->
  body data opts cfg st w = (Ok r, w2) ->
  r = Next (Loop.mk (Loop.parameters (settle cfg st t))
                    (Loop.error (settle cfg st t))
                    (Loop.damping (settle cfg st t))
                    (Loop.iteration st)
                    (Loop.error (settle cfg st t) <=? Cfg.errorTolerance cfg)).
Proof.
  intros A N. unfold body, bind. rewrite A, N.
  destruct (checkTimeout cfg w1) as [[[|]|e] w3];
    unfold throw, ret; intros H; inversion H; subst.
  f_equal. f_equal. unfold settle. now destruct (_ <? _).
Qed.

(** C2. In an iteration whose improvement metric does not exceed
    [improvementThreshold] the step is rejected: the recorded error is the
    previous error again, the parameters are the clamped trial values (they
    are not rolled back), and the damping becomes
    [min(damping * dampingStepUp, 1e7)]. *)
Theorem rejected_step_keeps_trial_parameters data opts cfg st w t w1 :
  attempt data cfg st w = (Ok t, w1) ->
  JS.isNaN (Trial.error t) = false ->
  (Cfg.improvementThreshold cfg <? improvementMetric st t) = false ->
  Trial.parameters t
    = clamped cfg (Loop.parameters st) (Trial.perturbations t)
  /\ settle cfg st t
     = Loop.mk (Trial.parameters t) (Loop.error st)
               (JS.Math_min (Loop.damping st * Cfg.dampingStepUp cfg) 1e7)
               (Loop.iteration st) (Loop.converged st)
  /\ forall r w2,
       body data opts cfg st w = (Ok r, w2) ->
       r = Next (Loop.mk (Trial.parameters t) (Loop.error st)
                   (JS.Math_min (Loop.damping st * Cfg.dampingStepUp cfg) 1e7)
                   (Loop.iteration st)
                   (Loop.error st <=? Cfg.errorTolerance cfg)).
Proof.
  intros A N R.
  assert (S : settle cfg st t
     = Loop.mk (Trial.parameters t) (Loop.error st)
               (JS.Math_min (Loop.damping st * Cfg.dampingStepUp cfg) 1e7)
               (Loop.iteration st) (Loop.converged st)).
  { unfold settle. now rewrite R. }
  split; [apply (attempt_inv _ _ _ _ _ _ A)|]. split; auto.
  intros r w2 B. rewrite (body_next _ _ _ _ _ _ _ _ _ A N B), S. reflexivity.
Qed.


Lemma nonneg_nan : nonneg nan.
Proof. exact I. Qed.

Lemma nonneg_zero : nonneg 0.
Proof. reflexivity. Qed.

Lemma nonneg_add a b : nonneg a -> nonneg b -> nonneg (a + b).
Proof. unfold nonneg. rewrite add_spec. apply SFadd_nonneg. Qed.

Lemma nonneg_div a b : nonneg a -> nonneg b -> nonneg (a / b).
Proof. unfold nonneg. rewrite div_spec. apply SFdiv_nonneg. Qed.

Lemma nonneg_pow2 a : nonneg (JS.Math_pow2 a).
Proof. unfold nonneg, JS.Math_pow2. rewrite mul_spec. apply SFmul_square_nonneg. Qed.

Lemma nonneg_inverse_square a : nonneg (1 / JS.Math_pow2 a).
Proof. apply nonneg_div; [reflexivity|apply nonneg_pow2]. Qed.

Lemma weightFiller_nonneg v n w f w' :
  weightFiller v n w = (Ok f, w') -> forall i, nonneg (f i).
Proof.
  unfold weightFiller, ret, throw.
  destruct v; try discriminate.
  - intros H i. inversion H. apply nonneg_inverse_square.
  - destruct (Nat.ltb _ _); intros H i; inversion H;
      apply nonneg_inverse_square.
Qed.

Lemma at_nonneg l i : Forall nonneg l -> nonneg (JS.at_ l i).
Proof.
  intros H. unfold JS.at_.
  destruct (nth_in_or_default i l nan) as [I|E].
  - rewrite Forall_forall in H. now apply H.
  - rewrite E. exact I.
Qed.

Lemma weightSquare_nonneg data opts w cfg w' :
  checkOptions data opts w = (Ok cfg, w') ->
  Forall nonneg (Cfg.weightSquare cfg).
Proof.
  intros H. apply checkOptions_inv in H.
  destruct H as (xs & ys & params & filler & _ & _ & _ & _ & _ & _ & _ & F & _ & E).
  rewrite E. simpl. apply Forall_forall. intros x I.
  apply in_map_iff in I as (i & <- & _).
  apply (weightFiller_nonneg _ _ _ _ _ F).
Qed.

Lemma error_sum_nonneg (term : nat -> float) ws l acc :
  Forall nonneg ws -> nonneg acc ->
  nonneg (fold_left
            (fun error i => error + JS.Math_pow2 (term i) / JS.at_ ws i)
            l acc).
Proof.
  intros W. revert acc. induction l as [|i l IH]; intros acc A; simpl; auto.
  apply IH. apply nonneg_add; auto.
  apply nonneg_div; [apply nonneg_pow2|now apply at_nonneg].
Qed.

Lemma errorCalculation_nonneg data p ws w e w' :
  Forall nonneg ws ->
  errorCalculation data p ws w = (Ok e, w') -> nonneg e.
Proof.
  intros W. rewrite errorCalculation_run. intros H. inversion H.
  apply (error_sum_nonneg
           (fun i => JS.at_ (JS.elements (Data.y data)) i
                     - parameterizedFunction p
                         (JS.at_ (JS.elements (Data.x data)) i))); auto.
  apply nonneg_zero.
Qed.

(** C1, as amended. With the [weightSquare] that [checkOptions] builds,
    [errorCalculation] never returns a negative number (its value is NaN
    or at least [0]).  An accepted step records the trial error, which is
    strictly below the previous error whenever [improvementThreshold] is
    not negative and the denominator of the improvement metric is
    positive.  A rejected step records the previous error again. *)
Theorem error_never_negative_accepted_steps_decrease data opts w0 cfg w1 :
  checkOptions data opts w0 = (Ok cfg, w1) ->
  (forall p w e w',
      errorCalculation data p (Cfg.weightSquare cfg) w = (Ok e, w') ->
      is_nan e = true \/ (0 <=? e) = true)
  /\ (forall st t,
        (Cfg.improvementThreshold cfg <? improvementMetric st t) = true ->
        Loop.error (settle cfg st t) = Trial.error t
        /\ ((0 <=? Cfg.improvementThreshold cfg) = true ->
            (0 <? predictedReduction st t) = true ->
            (Trial.error t <? Loop.error st) = true))
  /\ (forall st t,
        (Cfg.improvementThreshold cfg <? improvementMetric st t) = false ->
        Loop.error (settle cfg st t) = Loop.error st).
Proof.
  intros C. split; [|split].
  - intros p w e w' E. apply nonneg_leb.
    apply (errorCalculation_nonneg _ _ _ _ _ _ (weightSquare_nonneg _ _ _ _ _ C) E).
  - intros st t A. split.
    + unfold settle. now rewrite A.
    + intros T D. unfold improvementMetric in A.
      apply (accepted_decreases _ _ _ _ T D A).
  - intros st t R. unfold settle. now rewrite R.
Qed.

Lemma body_inv data opts cfg st w r w' :
  body data opts cfg st w = (Ok r, w') ->
  exists t w1,
    attempt data cfg st w = (Ok t, w1)
    /\ ((JS.isNaN (Trial.error t) = true
         /\ r = Break (Loop.mk (Trial.parameters t) (Trial.error t)
                          (Loop.damping st) (Loop.iteration st)
                          (Loop.converged st)))
        \/ (JS.isNaN (Trial.error t) = false
            /\ r = Next (Loop.mk (Loop.parameters (settle cfg st t))
                           (Loop.error (settle cfg st t))
                           (Loop.damping (settle cfg st t))
                           (Loop.iteration st)
                           (Loop.error (settle cfg st t)
                            <=? Cfg.errorTolerance cfg)))).
Proof.
  intros B.
  destruct (attempt data cfg st w) as [[t|e] w1] eqn:A.
  - exists t, w1. split; auto.
    destruct (JS.isNaN (Trial.error t)) eqn:N.
    + left. split; auto. rewrite (body_nan _ opts _ _ _ _ _ A N) in B.
      now inversion B.
    + right. split; auto. apply (body_next _ _ _ _ _ _ _ _ _ A N B).
  - unfold body, bind in B. rewrite A in B. discriminate.
Qed.

Lemma settle_parameters cfg st t :
  Loop.parameters (settle cfg st t) = Trial.parameters t.
Proof. unfold settle. now destruct (_ <? _). Qed.

Lemma settle_iteration cfg st t :
  Loop.iteration (settle cfg st t) = Loop.iteration st.
Proof. unfold settle. now destruct (_ <? _). Qed.

(** More fuel than the iterations left does not change the loop. *)
Lemma loop_fuel data opts cfg fuel extra :
  forall st w,
    (Cfg.maxIterations cfg - Loop.iteration st <= fuel)%nat ->
    loop data opts cfg (fuel + extra) st w = loop data opts cfg fuel st w.
Proof.
  induction fuel as [|fuel IH]; intros st w L.
  - rewrite !loop_done; auto;
      apply andb_false_intro1; apply Nat.ltb_ge; lia.
  - simpl. destruct (_ && _) eqn:C; auto.
    unfold bind. destruct (body data opts cfg st w) as [[[st'|st']|e] w1] eqn:B;
      auto.
    apply IH. apply body_inv in B as (t & w2 & _ & [[_ E]|[_ E]]);
      inversion E; subst; simpl. lia.
Qed.

Lemma imap_from_length {A B} (f : nat -> A -> B) l :
  forall i, length (imap_from f i l) = length l.
Proof. induction l; intros i; simpl; auto. Qed.

Lemma clamped_length cfg params pert :
  length (clamped cfg params pert) = length params.
Proof. apply imap_from_length. Qed.

Lemma clamped_between_equal_bounds cfg c params pert :
  Cfg.minValues cfg = c -> Cfg.maxValues cfg = c ->
  length params = length c ->
  Forall2 kept_or_nan c (clamped cfg params pert).
Proof.
  intros Hmin Hmax. unfold clamped, imap. rewrite Hmin, Hmax.
  assert (G : forall c' ps i,
             length ps = length c' ->
             (forall k, (k < length c')%nat ->
                        JS.at_ c (i + k) = nth k c' nan) ->
             Forall2 kept_or_nan c'
               (imap_from
                  (fun k p =>
                     JS.Math_min
                       (JS.Math_max (JS.at_ c k) (p - Matrix.get pert k 0))
                       (JS.at_ c k)) i ps)).
  { induction c' as [|a c' IH]; intros [|p ps] i L N;
      simpl in *; try discriminate; constructor.
    - specialize (N 0%nat ltac:(lia)). rewrite Nat.add_0_r in N. simpl in N.
      rewrite N. apply clamp_fixed_or_nan.
    - apply IH; [lia|]. intros k Hk.
      specialize (N (S k) ltac:(lia)). simpl in N.
      replace (S i + k)%nat with (i + S k)%nat by lia. exact N. }
  intros L. apply G; auto.
Qed.

Lemma kept_or_nan_refl c : Forall2 kept_or_nan c c.
Proof. induction c; constructor; auto. now left. Qed.

Lemma loop_frozen data opts cfg c fuel :
  Cfg.minValues cfg = c -> Cfg.maxValues cfg = c ->
  forall st w st' w',
    length (Loop.parameters st) = length c ->
    Forall2 kept_or_nan c (Loop.parameters st) ->
    loop data opts cfg fuel st w = (Ok st', w') ->
    Forall2 kept_or_nan c (Loop.parameters st').
Proof.
  intros Hmin Hmax.
  induction fuel as [|fuel IH]; intros st w st' w' L F; simpl.
  - destruct (_ && _); unfold ret; intros H; now inversion H; subst.
  - destruct (_ && _); [|unfold ret; intros H; now inversion H; subst].
    unfold bind.
    destruct (body data opts cfg st w) as [[r|e] w1] eqn:B; [|discriminate].
    apply body_inv in B as (t & w2 & A & [[_ E]|[_ E]]); subst r;
      apply attempt_inv in A as [P _].
    + unfold ret. intros H. inversion H; subst. simpl. rewrite P.
      now apply clamped_between_equal_bounds.
    + apply IH; simpl; rewrite settle_parameters, P.
      * rewrite clamped_length. exact L.
      * now apply clamped_between_equal_bounds.
Qed.

Lemma loop_exit data opts cfg fuel :
  forall st w st' w',
    (Cfg.maxIterations cfg - Loop.iteration st <= fuel)%nat ->
    (Loop.iteration st <= Cfg.maxIterations cfg)%nat ->
    Loop.converged st = (Loop.error st <=? Cfg.errorTolerance cfg) ->
    loop data opts cfg fuel st w = (Ok st', w') ->
    (Loop.iteration st' <= Cfg.maxIterations cfg)%nat
    /\ (Loop.iteration st' = Cfg.maxIterations cfg
        \/ (Loop.error st' <=? Cfg.errorTolerance cfg) = true
        \/ is_nan (Loop.error st') = true).
Proof.
  induction fuel as [|fuel IH]; intros st w st' w' Lf Li Hc.
  - rewrite loop_done by (apply andb_false_intro1; apply Nat.ltb_ge; lia).
    unfold ret. intros H. inversion H; subst. split; auto. left. lia.
  - simpl. destruct (_ && _) eqn:C.
    + apply andb_prop in C as [C1 C2]. apply Nat.ltb_lt in C1.
      unfold bind.
      destruct (body data opts cfg st w) as [[r|e] w1] eqn:B; [|discriminate].
      apply body_inv in B as (t & w2 & A & [[N E]|[N E]]); subst r.
      * unfold ret. intros H. inversion H; subst. simpl. split; [lia|].
        right. right. exact N.
      * apply IH; simpl; try rewrite settle_iteration; try lia. reflexivity.
    + unfold ret. intros H. inversion H; subst. split; auto.
      apply andb_false_elim in C as [C|C].
      * left. apply Nat.ltb_ge in C. lia.
      * right. left. rewrite <- Hc. now destruct (Loop.converged st').
Qed.

(** C7, as amended. With [minValues = maxValues = initialValues] every
    returned parameter is its initial value or NaN (NaN once its trial
    value is NaN), and the loop ends within [maxIterations] iterations: at
    the iteration cap, on an error within [errorTolerance], or on a NaN
    error. *)
Theorem equal_bounds_freeze_parameters data opts w c r w' :
  Opt.initialValues opts = JS.VArray c ->
  Opt.minValues opts = Some c -> Opt.maxValues opts = Some c ->
  levenbergMarquardt data opts w = (Ok r, w') ->
  Forall2 kept_or_nan c (Fit.parameterValues r)
  /\ (Fit.iterations r <= JS.default_opt (Opt.maxIterations opts) 100)%nat
  /\ (Fit.iterations r = JS.default_opt (Opt.maxIterations opts) 100%nat
      \/ (Fit.parameterError r
          <=? JS.default_opt (Opt.errorTolerance opts) 1e-7) = true
      \/ is_nan (Fit.parameterError r) = true).
Proof.
  intros Hi Hmin Hmax. unfold levenbergMarquardt, bind.
  destruct (checkOptions data opts w) as [[cfg|?] w1] eqn:C; [|discriminate].
  rewrite errorCalculation_run.
  destruct (loop _ _ _ _ _ _) as [[st|?] w3] eqn:L; [|discriminate].
  unfold ret. intros H. inversion H; subst; clear H. simpl.
  apply checkOptions_inv in C.
  destruct C as (xs & ys & params & filler & _ & _ & _ & _ & _ & P & _ & _ & _ & E).
  rewrite Hi in P. simpl in P. inversion P; subst params; clear P.
  rewrite Hmin, Hmax in E. simpl in E.
  assert (Emin : Cfg.minValues cfg = c) by (rewrite E; reflexivity).
  assert (Emax : Cfg.maxValues cfg = c) by (rewrite E; reflexivity).
  assert (Epar : Cfg.parameters cfg = c) by (rewrite E; reflexivity).
  assert (Eit : Cfg.maxIterations cfg
                = JS.default_opt (Opt.maxIterations opts) 100%nat)
    by (rewrite E; reflexivity).
  assert (Etol : Cfg.errorTolerance cfg
                 = JS.default_opt (Opt.errorTolerance opts) 1e-7)
    by (rewrite E; reflexivity).
  rewrite <- Eit, <- Etol. split.
  - eapply (loop_frozen _ _ _ c _ Emin Emax); [| |exact L]; simpl;
      rewrite Epar; auto. apply kept_or_nan_refl.
  - eapply loop_exit; [| | |exact L]; simpl; auto; lia.
Qed.

Section Emits.
Variable P : list event -> Prop.
Hypothesis P_nil : P [].
Hypothesis P_app : forall l1 l2, P l1 -> P l2 -> P (l1 ++ l2).

Lemma emits_ret {A} (a : A) : emits P (ret a).
Proof.
  intros w r w' H. inversion H; subst. exists []. now rewrite app_nil_r.
Qed.

Lemma emits_throw {A} e : emits P (@throw A e).
Proof.
  intros w r w' H. inversion H; subst. exists []. now rewrite app_nil_r.
Qed.

Lemma emits_lift {A} (o : outcome A) : emits P (lift o).
Proof.
  intros w r w' H. inversion H; subst. exists []. now rewrite app_nil_r.
Qed.

Lemma emits_now : emits P (now).
Proof.
  intros w r w' H. inversion H; subst. exists []. simpl.
  now rewrite app_nil_r.
Qed.

Lemma emits_emit e : P [e] -> emits P (emit e).
Proof. intros Pe w r w' H. inversion H; subst. exists [e]. auto. Qed.

Lemma emits_bind {A B} (c : M A) (k : A -> M B) :
  emits P c -> (forall a, emits P (k a)) -> emits P (bind c k).
Proof.
  intros Hc Hk w r w' H. unfold bind in H.
  destruct (c w) as [[a|e] w1] eqn:C.
  - destruct (Hc _ _ _ C) as (l1 & E1 & P1).
    destruct (Hk a _ _ _ H) as (l2 & E2 & P2).
    exists (l1 ++ l2). rewrite E2, E1, app_assoc. auto.
  - inversion H; subst. exact (Hc _ _ _ C).
Qed.

Lemma emits_foldM {A S} (f : S -> A -> M S) l :
  (forall s a, emits P (f s a)) -> forall s, emits P (foldM f l s).
Proof.
  intros Hf. induction l as [|a l IH]; intros s; simpl.
  - apply emits_ret.
  - apply emits_bind; auto.
Qed.
End Emits.

Lemma no_step_nil : no_step [].
Proof. intros d []. Qed.

Lemma no_step_app l1 l2 : no_step l1 -> no_step l2 -> no_step (l1 ++ l2).
Proof.
  intros H1 H2 d I. apply in_app_or in I as [I|I]; [eapply H1|eapply H2]; eauto.
Qed.

Lemma steps_in_range_nil : steps_in_range [].
Proof. intros d []. Qed.

Lemma steps_in_range_app l1 l2 :
  steps_in_range l1 -> steps_in_range l2 -> steps_in_range (l1 ++ l2).
Proof.
  intros H1 H2 d I. apply in_app_or in I as [I|I]; auto.
Qed.

Lemma no_step_in_range l : no_step l -> steps_in_range l.
Proof. intros H d I. now apply H in I. Qed.

Lemma emits_weaken (P Q : list event -> Prop) {A} (c : M A) :
  (forall l, P l -> Q l) -> emits P c -> emits Q c.
Proof.
  intros PQ H w r w' E. destruct (H _ _ _ E) as (l & El & Pl). eauto.
Qed.

Lemma call_no_step p : emits no_step (call p).
Proof.
  unfold call. apply emits_bind; auto using no_step_nil, no_step_app.
  - apply emits_emit. intros d [I|[]]. discriminate.
  - intros _. apply emits_ret, no_step_nil.
Qed.

Lemma errorCalculation_no_step data p ws :
  emits no_step (errorCalculation data p ws).
Proof.
  unfold errorCalculation.
  apply emits_bind; auto using no_step_nil, no_step_app, call_no_step.
  intros f. apply emits_ret, no_step_nil.
Qed.

Lemma gradientFunction_no_step data ev params gd central :
  emits no_step
    (gradientFunction data ev params gd central).
Proof.
  unfold gradientFunction.
  apply emits_bind; auto using no_step_nil, no_step_app.
  - apply emits_foldM; auto using no_step_nil, no_step_app.
    intros [ans rowIndex] param. unfold gradientRow.
    destruct (JS.is_zero_slot _); [apply emits_ret, no_step_nil|].
    apply emits_bind; auto using no_step_nil, no_step_app, call_no_step.
    intros f. destruct (negb central); [apply emits_ret, no_step_nil|].
    apply emits_bind; auto using no_step_nil, no_step_app, call_no_step.
    intros f2. apply emits_ret, no_step_nil.
  - intros [ans r]. apply emits_ret, no_step_nil.
Qed.

Lemma step_emits data params damping gd central ws :
  emits (fun l => exists l', l = EvStep damping :: l' /\ no_step l')
        (step data params damping gd central ws).
Proof.
  intros w r w' H. unfold step, bind at 1, emit in H.
  match type of H with
  | ?c ?w1 = _ =>
      assert (E : emits no_step c)
  end.
  { apply emits_bind; auto using no_step_nil, no_step_app, call_no_step.
    intros f.
    apply emits_bind;
      auto using no_step_nil, no_step_app, gradientFunction_no_step.
    intros J.
    apply emits_bind; auto using no_step_nil, no_step_app.
    - apply emits_lift, no_step_nil.
    - intros inv. apply emits_ret, no_step_nil. }
  destruct (E _ _ _ H) as (l & El & Pl). simpl in El.
  exists (EvStep damping :: l). rewrite El, <- app_assoc. eauto.
Qed.

Lemma checkTimeout_no_step cfg : emits no_step (checkTimeout cfg).
Proof.
  unfold checkTimeout. apply emits_bind; auto using no_step_nil, no_step_app.
  - apply emits_emit. intros d [I|[]]. discriminate.
  - intros _. destruct (Cfg.checkTimeout cfg).
    + apply emits_bind; auto using no_step_nil, no_step_app.
      * apply emits_now, no_step_nil.
      * intros n. apply emits_ret, no_step_nil.
    + apply emits_ret, no_step_nil.
Qed.

Lemma body_steps_in_range data opts cfg st :
  in_range (Loop.damping st) ->
  emits steps_in_range (body data opts cfg st).
Proof.
  intros R. unfold body.
  apply emits_bind; auto using steps_in_range_nil, steps_in_range_app.
  - unfold attempt.
    apply emits_bind; auto using steps_in_range_nil, steps_in_range_app.
    + eapply emits_weaken; [|apply step_emits].
      intros l (l' & -> & N) d [I|I].
      * inversion I; subst. exact R.
      * now apply N in I.
    + intros [p j].
      apply emits_bind; auto using steps_in_range_nil, steps_in_range_app.
      * eapply emits_weaken; [apply no_step_in_range|].
        apply errorCalculation_no_step.
      * intros e. apply emits_ret, steps_in_range_nil.
  - intros t. destruct (JS.isNaN _); [apply emits_ret, steps_in_range_nil|].
    apply emits_bind; auto using steps_in_range_nil, steps_in_range_app.
    + eapply emits_weaken; [apply no_step_in_range|].
      apply checkTimeout_no_step.
    + intros [|]; [apply emits_throw|apply emits_ret];
        apply steps_in_range_nil.
Qed.

Lemma settle_in_range cfg st t :
  in_range (Loop.damping st) ->
  (1 <? Cfg.dampingStepUp cfg) = true ->
  (1 <? Cfg.dampingStepDown cfg) = true ->
  in_range (Loop.damping (settle cfg st t)).
Proof.
  intros R U D. unfold settle. destruct (_ <? improvementMetric st t); simpl.
  - now apply damping_decrease_in_range.
  - now apply damping_increase_in_range.
Qed.

Lemma loop_steps_in_range data opts cfg fuel :
  (1 <? Cfg.dampingStepUp cfg) = true ->
  (1 <? Cfg.dampingStepDown cfg) = true ->
  forall st, in_range (Loop.damping st) ->
    emits steps_in_range (loop data opts cfg fuel st).
Proof.
  intros U D. induction fuel as [|fuel IH]; intros st R; simpl.
  - destruct (_ && _); apply emits_ret, steps_in_range_nil.
  - destruct (_ && _); [|apply emits_ret, steps_in_range_nil].
    intros w r w' H. unfold bind in H.
    destruct (body data opts cfg st w) as [[fl|e] w1] eqn:B.
    + destruct (body_steps_in_range data opts cfg st R _ _ _ B)
        as (l1 & E1 & P1).
      apply body_inv in B as (t & w2 & _ & [[_ E]|[_ E]]); subst fl.
      * inversion H; subst. eauto.
      * match type of H with
        | loop _ _ _ _ ?s _ = _ =>
            assert (R' : in_range (Loop.damping s))
              by (simpl; now apply settle_in_range)
        end.
        destruct (IH _ R' _ _ _ H) as (l2 & E2 & P2).
        exists (l1 ++ l2). rewrite E2, E1, app_assoc.
        auto using steps_in_range_app.
    + inversion H; subst.
      exact (body_steps_in_range data opts cfg st R _ _ _ B).
Qed.

Lemma checkOptions_no_event data opts :
  emits (fun l => l = []) (checkOptions data opts).
Proof.
  assert (A : forall l1 l2 : list event, l1 = [] -> l2 = [] -> l1 ++ l2 = [])
    by (intros; subst; reflexivity).
  unfold checkOptions.
  repeat match goal with
         | |- emits _ (if ?b then _ else _) => destruct b
         | |- emits _ (throw _) => apply emits_throw; auto
         | |- emits _ (match ?v with JS.VUndefined => _ | _ => _ end) =>
             destruct v
         end.
  apply emits_bind; auto.
  { unfold gradientDifferenceArray.
    destruct (JS.default _ _); try (apply emits_throw; auto);
      try (apply emits_ret; auto).
    destruct (negb _); apply emits_ret; auto. }
  intros gd. apply emits_bind; auto.
  { unfold weightFiller.
    destruct (JS.default _ _); try (apply emits_throw; auto);
      try (apply emits_ret; auto).
    destruct (Nat.ltb _ _); apply emits_ret; auto. }
  intros f. apply emits_bind; auto.
  { unfold timeoutClosure.
    destruct (Opt.timeout opts); try (apply emits_throw; auto);
      try (apply emits_ret; auto).
    apply emits_bind; auto; [apply emits_now; auto|].
    intros n. apply emits_ret; auto. }
  intros ct. apply emits_ret; auto.
Qed.

Lemma levenbergMarquardt_steps_in_range data opts :
  in_range (JS.default_opt (Opt.damping opts) 1e-2) ->
  (1 <? JS.default_opt (Opt.dampingStepUp opts) 11) = true ->
  (1 <? JS.default_opt (Opt.dampingStepDown opts) 9) = true ->
  emits steps_in_range (levenbergMarquardt data opts).
Proof.
  intros R U D. unfold levenbergMarquardt.
  intros w r w' H. unfold bind at 1 in H.
  destruct (checkOptions data opts w) as [[cfg|e] w1] eqn:C.
  - destruct (checkOptions_no_event data opts _ _ _ C) as (l0 & E0 & ->).
    rewrite app_nil_r in E0. rewrite <- E0.
    apply checkOptions_inv in C.
    destruct C as (xs & ys & params & filler & _ & _ & _ & _ & _ & _ & _ & _ & _ & E).
    assert (Ed : Cfg.damping cfg = JS.default_opt (Opt.damping opts) 1e-2)
      by (rewrite E; reflexivity).
    assert (Eu : Cfg.dampingStepUp cfg
                 = JS.default_opt (Opt.dampingStepUp opts) 11)
      by (rewrite E; reflexivity).
    assert (Edn : Cfg.dampingStepDown cfg
                  = JS.default_opt (Opt.dampingStepDown opts) 9)
      by (rewrite E; reflexivity).
    revert H. 
    apply emits_bind; auto using steps_in_range_nil, steps_in_range_app.
    + eapply emits_weaken; [apply no_step_in_range|].
      apply errorCalculation_no_step.
    + intros e.
      apply emits_bind; auto using steps_in_range_nil, steps_in_range_app.
      * apply loop_steps_in_range; try congruence. simpl. now rewrite Ed.
      * intros st. apply emits_ret, steps_in_range_nil.
  - inversion H; subst.
    destruct (checkOptions_no_event data opts _ _ _ C) as (l0 & E0 & ->).
    exists []. split; auto. apply steps_in_range_nil.
Qed.

(** C3, as amended. When the [damping] option lies within [1e-7, 1e7] and
    [dampingStepUp] and [dampingStepDown] are both above [1], every call of
    [step] in the run receives a damping within [1e-7, 1e7]. *)
Theorem damping_stays_in_range data opts w r w' :
  in_range (JS.default_opt (Opt.damping opts) 1e-2) ->
  (1 <? JS.default_opt (Opt.dampingStepUp opts) 11) = true ->
  (1 <? JS.default_opt (Opt.dampingStepDown opts) 9) = true ->
  levenbergMarquardt data opts w = (r, w') ->
  exists l,
    trace w' = trace w ++ l
    /\ forall d, In (EvStep d) l -> in_range d.
Proof.
  intros R U D H.
  exact (levenbergMarquardt_steps_in_range data opts R U D w r w' H).
Qed.

(** ** The Jacobian estimator *)


Lemma update_app {A} (f : A -> A) (done : list A) a rest :
  update (length done) f (done ++ a :: rest) = done ++ f a :: rest.
Proof. induction done; simpl; congruence. Qed.

Lemma fill_row (g : nat -> float) post :
  forall pre,
    fold_left (fun row j => update j (fun _ => g j) row)
              (seq (length pre) (length post)) (pre ++ post)
    = pre ++ map g (seq (length pre) (length post)).
Proof.
  induction post as [|a post IH]; intros pre; simpl; auto.
  rewrite update_app.
  replace (pre ++ g (length pre) :: post)
    with ((pre ++ [g (length pre)]) ++ post)
    by (now rewrite <- app_assoc).
  replace (S (length pre)) with (length (pre ++ [g (length pre)]))
    by (rewrite length_app; simpl; lia).
  rewrite IH. now rewrite <- app_assoc.
Qed.

Lemma set_row_fold (g : nat -> float) R C done rest l :
  forall row,
    fold_left (fun ans point => Matrix.set ans (length done) point (g point))
              l (Matrix.mk R C (done ++ row :: rest))
    = Matrix.mk R C
        (done ++ fold_left (fun row j => update j (fun _ => g j) row) l row
              :: rest).
Proof.
  induction l as [|j l IH]; intros row; simpl; auto.
  unfold Matrix.set at 2. simpl. rewrite update_app. apply IH.
Qed.

Lemma write_row (g : nat -> float) R C done rest row :
  length row = C ->
  fold_left (fun ans point => Matrix.set ans (length done) point (g point))
            (seq 0 C) (Matrix.mk R C (done ++ row :: rest))
  = Matrix.mk R C (done ++ map g (seq 0 C) :: rest).
Proof.
  intros L. rewrite set_row_fold. subst C.
  pose proof (fill_row g row []) as F. simpl in F. now rewrite F.
Qed.

Lemma gradientRow_skip data evaluatedData params gd central nbPoints acc
    param w :
  JS.is_zero_slot (nth param gd None) = true ->
  gradientRow data evaluatedData params gd central nbPoints acc param w
  = (Ok acc, w).
Proof.
  intros Z. unfold gradientRow, JS.slot in *.
  destruct acc as [ans rowIndex]. now rewrite Z.
Qed.

Lemma gradientRow_write data evaluatedData params gd central R done row rest
    param w :
  JS.is_zero_slot (nth param gd None) = false ->
  length row = length (JS.elements (Data.x data)) ->
  exists w',
    gradientRow data evaluatedData params gd central
      (length (JS.elements (Data.x data)))
      (Matrix.mk R (length (JS.elements (Data.x data)))
                 (done ++ row :: rest), length done) param w
    = (Ok (Matrix.mk R (length (JS.elements (Data.x data)))
             (done ++ differenceQuotients data evaluatedData params gd
                        central param :: rest),
           S (length done)), w').
Proof.
  intros Z L. unfold gradientRow, differenceQuotients, JS.slot in *.
  rewrite Z.
  destruct central; cbn [negb]; unfold call, emit, bind, ret;
    cbv beta iota zeta.
  - rewrite (write_row
      (fun point =>
         (parameterizedFunction
            (update param
               (fun v => v - JS.toNumber (nth param gd None)) params)
            (JS.at_ (JS.elements (Data.x data)) point)
          - parameterizedFunction
              (update param
                 (fun v => v + JS.toNumber (nth param gd None)) params)
              (JS.at_ (JS.elements (Data.x data)) point))
         / (JS.toNumber (nth param gd None) * 2))) by exact L.
    eexists; reflexivity.
  - rewrite (write_row
      (fun point =>
         (JS.at_ evaluatedData point
          - parameterizedFunction
              (update param
                 (fun v => v + JS.toNumber (nth param gd None)) params)
              (JS.at_ (JS.elements (Data.x data)) point))
         / JS.toNumber (nth param gd None))) by exact L.
    eexists; reflexivity.
Qed.

Lemma gradientRows data evaluatedData params gd central n :
  forall s done w,
    (s + n = length params)%nat -> (length done <= s)%nat ->
    exists w',
      foldM (gradientRow data evaluatedData params gd central
               (length (JS.elements (Data.x data))))
            (seq s n)
            (Matrix.mk (length params) (length (JS.elements (Data.x data)))
               (done ++ repeat (repeat 0 (length (JS.elements (Data.x data))))
                          (length params - length done)),
             length done) w
      = (Ok (Matrix.mk (length params) (length (JS.elements (Data.x data)))
               ((done ++ map (differenceQuotients data evaluatedData params
                                gd central)
                             (filter (fun param =>
                                        negb (JS.is_zero_slot
                                                (nth param gd None)))
                                     (seq s n)))
                ++ repeat (repeat 0 (length (JS.elements (Data.x data))))
                     (length params - length done
                      - length (filter (fun param =>
                                          negb (JS.is_zero_slot
                                                  (nth param gd None)))
                                       (seq s n)))),
             (length done
              + length (filter (fun param =>
                                  negb (JS.is_zero_slot (nth param gd None)))
                               (seq s n)))%nat), w').
Proof.
  induction n as [|n IH]; intros s done w Hs Hd.
  - simpl. exists w. unfold ret.
    now rewrite app_nil_r, Nat.sub_0_r, Nat.add_0_r.
  - change (seq s (S n)) with (s :: seq (S s) n).
    cbn [foldM filter].
    destruct (JS.is_zero_slot (nth s gd None)) eqn:Z; cbn [negb].
    + unfold bind at 1. rewrite gradientRow_skip by exact Z.
      apply IH; lia.
    + assert (exists k, length params - length done = S k)%nat as (k & Hk)
        by (exists (length params - length done - 1)%nat; lia).
      rewrite Hk. cbn [repeat]. unfold bind at 1.
      destruct (gradientRow_write data evaluatedData params gd central
                  (length params) done
                  (repeat 0 (length (JS.elements (Data.x data))))
                  (repeat (repeat 0 (length (JS.elements (Data.x data)))) k)
                  s w Z (repeat_length _ _)) as (w1 & E1).
      rewrite E1.
      destruct (IH (S s)
                   (done ++ [differenceQuotients data evaluatedData params gd
                               central s]) w1 ltac:(lia)
                   ltac:(rewrite length_app; simpl; lia)) as (w' & E).
      exists w'. rewrite length_app in E. cbn [length] in E.
      replace (length params - (length done + 1))%nat with k in E by lia.
      rewrite <- (app_assoc done [_]) in E. cbn [app] in E.
      replace (length done + 1)%nat with (S (length done)) in E by lia.
      rewrite E. cbn [map length Nat.sub Nat.add].
      rewrite Nat.add_succ_r, <- !app_assoc. reflexivity.
Qed.

(** C4, as amended. [gradientFunction] always returns a matrix with one
    row per parameter and one column per sample: the rows of the
    parameters whose step is not [0] come first, in the order of the
    parameters (a zero-step parameter fills no row, so later rows move
    up), and the rows left over stay all [0]; the matrix [step] inverts is
    square of the parameter count. *)
Theorem jacobian_has_one_row_per_parameter data evaluatedData params gd
    central damping weights w :
  let nbPoints := length (JS.elements (Data.x data)) in
  let active := activeParameters gd (length params) in
  exists J w',
    gradientFunction data evaluatedData params gd central w = (Ok J, w')
    /\ Matrix.rows J = length params
    /\ Matrix.columns J = nbPoints
    /\ Matrix.data J
       = map (differenceQuotients data evaluatedData params gd central) active
         ++ repeat (repeat 0 nbPoints) (length params - length active)
    /\ Matrix.rows (dampedNormalMatrix params damping J weights)
       = length params
    /\ Matrix.columns (dampedNormalMatrix params damping J weights)
       = length params.
Proof.
  intros nbPoints active. unfold gradientFunction, bind.
  destruct (gradientRows data evaluatedData params gd central (length params)
              0%nat [] w eq_refl (Nat.le_refl _)) as (w' & E).
  cbn [app length] in E. rewrite Nat.sub_0_r in E.
  unfold Matrix.zeros. rewrite E. unfold ret.
  eexists. eexists. split; [reflexivity|]. cbn.
  repeat split; reflexivity.
Qed.

(** ** The clock and the exceptions of a run *)

Lemma keeps_clock_ret {A} (a : A) : keeps_clock (ret a).
Proof. intros w r w' H. now inversion H. Qed.

Lemma keeps_clock_throw {A} e : keeps_clock (@throw A e).
Proof. intros w r w' H. now inversion H. Qed.

Lemma keeps_clock_lift {A} (o : outcome A) : keeps_clock (lift o).
Proof. intros w r w' H. now inversion H. Qed.

Lemma keeps_clock_emit e : keeps_clock (emit e).
Proof. intros w r w' H. now inversion H. Qed.

Lemma keeps_clock_bind {A B} (c : M A) (k : A -> M B) :
  keeps_clock c -> (forall a, keeps_clock (k a)) -> keeps_clock (bind c k).
Proof.
  intros Hc Hk w r w' H. unfold bind in H.
  destruct (c w) as [[a|e] w1] eqn:E.
  - rewrite (Hk a _ _ _ H). apply (Hc _ _ _ E).
  - inversion H; subst. apply (Hc _ _ _ E).
Qed.

Lemma keeps_clock_foldM {A S} (f : S -> A -> M S) l :
  (forall s a, keeps_clock (f s a)) -> forall s, keeps_clock (foldM f l s).
Proof.
  intros Hf. induction l as [|a l IH]; intros s; simpl.
  - apply keeps_clock_ret.
  - apply keeps_clock_bind; auto.
Qed.

Lemma call_keeps_clock p : keeps_clock (call p).
Proof.
  unfold call. apply keeps_clock_bind; [apply keeps_clock_emit|].
  intros _. apply keeps_clock_ret.
Qed.

Lemma errorCalculation_keeps_clock data p ws :
  keeps_clock (errorCalculation data p ws).
Proof.
  unfold errorCalculation. apply keeps_clock_bind; [apply call_keeps_clock|].
  intros f. apply keeps_clock_ret.
Qed.

Lemma gradientFunction_keeps_clock data ev params gd central :
  keeps_clock (gradientFunction data ev params gd central).
Proof.
  unfold gradientFunction. apply keeps_clock_bind.
  - apply keeps_clock_foldM. intros [ans r] param. unfold gradientRow.
    destruct (JS.is_zero_slot _); [apply keeps_clock_ret|].
    apply keeps_clock_bind; [apply call_keeps_clock|].
    intros f. destruct (negb central); [apply keeps_clock_ret|].
    apply keeps_clock_bind; [apply call_keeps_clock|].
    intros f2. apply keeps_clock_ret.
  - intros [ans r]. apply keeps_clock_ret.
Qed.

Lemma step_keeps_clock data params damping gd central ws :
  keeps_clock (step data params damping gd central ws).
Proof.
  unfold step. apply keeps_clock_bind; [apply keeps_clock_emit|].
  intros _. apply keeps_clock_bind; [apply call_keeps_clock|].
  intros f. apply keeps_clock_bind; [apply gradientFunction_keeps_clock|].
  intros J. apply keeps_clock_bind; [apply keeps_clock_lift|].
  intros inv. apply keeps_clock_ret.
Qed.

Lemma attempt_keeps_clock data cfg st : keeps_clock (attempt data cfg st).
Proof.
  unfold attempt. apply keeps_clock_bind; [apply step_keeps_clock|].
  intros [p j]. apply keeps_clock_bind; [apply errorCalculation_keeps_clock|].
  intros e. apply keeps_clock_ret.
Qed.

Lemma gradientRow_world data ev params gd central n acc param w :
  exists acc',
    gradientRow data ev params gd central n acc param w
    = (Ok acc',
       mkWorld (reads w) (trace w ++ gradientCalls params gd central param)).
Proof.
  destruct acc as [ans r]. unfold gradientRow, gradientCalls.
  destruct (JS.is_zero_slot _).
  - exists (ans, r). unfold ret. destruct w; simpl. now rewrite app_nil_r.
  - unfold call, emit, bind, ret; cbv beta iota zeta.
    destruct central; cbn [negb reads trace]; eexists.
    + rewrite <- app_assoc. reflexivity.
    + reflexivity.
Qed.

Lemma gradientRows_world data ev params gd central n l :
  forall acc w,
    exists acc',
      foldM (gradientRow data ev params gd central n) l acc w
      = (Ok acc',
         mkWorld (reads w)
                 (trace w ++ flat_map (gradientCalls params gd central) l)).
Proof.
  induction l as [|param l IH]; intros acc w; simpl.
  - exists acc. unfold ret. destruct w; simpl. now rewrite app_nil_r.
  - unfold bind.
    destruct (gradientRow_world data ev params gd central n acc param w)
      as (acc1 & E).
    rewrite E. destruct (IH acc1 (mkWorld (reads w)
                           (trace w ++ gradientCalls params gd central param)))
      as (acc2 & E2).
    rewrite E2. exists acc2. cbn [reads trace]. now rewrite <- app_assoc.
Qed.

Lemma gradientFunction_world data ev params gd central w :
  exists J,
    gradientFunction data ev params gd central w
    = (Ok J,
       mkWorld (reads w)
               (trace w ++ flat_map (gradientCalls params gd central)
                             (seq 0 (length params)))).
Proof.
  unfold gradientFunction, bind.
  destruct (gradientRows_world data ev params gd central
              (length (JS.elements (Data.x data))) (seq 0 (length params))
              (Matrix.zeros (length params)
                 (length (JS.elements (Data.x data))), 0%nat) w)
    as ([J r] & E).
  rewrite E. exists J. reflexivity.
Qed.

(** [step] throws what [mlMatrix.inverse] throws, nothing else. *)
Lemma step_throws data params damping gd central ws w e w' :
  step data params damping gd central ws w = (Throw e, w') ->
  exists m, inverse m = Throw e.
Proof.
  unfold step, bind at 1, emit. unfold bind at 1, call, bind at 1, emit, ret.
  unfold bind at 1.
  destruct (gradientFunction _ _ _ _ _ _) as [[J|e'] w1] eqn:G.
  - unfold bind, lift.
    destruct (inverse _) as [inv|e'] eqn:I; unfold ret; intros H;
      inversion H; subst. eauto.
  - match type of G with
    | gradientFunction ?d ?ev ?p ?g ?c ?w0 = _ =>
        destruct (gradientFunction_world d ev p g c w0) as (J & G')
    end.
    rewrite G' in G. discriminate.
Qed.

Lemma attempt_throws data cfg st w e w' :
  attempt data cfg st w = (Throw e, w') -> exists m, inverse m = Throw e.
Proof.
  unfold attempt, bind.
  destruct (step _ _ _ _ _ _ w) as [[[p j]|e'] w1] eqn:S.
  - rewrite errorCalculation_run. discriminate.
  - intros H. inversion H; subst. apply (step_throws _ _ _ _ _ _ _ _ _ S).
Qed.

Lemma checkTimeout_run cfg w :
  checkTimeout cfg w
  = (Ok match Cfg.checkTimeout cfg with
        | Some endTime => endTime <? Date_now (reads w)
        | None => false
        end,
     mkWorld match Cfg.checkTimeout cfg with
             | Some _ => S (reads w)
             | None => reads w
             end
             (trace w ++ [EvCheckTimeout])).
Proof.
  unfold checkTimeout, bind, emit, now, ret.
  now destruct (Cfg.checkTimeout cfg).
Qed.

(** An iteration throws what [mlMatrix.inverse] throws, or the time-out
    error when the clock, read last, is past [endTime]. *)
Lemma body_throws data opts cfg st w e w' :
  body data opts cfg st w = (Throw e, w') ->
  (exists m, inverse m = Throw e)
  \/ (e = TimeoutError (Opt.timeout opts)
      /\ exists endTime k,
           Cfg.checkTimeout cfg = Some endTime
           /\ reads w' = S k /\ (endTime <? Date_now k) = true).
Proof.
  unfold body, bind.
  destruct (attempt data cfg st w) as [[t|e'] w1] eqn:A.
  - destruct (JS.isNaN _); [discriminate|].
    rewrite checkTimeout_run.
    destruct (Cfg.checkTimeout cfg) as [endTime|]; [|discriminate].
    destruct (endTime <? Date_now (reads w1)) eqn:X; [|discriminate].
    unfold throw. intros H. inversion H; subst. right. split; auto.
    exists endTime, (reads w1). auto.
  - intros H. inversion H; subst. left.
    apply (attempt_throws _ _ _ _ _ _ A).
Qed.

Lemma loop_throws data opts cfg fuel :
  forall st w e w',
    loop data opts cfg fuel st w = (Throw e, w') ->
    (exists m, inverse m = Throw e)
    \/ (e = TimeoutError (Opt.timeout opts)
        /\ exists endTime k,
             Cfg.checkTimeout cfg = Some endTime
             /\ reads w' = S k /\ (endTime <? Date_now k) = true).
Proof.
  induction fuel as [|fuel IH]; intros st w e w'; simpl.
  - destruct (_ && _); discriminate.
  - destruct (_ && _); [|discriminate]. unfold bind.
    destruct (body data opts cfg st w) as [[[st1|st1]|e1] w1] eqn:B.
    + apply IH.
    + discriminate.
    + intros H. inversion H; subst. apply (body_throws _ _ _ _ _ _ _ B).
Qed.

(** A failed validation has read no clock and called nothing. *)
Lemma checkOptions_throw_world data opts w e w' :
  checkOptions data opts w = (Throw e, w') -> w' = w.
Proof.
  unfold checkOptions, gradientDifferenceArray, weightFiller, timeoutClosure,
    bind, ret, throw, now.
  repeat match goal with
         | |- context [if ?b then _ else _] => destruct b
         | |- context [match ?v with JS.VUndefined => _ | _ => _ end] =>
             destruct v
         end;
    intros H; inversion H; auto.
Qed.

Lemma timeoutClosure_inv timeout w ct w' :
  timeoutClosure timeout w = (Ok ct, w') ->
  (timeout = JS.VUndefined /\ ct = None /\ w' = w)
  \/ (exists t, timeout = JS.VNumber t
                /\ ct = Some (Date_now (reads w) + t * 1000)
                /\ w' = mkWorld (S (reads w)) (trace w)).
Proof.
  unfold timeoutClosure, bind, now, ret, throw.
  destruct timeout; intros H; inversion H; subst; eauto.
Qed.

Lemma body_keeps_clock data opts cfg st :
  Cfg.checkTimeout cfg = None -> keeps_clock (body data opts cfg st).
Proof.
  intros N. unfold body. apply keeps_clock_bind; [apply attempt_keeps_clock|].
  intros t. destruct (JS.isNaN _); [apply keeps_clock_ret|].
  apply keeps_clock_bind.
  - intros w r w'. rewrite checkTimeout_run, N. intros H. now inversion H.
  - intros [|]; [apply keeps_clock_throw|apply keeps_clock_ret].
Qed.

Lemma loop_keeps_clock data opts cfg fuel :
  Cfg.checkTimeout cfg = None ->
  forall st, keeps_clock (loop data opts cfg fuel st).
Proof.
  intros N. induction fuel as [|fuel IH]; intros st; simpl.
  - destruct (_ && _); apply keeps_clock_ret.
  - destruct (_ && _); [|apply keeps_clock_ret].
    apply keeps_clock_bind; [now apply body_keeps_clock|].
    intros [st'|st']; [apply IH|apply keeps_clock_ret].
Qed.

(** X1. A fit without the [timeout] option never reads the clock. *)
Theorem without_timeout_clock_is_not_read data opts w r w' :
  Opt.timeout opts = JS.VUndefined ->
  levenbergMarquardt data opts w = (r, w') -> reads w' = reads w.
Proof.
  intros T. unfold levenbergMarquardt. unfold bind at 1.
  destruct (checkOptions data opts w) as [[cfg|e] w1] eqn:C.
  - pose proof C as I. apply checkOptions_inv in I.
    destruct I as (xs & ys & params & filler & _ & _ & _ & _ & _ & _ & _ & _
                   & TC & _).
    rewrite T in TC. apply timeoutClosure_inv in TC.
    destruct TC as [(_ & N & ->)|(t & D & _)]; [|discriminate].
    intros H. revert H.
    match goal with
    | |- ?c w = _ -> _ => assert (K : keeps_clock c)
    end.
    { apply keeps_clock_bind; [apply errorCalculation_keeps_clock|].
      intros e. apply keeps_clock_bind; [now apply loop_keeps_clock|].
      intros st. apply keeps_clock_ret. }
    apply K.
  - intros H. inversion H; subst.
    now rewrite (checkOptions_throw_world _ _ _ _ _ C).
Qed.

(** X2. Every exception of a fit is an [Error] of the validation, thrown
    before any call and any clock read, or an exception of
    [mlMatrix.inverse], or the time-out error, which carries the number
    given as [timeout] and is thrown right after a clock read past
    [endTime], the first clock read plus [timeout * 1000]. *)
Theorem exceptions_of_a_fit data opts w e w' :
  levenbergMarquardt data opts w = (Throw e, w') ->
  (exists msg, e = Error msg /\ w' = w)
  \/ (exists m, inverse m = Throw e)
  \/ (exists t k,
        Opt.timeout opts = JS.VNumber t
        /\ e = TimeoutError (JS.VNumber t)
        /\ reads w' = S k
        /\ (Date_now (reads w) + t * 1000 <? Date_now k) = true).
Proof.
  unfold levenbergMarquardt. unfold bind at 1.
  destruct (checkOptions data opts w) as [[cfg|e1] w1] eqn:C.
  - unfold bind at 1. rewrite errorCalculation_run. unfold bind.
    destruct (loop _ _ _ _ _ _) as [[st|e2] w3] eqn:L; [discriminate|].
    intros H. inversion H; subst. right.
    apply loop_throws in L as [L|(E & endTime & k & CT & R & X)];
      [now left|right].
    apply checkOptions_inv in C.
    destruct C as (xs & ys & params & filler & _ & _ & _ & _ & _ & _ & _ & _
                   & TC & _).
    apply timeoutClosure_inv in TC.
    destruct TC as [(_ & N & _)|(t & D & N & _)]; rewrite N in CT;
      [discriminate|].
    inversion CT; subst endTime. exists t, k. rewrite <- D. auto.
  - intros H. inversion H; subst. left.
    destruct (checkOptions_throws _ _ _ _ _ C) as [msg ->].
    exists msg. split; auto. apply (checkOptions_throw_world _ _ _ _ _ C).
Qed.

(** ** What a fit returns *)

(** X3. A fit that returns has completed at most [maxIterations]
    iterations, and it has stopped for one of three reasons: the cap is
    reached, the recorded error is within [errorTolerance], or the error
    is NaN. *)
Theorem fit_stops_for_a_reason data opts w r w' :
  levenbergMarquardt data opts w = (Ok r, w') ->
  (Fit.iterations r <= JS.default_opt (Opt.maxIterations opts) 100)%nat
  /\ (Fit.iterations r = JS.default_opt (Opt.maxIterations opts) 100%nat
      \/ (Fit.parameterError r
          <=? JS.default_opt (Opt.errorTolerance opts) 1e-7) = true
      \/ is_nan (Fit.parameterError r) = true).
Proof.
  unfold levenbergMarquardt, bind.
  destruct (checkOptions data opts w) as [[cfg|?] w1] eqn:C; [|discriminate].
  rewrite errorCalculation_run.
  destruct (loop _ _ _ _ _ _) as [[st|?] w3] eqn:L; [|discriminate].
  unfold ret. intros H. inversion H; subst; clear H. simpl.
  apply checkOptions_inv in C.
  destruct C as (xs & ys & params & filler & _ & _ & _ & _ & _ & _ & _ & _ & _
                 & E).
  assert (Eit : Cfg.maxIterations cfg
                = JS.default_opt (Opt.maxIterations opts) 100%nat)
    by (rewrite E; reflexivity).
  assert (Etol : Cfg.errorTolerance cfg
                 = JS.default_opt (Opt.errorTolerance opts) 1e-7)
    by (rewrite E; reflexivity).
  rewrite <- Eit, <- Etol.
  eapply loop_exit; [| | |exact L]; simpl; auto; lia.
Qed.

Lemma settle_error cfg st t :
  Loop.error (settle cfg st t) = Trial.error t
  \/ Loop.error (settle cfg st t) = Loop.error st.
Proof. unfold settle. destruct (_ <? _); auto. Qed.

Lemma loop_error_nonneg data opts cfg fuel :
  Forall nonneg (Cfg.weightSquare cfg) ->
  forall st w st' w',
    nonneg (Loop.error st) ->
    loop data opts cfg fuel st w = (Ok st', w') ->
    nonneg (Loop.error st').
Proof.
  intros W. induction fuel as [|fuel IH]; intros st w st' w' N; simpl.
  - destruct (_ && _); unfold ret; intros H; now inversion H; subst.
  - destruct (_ && _); [|unfold ret; intros H; now inversion H; subst].
    unfold bind.
    destruct (body data opts cfg st w) as [[r|e] w1] eqn:B; [|discriminate].
    apply body_inv in B as (t & w2 & A & [[_ E]|[_ E]]); subst r;
      apply attempt_inv in A as [_ [w3 A]];
      apply errorCalculation_nonneg in A; auto.
    + unfold ret. intros H. inversion H; subst. exact A.
    + apply IH. simpl. destruct (settle_error cfg st t) as [-> | ->]; auto.
Qed.

(** X4. The error a fit returns is never negative: it is NaN or at least
    [0]. *)
Theorem returned_error_never_negative data opts w r w' :
  levenbergMarquardt data opts w = (Ok r, w') ->
  is_nan (Fit.parameterError r) = true
  \/ (0 <=? Fit.parameterError r) = true.
Proof.
  unfold levenbergMarquardt, bind.
  destruct (checkOptions data opts w) as [[cfg|?] w1] eqn:C; [|discriminate].
  destruct (errorCalculation _ _ _ w1) as [[e0|?] w2] eqn:E0; [|discriminate].
  destruct (loop _ _ _ _ _ _) as [[st|?] w3] eqn:L; [|discriminate].
  unfold ret. intros H. inversion H; subst; clear H. simpl.
  apply nonneg_leb.
  pose proof (weightSquare_nonneg _ _ _ _ _ C) as W.
  refine (loop_error_nonneg _ _ _ _ W _ _ _ _ _ L).
  apply (errorCalculation_nonneg _ _ _ _ _ _ W E0).
Qed.

Lemma Math_max_lower_l a b :
  is_nan (JS.Math_max a b) = true \/ (a <=? JS.Math_max a b) = true.
Proof.
  unfold JS.Math_max.
  destruct (is_nan a) eqn:Na; [now left|].
  destruct (is_nan b) eqn:Nb; [now left|]. simpl. right.
  destruct (a <? b) eqn:L1; [now apply ltb_leb|].
  destruct (b <? a) eqn:L2; [now apply leb_refl|].
  destruct (classify a); try (now apply leb_refl); now apply leb_of_not_lt.
Qed.

Lemma Math_min_cases a b :
  JS.Math_min a b = a \/ JS.Math_min a b = b \/ JS.Math_min a b = nan.
Proof.
  unfold JS.Math_min.
  destruct (is_nan a || is_nan b); auto.
  destruct (a <? b); auto. destruct (b <? a); auto.
  destruct (classify a); auto.
Qed.

Lemma Math_min_nan_l b : JS.Math_min nan b = nan.
Proof. reflexivity. Qed.

(** A clamped value is NaN or respects the bounds. *)
Lemma clamp_within lo hi v :
  is_nan (JS.Math_min (JS.Math_max lo v) hi) = true
  \/ within lo hi (JS.Math_min (JS.Math_max lo v) hi).
Proof.
  destruct (is_nan (JS.Math_min (JS.Math_max lo v) hi)) eqn:Np; [now left|].
  right. split.
  - destruct (Math_min_upper (JS.Math_max lo v) hi) as [N|U]; congruence.
  - intros LH.
    destruct (Math_max_lower_l lo v) as [N|L].
    + apply nan_unique in N. rewrite N, Math_min_nan_l in Np. discriminate.
    + destruct (Math_min_cases (JS.Math_max lo v) hi) as [E|[E|E]];
        rewrite E in *; auto. discriminate.
Qed.

Lemma imap_from_nth {A B} (f : nat -> A -> B) l d d' :
  forall i k, (k < length l)%nat ->
    nth k (imap_from f i l) d' = f (i + k)%nat (nth k l d).
Proof.
  induction l as [|a l IH]; intros i k L; simpl in *; [lia|].
  destruct k as [|k].
  - now rewrite Nat.add_0_r.
  - rewrite IH by lia. now rewrite Nat.add_succ_r.
Qed.

Lemma clamped_at cfg params pert k :
  (k < length params)%nat ->
  JS.at_ (clamped cfg params pert) k
  = JS.Math_min
      (JS.Math_max (JS.at_ (Cfg.minValues cfg) k)
                   (JS.at_ params k - Matrix.get pert k 0))
      (JS.at_ (Cfg.maxValues cfg) k).
Proof.
  intros L. unfold clamped, imap, JS.at_.
  now rewrite (imap_from_nth _ _ nan nan 0 k L).
Qed.

(** The parameters after the loop are those before it, or a clamped
    update of a vector of the same length. *)
Lemma loop_parameters data opts cfg fuel :
  forall st w st' w',
    loop data opts cfg fuel st w = (Ok st', w') ->
    Loop.parameters st' = Loop.parameters st
    \/ exists prev pert,
         length prev = length (Loop.parameters st)
         /\ Loop.parameters st' = clamped cfg prev pert.
Proof.
  induction fuel as [|fuel IH]; intros st w st' w'; simpl.
  - destruct (_ && _); unfold ret; intros H; inversion H; subst; auto.
  - destruct (_ && _); [|unfold ret; intros H; inversion H; subst; auto].
    unfold bind.
    destruct (body data opts cfg st w) as [[r|e] w1] eqn:B; [|discriminate].
    apply body_inv in B as (t & w2 & A & [[_ E]|[_ E]]); subst r;
      apply attempt_inv in A as [P _].
    + unfold ret. intros H. inversion H; subst. simpl. right.
      exists (Loop.parameters st), (Trial.perturbations t). auto.
    + intros L. apply IH in L. simpl in L.
      rewrite settle_parameters, P in L. right.
      destruct L as [L|(prev & pert & Len & L)].
      * exists (Loop.parameters st), (Trial.perturbations t). auto.
      * exists prev, pert. rewrite clamped_length in Len. auto.
Qed.

Lemma levenbergMarquardt_parameters data opts w cfg w1 r w' :
  checkOptions data opts w = (Ok cfg, w1) ->
  levenbergMarquardt data opts w = (Ok r, w') ->
  Fit.parameterValues r = Cfg.parameters cfg
  \/ exists prev pert,
       length prev = length (Cfg.parameters cfg)
       /\ Fit.parameterValues r = clamped cfg prev pert.
Proof.
  intros C. unfold levenbergMarquardt, bind. rewrite C.
  rewrite errorCalculation_run.
  destruct (loop _ _ _ _ _ _) as [[st|?] w3] eqn:L; [|discriminate].
  unfold ret. intros H. inversion H; subst; clear H. simpl.
  apply loop_parameters in L. exact L.
Qed.

(** X5. A fit returns as many parameters as it started with.  Unless they
    are the initial values, returned untouched, every one of them is NaN
    or at most its [maxValues] entry, and at least its [minValues] entry
    when the two bounds are ordered. *)
Theorem returned_parameters_respect_bounds data opts w cfg w1 r w' :
  checkOptions data opts w = (Ok cfg, w1) ->
  levenbergMarquardt data opts w = (Ok r, w') ->
  length (Fit.parameterValues r) = length (Cfg.parameters cfg)
  /\ (Fit.parameterValues r = Cfg.parameters cfg
      \/ forall k, (k < length (Cfg.parameters cfg))%nat ->
           is_nan (JS.at_ (Fit.parameterValues r) k) = true
           \/ within (JS.at_ (Cfg.minValues cfg) k)
                     (JS.at_ (Cfg.maxValues cfg) k)
                     (JS.at_ (Fit.parameterValues r) k)).
Proof.
  intros C H.
  destruct (levenbergMarquardt_parameters _ _ _ _ _ _ _ C H)
    as [E|(prev & pert & Len & E)]; rewrite E.
  - auto.
  - rewrite clamped_length. split; auto. right. intros k K.
    rewrite clamped_at by lia. apply clamp_within.
Qed.

(** X6. The bounds are not required to cover every parameter: a parameter
    past the end of [minValues] is NaN in the result of any fit that has
    updated its parameters. *)
Theorem parameter_without_bounds_becomes_nan data opts w cfg w1 r w' k :
  checkOptions data opts w = (Ok cfg, w1) ->
  levenbergMarquardt data opts w = (Ok r, w') ->
  (length (Cfg.minValues cfg) <= k < length (Cfg.parameters cfg))%nat ->
  Fit.parameterValues r = Cfg.parameters cfg
  \/ JS.at_ (Fit.parameterValues r) k = nan.
Proof.
  intros C H [K1 K2].
  destruct (levenbergMarquardt_parameters _ _ _ _ _ _ _ C H)
    as [E|(prev & pert & Len & E)]; rewrite E; auto.
  right. rewrite clamped_at by lia.
  unfold JS.at_ at 1. rewrite nth_overflow by exact K1. reflexivity.
Qed.

(** ** The calls of a run *)

Lemma model_calls_nil : model_calls [].
Proof. intros e []. Qed.

Lemma model_calls_app l1 l2 :
  model_calls l1 -> model_calls l2 -> model_calls (l1 ++ l2).
Proof.
  intros H1 H2 e I. apply in_app_or in I as [I|I]; auto.
Qed.

Lemma model_calls_cons p l : model_calls l -> model_calls (EvModel p :: l).
Proof. intros M e [<-|I]; eauto. Qed.

Lemma gradientCalls_model_calls params gd central l :
  model_calls (flat_map (gradientCalls params gd central) l).
Proof.
  intros e I. apply in_flat_map in I as (param & _ & I).
  unfold gradientCalls in I.
  destruct (JS.is_zero_slot _); [destruct I|].
  destruct central; simpl in I; intuition eauto.
Qed.

Lemma count_app kind l1 l2 :
  count kind (l1 ++ l2) = (count kind l1 + count kind l2)%nat.
Proof. unfold count. now rewrite filter_app, length_app. Qed.

Lemma count_step_model_calls l : model_calls l -> count is_step l = 0%nat.
Proof.
  unfold count. induction l as [|e l IH]; intros M; auto.
  destruct (M e (or_introl eq_refl)) as [p ->]. simpl.
  apply IH. intros e' I. apply M. now right.
Qed.

Lemma count_check_model_calls l : model_calls l -> count is_check l = 0%nat.
Proof.
  unfold count. induction l as [|e l IH]; intros M; auto.
  destruct (M e (or_introl eq_refl)) as [p ->]. simpl.
  apply IH. intros e' I. apply M. now right.
Qed.

(** A trial calls [step] once, then only the model function. *)
Lemma attempt_trace data cfg st w r w' :
  attempt data cfg st w = (r, w') ->
  exists l,
    trace w' = trace w ++ EvStep (Loop.damping st) :: l /\ model_calls l.
Proof.
  unfold attempt, bind at 1. unfold step, bind at 1, emit.
  unfold bind at 1, call, bind at 1, emit, ret. unfold bind at 1.
  match goal with
  | |- context [gradientFunction ?d ?ev ?p ?g ?c ?w0] =>
      destruct (gradientFunction_world d ev p g c w0) as (J & G)
  end.
  rewrite G. cbn [reads trace]. unfold bind at 1, lift.
  destruct (inverse _) as [inv|e].
  - unfold ret, bind. rewrite errorCalculation_run. cbn [reads trace].
    intros H. inversion H; subst; clear H.
    eexists. split.
    + rewrite <- !app_assoc. cbn [app]. reflexivity.
    + apply model_calls_cons, model_calls_app.
      * apply gradientCalls_model_calls.
      * apply model_calls_cons, model_calls_nil.
  - intros H. inversion H; subst; clear H.
    eexists. split.
    + rewrite <- !app_assoc. cbn [app]. reflexivity.
    + apply model_calls_cons, gradientCalls_model_calls.
Qed.

(** An iteration that breaks has called [step] once and [checkTimeout]
    never; one that reaches its end has called each of them once. *)
Lemma body_counts data opts cfg st w r w' :
  body data opts cfg st w = (Ok r, w') ->
  exists l,
    trace w' = trace w ++ l
    /\ count is_step l = 1%nat
    /\ match r with
       | Break st' => count is_check l = 0%nat
                      /\ is_nan (Loop.error st') = true
       | Next _ => count is_check l = 1%nat
       end.
Proof.
  unfold body, bind.
  destruct (attempt data cfg st w) as [[t|e] w1] eqn:A; [|discriminate].
  apply attempt_trace in A as (l & T & M).
  destruct (JS.isNaN (Trial.error t)) eqn:N.
  - unfold ret. intros H. inversion H; subst; clear H.
    exists (EvStep (Loop.damping st) :: l). split; auto.
    change (EvStep (Loop.damping st) :: l)
      with ([EvStep (Loop.damping st)] ++ l).
    rewrite !count_app, (count_step_model_calls l M),
      (count_check_model_calls l M).
    auto.
  - rewrite checkTimeout_run.
    match goal with |- context [if ?b then _ else _] => destruct b end;
      [discriminate|].
    unfold ret. intros H. inversion H; subst; clear H. cbn [trace].
    exists ((EvStep (Loop.damping st) :: l) ++ [EvCheckTimeout]). split.
    + rewrite T, <- app_assoc. reflexivity.
    + change (EvStep (Loop.damping st) :: l)
        with ([EvStep (Loop.damping st)] ++ l).
      rewrite !count_app, (count_step_model_calls l M),
        (count_check_model_calls l M).
      auto.
Qed.

Lemma loop_counts data opts cfg fuel :
  forall st w st' w',
    loop data opts cfg fuel st w = (Ok st', w') ->
    exists l n,
      trace w' = trace w ++ l
      /\ Loop.iteration st' = (Loop.iteration st + n)%nat
      /\ count is_check l = n
      /\ (count is_step l = n
          \/ (count is_step l = S n /\ is_nan (Loop.error st') = true)).
Proof.
  induction fuel as [|fuel IH]; intros st w st' w'; simpl.
  - destruct (_ && _); unfold ret; intros H; inversion H; subst;
      exists [], 0%nat; rewrite app_nil_r; auto.
  - destruct (_ && _);
      [|unfold ret; intros H; inversion H; subst;
        exists [], 0%nat; rewrite app_nil_r; auto].
    unfold bind.
    destruct (body data opts cfg st w) as [[r|e] w1] eqn:B; [|discriminate].
    pose proof B as I.
    apply body_counts in B as (l1 & T1 & S1 & R).
    apply body_inv in I as (t & w2 & _ & [[_ E]|[_ E]]); subst r.
    + unfold ret. intros H. inversion H; subst; clear H.
      destruct R as [K N]. exists l1, 0%nat. simpl in *.
      rewrite Nat.add_0_r. repeat split; auto.
    + intros L. apply IH in L as (l2 & n & T2 & It & K & S2).
      simpl in It.
      exists (l1 ++ l2), (S n). rewrite T2, T1, <- app_assoc.
      rewrite !count_app, R, S1, K. repeat split; auto; [lia|].
      destruct S2 as [S2|[S2 N]]; rewrite S2; auto.
Qed.

(** X7. In a fit that returns, the number of [checkTimeout] calls is the
    number of iterations returned, and so is the number of [step] calls,
    except that a fit left on a NaN error has called [step] once more. *)
Theorem iterations_count_the_calls data opts w r w' :
  levenbergMarquardt data opts w = (Ok r, w') ->
  exists l,
    trace w' = trace w ++ l
    /\ count is_check l = Fit.iterations r
    /\ (count is_step l = Fit.iterations r
        \/ (count is_step l = S (Fit.iterations r)
            /\ is_nan (Fit.parameterError r) = true)).
Proof.
  unfold levenbergMarquardt, bind.
  destruct (checkOptions data opts w) as [[cfg|?] w1] eqn:C; [|discriminate].
  rewrite errorCalculation_run.
  destruct (loop _ _ _ _ _ _) as [[st|?] w3] eqn:L; [|discriminate].
  unfold ret. intros H. inversion H; subst; clear H. simpl.
  apply checkOptions_trace in C.
  apply loop_counts in L as (l & n & T & It & K & S). simpl in T, It.
  exists (EvModel (Cfg.parameters cfg) :: l). split.
  - rewrite T, C, <- app_assoc. reflexivity.
  - change (EvModel (Cfg.parameters cfg) :: l)
      with ([EvModel (Cfg.parameters cfg)] ++ l).
    rewrite !count_app, It. simpl. auto.
Qed.

(** X8. [gradientFunction] always returns, never reads the clock, and
    calls the model function only at the parameters whose step is not
    [0], in their order: once with forward differences, at the parameter
    moved up by its step, and twice with central differences, the second
    time at the parameter moved down. *)
Theorem gradientFunction_model_calls data evaluatedData params gd central w :
  exists J,
    gradientFunction data evaluatedData params gd central w
    = (Ok J,
       mkWorld (reads w)
               (trace w ++ flat_map (gradientCalls params gd central)
                             (seq 0 (length params)))).
Proof. apply gradientFunction_world. Qed.

(** ** The residuals and the difference quotients *)

Lemma write_column (g : nat -> float) R n :
  forall done,
    fold_left (fun ans point => Matrix.set ans point 0 (g point))
              (seq (length done) n)
              (Matrix.mk R 1 (done ++ repeat (repeat 0 1) n))
    = Matrix.mk R 1 (done ++ map (fun point => [g point])
                                 (seq (length done) n)).
Proof.
  induction n as [|n IH]; intros done; [reflexivity|].
  cbn [seq fold_left repeat map]. unfold Matrix.set at 2.
  cbn [Matrix.rows Matrix.columns Matrix.data].
  rewrite update_app. cbn [update].
  replace (done ++ [g (length done)] :: repeat [0] n)
    with ((done ++ [[g (length done)]]) ++ repeat (repeat 0 1) n)
    by (rewrite <- app_assoc; reflexivity).
  replace (S (length done)) with (length (done ++ [[g (length done)]]))
    by (rewrite length_app; simpl; lia).
  rewrite IH, <- app_assoc. reflexivity.
Qed.

(** X9. [matrixFunction] returns the column of the residuals: one row per
    sample, holding [data.y[point] - evaluatedData[point]]. *)
Theorem matrixFunction_residuals data evaluatedData :
  matrixFunction data evaluatedData
  = Matrix.mk (length (JS.elements (Data.x data))) 1
      (map (fun point =>
              [JS.at_ (JS.elements (Data.y data)) point
               - JS.at_ evaluatedData point])
           (seq 0 (length (JS.elements (Data.x data))))).
Proof.
  unfold matrixFunction, Matrix.zeros.
  apply (write_column
           (fun point => JS.at_ (JS.elements (Data.y data)) point
                         - JS.at_ evaluatedData point)
           (length (JS.elements (Data.x data)))
           (length (JS.elements (Data.x data))) []).
Qed.

Lemma foldM_ext {A S} (f g : S -> A -> M S) l :
  (forall s a w, f s a w = g s a w) ->
  forall s w, foldM f l s w = foldM g l s w.
Proof.
  intros E. induction l as [|a l IH]; intros s w; simpl; auto.
  unfold bind. rewrite E. destruct (g s a w) as [[s'|e] w']; auto.
Qed.

(** X10. With central differences the Jacobian does not depend on the
    model values at the current parameters: [gradientFunction] ignores
    [evaluatedData]. *)
Theorem central_differences_ignore_evaluatedData data ev1 ev2 params gd w :
  gradientFunction data ev1 params gd true w
  = gradientFunction data ev2 params gd true w.
Proof.
  unfold gradientFunction, bind.
  rewrite (foldM_ext
             (gradientRow data ev1 params gd true
                (length (JS.elements (Data.x data))))
             (gradientRow data ev2 params gd true
                (length (JS.elements (Data.x data))))); [reflexivity|].
  intros [ans r] param w0. reflexivity.
Qed.

(** ** A model that reproduces the samples *)

Lemma eqb_zero r : (r =? 0) = true -> exists s, Prim2SF r = S754_zero s.
Proof.
  rewrite eqb_spec. unfold SFeqb. change (Prim2SF 0) with (S754_zero false).
  destruct (Prim2SF r) as [s|s| |s m e]; simpl; try discriminate; eauto.
  - destruct s; discriminate.
  - destruct s; discriminate.
Qed.

(** The term a zero residual adds to the error is [+0]. *)
Lemma zero_residual_term r ws :
  (r =? 0) = true -> (0 <? ws) = true -> JS.Math_pow2 r / ws = 0.
Proof.
  intros Z P. apply eqb_zero in Z as [s Z]. apply positive_of_gt_zero in P.
  apply Prim2SF_inj. unfold JS.Math_pow2.
  rewrite div_spec, mul_spec, Z. change (Prim2SF 0) with (S754_zero false).
  destruct (Prim2SF ws) as [sw|sw| |sw mw ew]; simpl in P; try contradiction;
    destruct sw; try contradiction; destruct s; reflexivity.
Qed.

Lemma sum_of_zeros (term : nat -> float) l :
  (forall i, In i l -> term i = 0) ->
  fold_left (fun error i => error + term i) l 0 = 0.
Proof.
  induction l as [|i l IH]; intros Z; simpl; auto.
  rewrite (Z i (or_introl eq_refl)). change (0 + 0) with 0.
  apply IH. intros j I. apply Z. now right.
Qed.

Lemma errorCalculation_exact data p ws w :
  (forall i, (i < length (JS.elements (Data.x data)))%nat ->
     (JS.at_ (JS.elements (Data.y data)) i
      - parameterizedFunction p (JS.at_ (JS.elements (Data.x data)) i) =? 0)
     = true
     /\ (0 <? JS.at_ ws i) = true) ->
  errorCalculation data p ws w
  = (Ok 0, mkWorld (reads w) (trace w ++ [EvModel p])).
Proof.
  intros Z. rewrite errorCalculation_run. f_equal. f_equal.
  apply (sum_of_zeros
           (fun i =>
              JS.Math_pow2
                (JS.at_ (JS.elements (Data.y data)) i
                 - parameterizedFunction p
                     (JS.at_ (JS.elements (Data.x data)) i))
              / JS.at_ ws i)).
  intros i I. apply in_seq in I. destruct (Z i) as [R P]; [lia|].
  now apply zero_residual_term.
Qed.

(** X11. When the model at the initial parameters reproduces every sample
    (each residual is zero, the weights being positive) and
    [errorTolerance] is not negative, the fit returns the initial
    parameters with the error [0] and no iteration, after one call of the
    model function. *)
Theorem exact_initial_guess_returns_at_once data opts w cfg w1 :
  checkOptions data opts w = (Ok cfg, w1) ->
  (forall i, (i < length (JS.elements (Data.x data)))%nat ->
     (JS.at_ (JS.elements (Data.y data)) i
      - parameterizedFunction (Cfg.parameters cfg)
          (JS.at_ (JS.elements (Data.x data)) i) =? 0) = true
     /\ (0 <? JS.at_ (Cfg.weightSquare cfg) i) = true) ->
  (0 <=? Cfg.errorTolerance cfg) = true ->
  levenbergMarquardt data opts w
  = (Ok (Fit.mk (Cfg.parameters cfg) 0 0),
     mkWorld (reads w1) (trace w ++ [EvModel (Cfg.parameters cfg)])).
Proof.
  intros C Z T. unfold levenbergMarquardt, bind. rewrite C.
  rewrite (errorCalculation_exact _ _ _ _ Z).
  rewrite loop_done by (simpl; rewrite T; apply andb_false_r).
  unfold ret. simpl. now rewrite (checkOptions_trace _ _ _ _ _ C).
Qed.

(** ** The options *)

Lemma map_const_seq {A} (v : A) n : forall s,
  map (fun _ : nat => v) (seq s n) = repeat v n.
Proof. induction n as [|n IH]; intros s; simpl; [|rewrite IH]; auto. Qed.

Lemma map_at_firstn {A} (f : float -> A) l :
  forall n, (n <= length l)%nat ->
    map (fun i => f (JS.at_ l i)) (seq 0 n) = map f (firstn n l).
Proof.
  induction l as [|a l IH]; intros [|n] L; simpl in *; try lia; auto.
  f_equal. rewrite <- seq_shift, map_map. apply IH. lia.
Qed.

(** X12. [checkOptions] normalises [weights] to one divisor per sample:
    [1 / w ^ 2] of the number [w] (of [1] when the option is left out), or
    of the first entry of an array shorter than the samples, or of each
    entry in turn of an array that is long enough. *)
Theorem weights_normalized data opts w cfg w' :
  checkOptions data opts w = (Ok cfg, w') ->
  let nbPoints := length (JS.elements (Data.y data)) in
  match Opt.weights opts with
  | JS.VUndefined => Cfg.weightSquare cfg = repeat 1 nbPoints
  | JS.VNumber v => Cfg.weightSquare cfg = repeat (1 / (v * v)) nbPoints
  | JS.VArray ws =>
      ((length ws < nbPoints)%nat ->
       Cfg.weightSquare cfg
       = repeat (1 / (JS.at_ ws 0 * JS.at_ ws 0)) nbPoints)
      /\ ((nbPoints <= length ws)%nat ->
          Cfg.weightSquare cfg
          = map (fun v => 1 / (v * v)) (firstn nbPoints ws))
  | JS.VOther _ _ => False
  end.
Proof.
  intros C. apply checkOptions_inv in C.
  destruct C as (xs & ys & params & filler & Hx & Hy & _ & Len & _ & _ & _
                 & F & _ & E).
  rewrite Hy. cbn [JS.elements]. rewrite E. cbn [Cfg.weightSquare].
  unfold weightFiller, JS.Math_pow2 in F.
  destruct (Opt.weights opts) as [|v|ws|b l]; cbn [JS.default] in F.
  - inversion F; subst. apply map_const_seq.
  - inversion F; subst. apply map_const_seq.
  - rewrite Len in F. destruct (Nat.ltb_spec (length ws) (length ys));
      inversion F; subst; split; intros L; try lia.
    + apply map_const_seq.
    + apply (map_at_firstn (fun v => 1 / (v * v)) ws _ L).
  - discriminate.
Qed.

(** X13. With every option left out, valid samples give the documented
    defaults: one parameter of value [1] per argument of the model
    function, bounds at the safe integers, unit weights, damping [0.01]
    with the factors [11] and [9], [100] iterations, tolerance [1e-7],
    forward differences of step [0.1], threshold [1e-3], and no
    time-out. *)
Theorem defaults_of_checkOptions data w xs ys :
  Data.x data = JS.VArray xs -> Data.y data = JS.VArray ys ->
  (2 <= length xs)%nat -> length xs = length ys ->
  checkOptions data Opt.empty w
  = (Ok (Cfg.mk None (repeat JS.MIN_SAFE_INTEGER arity)
                (repeat JS.MAX_SAFE_INTEGER arity) (repeat 1 arity)
                (repeat 1 (length ys)) 1e-2 11 9 100 1e-7 false
                (repeat (Some 10e-2) arity) 1e-3),
     w).
Proof.
  intros Hx Hy L2 Len. unfold checkOptions. rewrite Hx, Hy.
  cbn [Opt.empty Opt.timeout Opt.minValues Opt.maxValues Opt.initialValues
       Opt.weights Opt.damping Opt.dampingStepUp Opt.dampingStepDown
       Opt.maxIterations Opt.errorTolerance Opt.centralDifference
       Opt.gradientDifference Opt.improvementThreshold JS.default
       JS.default_opt JS.truthy JS.isArray JS.elements JS.length_of
       JS.new_Array_length negb orb].
  change (1e-2 <=? 0) with false. cbv iota.
  rewrite <- Len.
  destruct (Nat.ltb_spec (length xs) 2); [lia|]. cbn [orb].
  rewrite Nat.eqb_refl. cbn [negb]. rewrite !repeat_length, Nat.eqb_refl.
  cbn [negb]. unfold gradientDifferenceArray, weightFiller, timeoutClosure,
    bind, ret.
  rewrite map_const_seq. reflexivity.
Qed.


(** X15. Samples that are not arrays, initial values that are neither
    absent nor an array, and [gradientDifference], [weights] or [timeout]
    of a wrong type are all rejected with an [Error], before any call of
    the model function and any clock read. *)
Theorem ill_typed_input_is_rejected data opts w :
  JS.isArray (Data.x data) = false
  \/ JS.isArray (Data.y data) = false
  \/ (JS.truthy (Opt.initialValues opts) = true
      /\ JS.isArray (Opt.initialValues opts) = false)
  \/ (exists b len, Opt.gradientDifference opts = JS.VOther b len)
  \/ (exists b len, Opt.weights opts = JS.VOther b len)
  \/ (exists a, Opt.timeout opts = JS.VArray a)
  \/ (exists b len, Opt.timeout opts = JS.VOther b len) ->
  exists msg, levenbergMarquardt data opts w = (Throw (Error msg), w).
Proof.
  intros H. unfold levenbergMarquardt, bind.
  destruct (checkOptions data opts w) as [[cfg|e] w1] eqn:C.
  - exfalso. apply checkOptions_inv in C.
    destruct C as (xs & ys & params & filler & Hx & Hy & _ & _ & _ & P & G
                   & F & T & _).
    destruct H as [H|[H|[[H1 H2]|[(b & l & H)|[(b & l & H)|[(a & H)
                  |(b & l & H)]]]]]].
    + rewrite Hx in H. discriminate.
    + rewrite Hy in H. discriminate.
    + rewrite H1 in P. rewrite P in H2. discriminate.
    + rewrite H in G. discriminate.
    + rewrite H in F. discriminate.
    + rewrite H in T. discriminate.
    + rewrite H in T. discriminate.
  - destruct (checkOptions_throws _ _ _ _ _ C) as [msg ->].
    rewrite (checkOptions_throw_world _ _ _ _ _ C). eauto.
Qed.

(** ** Iterations *)

(** X16. In an iteration whose improvement metric exceeds
    [improvementThreshold] the step is accepted: the parameters and the
    error are those of the trial, the damping becomes
    [max(damping / dampingStepDown, 1e-7)], and the fit has converged
    when the trial error is within [errorTolerance]. *)
Theorem accepted_step_takes_trial data opts cfg st w t w1 :
  attempt data cfg st w = (Ok t, w1) ->
  JS.isNaN (Trial.error t) = false ->
  (Cfg.improvementThreshold cfg <? improvementMetric st t) = true ->
  settle cfg st t
  = Loop.mk (Trial.parameters t) (Trial.error t)
            (JS.Math_max (Loop.damping st / Cfg.dampingStepDown cfg) 1e-7)
            (Loop.iteration st) (Loop.converged st)
  /\ forall r w2,
       body data opts cfg st w = (Ok r, w2) ->
       r = Next (Loop.mk (Trial.parameters t) (Trial.error t)
                   (JS.Math_max (Loop.damping st / Cfg.dampingStepDown cfg)
                                1e-7)
                   (Loop.iteration st)
                   (Trial.error t <=? Cfg.errorTolerance cfg)).
Proof.
  intros A N I.
  assert (S : settle cfg st t
              = Loop.mk (Trial.parameters t) (Trial.error t)
                  (JS.Math_max (Loop.damping st / Cfg.dampingStepDown cfg)
                               1e-7)
                  (Loop.iteration st) (Loop.converged st))
    by (unfold settle; now rewrite I).
  split; auto. intros r w2 B.
  rewrite (body_next _ _ _ _ _ _ _ _ _ A N B), S. reflexivity.
Qed.

Lemma ltb_nan_r a b : is_nan b = true -> (a <? b) = false.
Proof.
  intros N. apply is_nan_spec in N. rewrite ltb_spec, N. unfold SFltb.
  now destruct (Prim2SF a).
Qed.

(** X17. A step whose improvement metric is NaN, as when neither the
    error nor the predicted reduction has moved ([0 / 0]), is rejected:
    the previous error is kept and the damping raised. *)
Theorem nan_metric_rejects_step cfg st t :
  is_nan (improvementMetric st t) = true ->
  settle cfg st t
  = Loop.mk (Trial.parameters t) (Loop.error st)
            (JS.Math_min (Loop.damping st * Cfg.dampingStepUp cfg) 1e7)
            (Loop.iteration st) (Loop.converged st).
Proof.
  intros N. unfold settle. now rewrite (ltb_nan_r _ _ N).
Qed.

(** X18. With [maxIterations: 0] the fit evaluates the error of the
    initial parameters and returns them, without any iteration. *)
Theorem no_iteration_allowed data opts w cfg w1 :
  Opt.maxIterations opts = Some 0%nat ->
  checkOptions data opts w = (Ok cfg, w1) ->
  levenbergMarquardt data opts w
  = (error <- errorCalculation data (Cfg.parameters cfg)
                (Cfg.weightSquare cfg) ;;
     ret (Fit.mk (Cfg.parameters cfg) error 0)) w1.
Proof.
  intros Z C. unfold levenbergMarquardt. unfold bind at 1. rewrite C.
  apply checkOptions_inv in C.
  destruct C as (xs & ys & params & filler & _ & _ & _ & _ & _ & _ & _ & _ & _
                 & E).
  assert (Eit : Cfg.maxIterations cfg = 0%nat)
    by (rewrite E; cbn [Cfg.maxIterations]; now rewrite Z).
  unfold bind. rewrite !errorCalculation_run.
  rewrite loop_done by (simpl; now rewrite Eit).
  reflexivity.
Qed.

(** X19. The time-out is looked at once an iteration is over: when the
    first trial has an error that is not NaN and the clock, read then for
    the second time, is past [endTime], the fit throws the time-out error
    with the [timeout] given and returns no parameters. *)
Theorem timeout_after_first_iteration data opts w t cfg w1 e0 w2 tr w3 :
  Opt.timeout opts = JS.VNumber t ->
  checkOptions data opts w = (Ok cfg, w1) ->
  errorCalculation data (Cfg.parameters cfg) (Cfg.weightSquare cfg) w1
    = (Ok e0, w2) ->
  (e0 <=? Cfg.errorTolerance cfg) = false ->
  (0 < Cfg.maxIterations cfg)%nat ->
  attempt data cfg
    (Loop.mk (Cfg.parameters cfg) e0 (Cfg.damping cfg) 0 false) w2
    = (Ok tr, w3) ->
  JS.isNaN (Trial.error tr) = false ->
  (Date_now (reads w) + t * 1000 <? Date_now (S (reads w))) = true ->
  levenbergMarquardt data opts w
  = (Throw (TimeoutError (JS.VNumber t)),
     mkWorld (S (S (reads w))) (trace w3 ++ [EvCheckTimeout])).
Proof.
  intros T C E0 Tol Max A N X.
  unfold levenbergMarquardt. unfold bind at 1. rewrite C.
  unfold bind at 1. rewrite E0. rewrite Tol. unfold bind at 1.
  pose proof (errorCalculation_keeps_clock _ _ _ _ _ _ E0) as R2.
  pose proof (attempt_keeps_clock _ _ _ _ _ _ A) as R3.
  apply checkOptions_inv in C.
  destruct C as (xs & ys & params & filler & _ & _ & _ & _ & _ & _ & _ & _
                 & TC & _).
  rewrite T in TC. apply timeoutClosure_inv in TC.
  destruct TC as [(D & _)|(t' & D & CT & W1)]; [discriminate|].
  inversion D; subst t'; clear D.
  destruct (Cfg.maxIterations cfg) as [|k] eqn:Ek; [lia|].
  cbn [loop Loop.iteration Loop.converged]. rewrite Ek.
  cbn [Nat.ltb Nat.leb negb andb]. unfold bind at 1.
  unfold body, bind at 1. rewrite A, N. unfold bind at 1.
  rewrite checkTimeout_run, CT.
  assert (R : reads w3 = S (reads w))
    by (rewrite R3, R2, W1; reflexivity).
  rewrite R, X, T. reflexivity.
Qed.

(** ** A time-out that does not expire *)

Lemma clock_blind_ret {A} (a : A) : clock_blind (ret a).
Proof. intros w1 w2 T. split; auto. Qed.

Lemma clock_blind_throw {A} e : clock_blind (@throw A e).
Proof. intros w1 w2 T. split; auto. Qed.

Lemma clock_blind_lift {A} (o : outcome A) : clock_blind (lift o).
Proof. intros w1 w2 T. split; auto. Qed.

Lemma clock_blind_emit e : clock_blind (emit e).
Proof. intros w1 w2 T. split; simpl; auto. now rewrite T. Qed.

Lemma agree_bind {A B} (c1 c2 : M A) (k1 k2 : A -> M B) w1 w2 :
  agree (c1 w1) (c2 w2) ->
  (forall a v1 v2, trace v1 = trace v2 -> agree (k1 a v1) (k2 a v2)) ->
  agree (bind c1 k1 w1) (bind c2 k2 w2).
Proof.
  unfold bind. intros [R T] K.
  destruct (c1 w1) as [[a1|e1] v1], (c2 w2) as [[a2|e2] v2]; simpl in *;
    try discriminate.
  - inversion R; subst. now apply K.
  - inversion R; subst. split; auto.
Qed.

Lemma clock_blind_bind {A B} (c : M A) (k : A -> M B) :
  clock_blind c -> (forall a, clock_blind (k a)) -> clock_blind (bind c k).
Proof.
  intros Hc Hk w1 w2 T. apply agree_bind; auto.
Qed.

Lemma clock_blind_foldM {A S} (f : S -> A -> M S) l :
  (forall s a, clock_blind (f s a)) -> forall s, clock_blind (foldM f l s).
Proof.
  intros Hf. induction l as [|a l IH]; intros s; simpl.
  - apply clock_blind_ret.
  - apply clock_blind_bind; auto.
Qed.

Lemma call_clock_blind p : clock_blind (call p).
Proof.
  unfold call. apply clock_blind_bind; [apply clock_blind_emit|].
  intros _. apply clock_blind_ret.
Qed.

Lemma errorCalculation_clock_blind data p ws :
  clock_blind (errorCalculation data p ws).
Proof.
  unfold errorCalculation. apply clock_blind_bind; [apply call_clock_blind|].
  intros f. apply clock_blind_ret.
Qed.

Lemma gradientFunction_clock_blind data ev params gd central :
  clock_blind (gradientFunction data ev params gd central).
Proof.
  unfold gradientFunction. apply clock_blind_bind.
  - apply clock_blind_foldM. intros [ans r] param. unfold gradientRow.
    destruct (JS.is_zero_slot _); [apply clock_blind_ret|].
    apply clock_blind_bind; [apply call_clock_blind|].
    intros f. destruct (negb central); [apply clock_blind_ret|].
    apply clock_blind_bind; [apply call_clock_blind|].
    intros f2. apply clock_blind_ret.
  - intros [ans r]. apply clock_blind_ret.
Qed.

Lemma step_clock_blind data params damping gd central ws :
  clock_blind (step data params damping gd central ws).
Proof.
  unfold step. apply clock_blind_bind; [apply clock_blind_emit|].
  intros _. apply clock_blind_bind; [apply call_clock_blind|].
  intros f. apply clock_blind_bind; [apply gradientFunction_clock_blind|].
  intros J. apply clock_blind_bind; [apply clock_blind_lift|].
  intros inv. apply clock_blind_ret.
Qed.

Lemma attempt_clock_blind data cfg st : clock_blind (attempt data cfg st).
Proof.
  unfold attempt. apply clock_blind_bind; [apply step_clock_blind|].
  intros [p j]. apply clock_blind_bind; [apply errorCalculation_clock_blind|].
  intros e. apply clock_blind_ret.
Qed.

Lemma body_unexpired data o1 o2 cfg endTime st w1 w2 :
  Cfg.checkTimeout cfg = Some endTime ->
  (forall k, (endTime <? Date_now k) = false) ->
  trace w1 = trace w2 ->
  agree (body data o1 cfg st w1) (body data o2 (never_expiring cfg) st w2).
Proof.
  intros CT X T. unfold body.
  apply agree_bind; [now apply (attempt_clock_blind data cfg st)|].
  intros t v1 v2 Tv.
  change (settle (never_expiring cfg) st t) with (settle cfg st t).
  destruct (JS.isNaN _); [now apply clock_blind_ret|].
  unfold bind. rewrite !checkTimeout_run, CT, X. cbn [never_expiring
    Cfg.checkTimeout Cfg.errorTolerance]. unfold ret. split; simpl; auto.
  now rewrite Tv.
Qed.

Lemma loop_unexpired data o1 o2 cfg endTime fuel :
  Cfg.checkTimeout cfg = Some endTime ->
  (forall k, (endTime <? Date_now k) = false) ->
  forall st w1 w2,
    trace w1 = trace w2 ->
    agree (loop data o1 cfg fuel st w1)
          (loop data o2 (never_expiring cfg) fuel st w2).
Proof.
  intros CT X. induction fuel as [|fuel IH]; intros st w1 w2 T;
    cbn [loop never_expiring Cfg.maxIterations].
  - destruct (_ && _); now apply clock_blind_ret.
  - destruct (_ && _); [|now apply clock_blind_ret].
    apply agree_bind; [now apply (body_unexpired _ _ _ _ endTime)|].
    intros [st'|st'] v1 v2 Tv; [now apply IH|now apply clock_blind_ret].
Qed.

Lemma checkOptions_without_timeout data opts w t :
  Opt.timeout opts = JS.VNumber t ->
  (exists e, checkOptions data opts w = (Throw e, w)
             /\ checkOptions data (without_timeout opts) w = (Throw e, w))
  \/ (exists cfg,
        checkOptions data opts w
        = (Ok cfg, mkWorld (S (reads w)) (trace w))
        /\ Cfg.checkTimeout cfg = Some (Date_now (reads w) + t * 1000)
        /\ checkOptions data (without_timeout opts) w
           = (Ok (never_expiring cfg), w)).
Proof.
  intros T. unfold checkOptions.
  cbn [without_timeout Opt.timeout Opt.minValues
      Opt.maxValues Opt.initialValues Opt.weights Opt.damping
      Opt.dampingStepUp Opt.dampingStepDown Opt.maxIterations
      Opt.errorTolerance Opt.centralDifference Opt.gradientDifference
      Opt.improvementThreshold].
  rewrite T.
  destruct (_ <=? 0); [left; unfold throw; eauto|].
  destruct (negb _ || negb _); [left; unfold throw; eauto|].
  destruct (negb (JS.isArray (Data.x data)) || _ || _ || _);
    [left; unfold throw; eauto|].
  destruct (negb (_ =? _)%nat); [left; unfold throw; eauto|].
  destruct (negb (_ =? _)%nat); [left; unfold throw; eauto|].
  destruct (if JS.truthy _ then _ else _);
    try (left; unfold throw; eauto; fail).
  unfold bind.
  destruct (gradientDifferenceArray _ _ w) as [[gd|?] w1] eqn:G.
  2:{ pose proof (gradientDifferenceArray_world _ _ _ _ _ G); subst w1.
      left; eauto. }
  pose proof (gradientDifferenceArray_world _ _ _ _ _ G); subst w1.
  destruct (weightFiller _ _ w) as [[filler|?] w2] eqn:F.
  2:{ pose proof (weightFiller_world _ _ _ _ _ F); subst w2. left; eauto. }
  pose proof (weightFiller_world _ _ _ _ _ F); subst w2.
  right. unfold timeoutClosure, bind, now, ret. eexists. split; [reflexivity|].
  split; reflexivity.
Qed.

Lemma bind_ok {A B} (c : M A) (k : A -> M B) w a w' :
  c w = (Ok a, w') -> bind c k w = k a w'.
Proof. unfold bind. now intros ->. Qed.

Lemma bind_throw {A B} (c : M A) (k : A -> M B) w e w' :
  c w = (Throw e, w') -> bind c k w = (Throw e, w').
Proof. unfold bind. now intros ->. Qed.

(** X20. A time-out the clock never reaches changes nothing: the fit has
    the outcome and makes the calls of the same fit without the
    [timeout] option. *)
Theorem unexpired_timeout_changes_nothing data opts w t :
  Opt.timeout opts = JS.VNumber t ->
  (forall k, (Date_now (reads w) + t * 1000 <? Date_now k) = false) ->
  agree (levenbergMarquardt data opts w)
        (levenbergMarquardt data (without_timeout opts) w).
Proof.
  intros T X. unfold levenbergMarquardt.
  destruct (checkOptions_without_timeout data opts w t T)
    as [(e & C1 & C2)|(cfg & C1 & CT & C2)].
  - rewrite (bind_throw _ _ _ _ _ C1), (bind_throw _ _ _ _ _ C2).
    split; reflexivity.
  - rewrite (bind_ok _ _ _ _ _ C1), (bind_ok _ _ _ _ _ C2).
    cbn [never_expiring Cfg.parameters Cfg.weightSquare Cfg.maxIterations
         Cfg.errorTolerance Cfg.damping].
    apply agree_bind;
      [now apply (errorCalculation_clock_blind data _ _)|].
    intros e v1 v2 Tv. apply agree_bind.
    + apply (loop_unexpired _ _ _ _ _ _ CT X). exact Tv.
    + intros st u1 u2 Tu. now apply clock_blind_ret.
Qed.

(** ** The calls of [step] and the cost of a fit *)

Lemma step_world data params damping gd central ws w r w' :
  step data params damping gd central ws w = (r, w') ->
  w' = mkWorld (reads w)
         (trace w ++ EvStep damping :: EvModel params
                     :: flat_map (gradientCalls params gd central)
                          (seq 0 (length params))).
Proof.
  unfold step, bind at 1, emit. unfold bind at 1, call, bind at 1, emit, ret.
  unfold bind at 1.
  match goal with
  | |- context [gradientFunction ?d ?ev ?p ?g ?c ?w0] =>
      destruct (gradientFunction_world d ev p g c w0) as (J & G)
  end.
  rewrite G. cbn [reads trace]. unfold bind, lift, ret.
  destruct (inverse _); intros H; inversion H; subst;
    rewrite <- !app_assoc; reflexivity.
Qed.

(** X21. Whatever its outcome, [step] reads no clock and calls the model
    function at the current parameters first, then as [gradientFunction]
    does. *)
Theorem step_calls data params damping gd central ws w r w' :
  step data params damping gd central ws w = (r, w') ->
  w' = mkWorld (reads w)
         (trace w ++ EvStep damping :: EvModel params
                     :: flat_map (gradientCalls params gd central)
                          (seq 0 (length params))).
Proof. apply step_world. Qed.

Lemma count_gradientCalls params gd central l :
  count is_model (flat_map (gradientCalls params gd central) l)
  = ((if central then 2 else 1)
     * length (filter (fun param =>
                         negb (JS.is_zero_slot (nth param gd None))) l))%nat.
Proof.
  induction l as [|param l IH]; cbn [flat_map filter].
  - unfold count. simpl. lia.
  - rewrite count_app, IH. unfold gradientCalls.
    destruct (JS.is_zero_slot _); cbn [negb length].
    + unfold count. simpl. lia.
    + destruct central; unfold count; simpl; lia.
Qed.

Lemma count_model_calls kind l :
  (forall p, kind (EvModel p) = false) -> model_calls l -> count kind l = 0%nat.
Proof.
  intros K. unfold count. induction l as [|e l IH]; intros M; auto.
  destruct (M e (or_introl eq_refl)) as [p ->]. simpl. rewrite K.
  apply IH. intros e' I. apply M. now right.
Qed.

(** The calls of a trial that scores. *)
Lemma attempt_calls data cfg st w t w' :
  attempt data cfg st w = (Ok t, w') ->
  trace w'
  = trace w
    ++ EvStep (Loop.damping st) :: EvModel (Loop.parameters st)
       :: flat_map (gradientCalls (Loop.parameters st)
                      (Cfg.gradientDifference cfg)
                      (Cfg.centralDifference cfg))
            (seq 0 (length (Loop.parameters st)))
    ++ [EvModel (Trial.parameters t)].
Proof.
  unfold attempt, bind.
  destruct (step _ _ _ _ _ _ w) as [[[p j]|e] w1] eqn:S; [|discriminate].
  apply step_world in S. rewrite errorCalculation_run. unfold ret.
  intros H. inversion H; subst; clear H. cbn [trace Trial.parameters].
  rewrite <- app_assoc. reflexivity.
Qed.

Lemma last_model_app_model l p : last_model (l ++ [EvModel p]) = Some p.
Proof. induction l as [|e l IH]; simpl; [|rewrite IH]; reflexivity. Qed.

Lemma last_model_app_check l :
  last_model (l ++ [EvCheckTimeout]) = last_model l.
Proof. induction l as [|e l IH]; simpl; [|rewrite IH]; reflexivity. Qed.

(** The world an iteration leaves. *)
Lemma body_world data opts cfg st w r w' :
  body data opts cfg st w = (Ok r, w') ->
  exists t w1,
    attempt data cfg st w = (Ok t, w1)
    /\ ((exists st', r = Break st'
                     /\ Loop.parameters st' = Trial.parameters t
                     /\ trace w' = trace w1)
        \/ (exists st', r = Next st'
                        /\ Loop.parameters st' = Trial.parameters t
                        /\ trace w' = trace w1 ++ [EvCheckTimeout])).
Proof.
  unfold body, bind.
  destruct (attempt data cfg st w) as [[t|e] w1] eqn:A; [|discriminate].
  intros B. exists t, w1. split; auto. revert B.
  destruct (JS.isNaN (Trial.error t)).
  - unfold ret. intros H. inversion H; subst. left. eauto.
  - rewrite checkTimeout_run.
    match goal with |- context [if ?b then _ else _] => destruct b end;
      [discriminate|].
    unfold ret. intros H. inversion H; subst. right.
    eexists. split; [reflexivity|]. split; [apply settle_parameters|].
    reflexivity.
Qed.

Lemma attempt_cost data cfg st w t w' :
  length (Loop.parameters st) = length (Cfg.parameters cfg) ->
  attempt data cfg st w = (Ok t, w') ->
  exists l,
    trace w' = trace w ++ l
    /\ count is_step l = 1%nat
    /\ count is_model l = evaluationsPerIteration cfg
    /\ last_model (trace w') = Some (Trial.parameters t)
    /\ length (Trial.parameters t) = length (Cfg.parameters cfg).
Proof.
  intros Len A. pose proof A as I. apply attempt_inv in I as [P _].
  apply attempt_calls in A. eexists. split; [exact A|].
  split; [|split; [|split]].
  - change (EvStep (Loop.damping st) :: EvModel (Loop.parameters st)
            :: ?l)
      with ([EvStep (Loop.damping st); EvModel (Loop.parameters st)] ++ l).
    rewrite !count_app.
    rewrite (count_model_calls is_step (flat_map _ _))
      by (auto; apply gradientCalls_model_calls).
    reflexivity.
  - change (EvStep (Loop.damping st) :: EvModel (Loop.parameters st)
            :: ?l)
      with ([EvStep (Loop.damping st); EvModel (Loop.parameters st)] ++ l).
    rewrite !count_app, count_gradientCalls, Len.
    unfold evaluationsPerIteration, activeParameters, count. simpl. lia.
  - rewrite A, app_comm_cons, app_comm_cons, app_assoc.
    apply last_model_app_model.
  - rewrite P, clamped_length. exact Len.
Qed.

Lemma loop_calls data opts cfg fuel :
  forall st w st' w',
    length (Loop.parameters st) = length (Cfg.parameters cfg) ->
    last_model (trace w) = Some (Loop.parameters st) ->
    loop data opts cfg fuel st w = (Ok st', w') ->
    last_model (trace w') = Some (Loop.parameters st')
    /\ exists l,
         trace w' = trace w ++ l
         /\ count is_model l
            = (count is_step l * evaluationsPerIteration cfg)%nat.
Proof.
  induction fuel as [|fuel IH]; intros st w st' w' Len LM; simpl.
  - destruct (_ && _); unfold ret; intros H; inversion H; subst;
      (split; [auto|exists []; rewrite app_nil_r; auto]).
  - destruct (_ && _);
      [|unfold ret; intros H; inversion H; subst;
        (split; [auto|exists []; rewrite app_nil_r; auto])].
    unfold bind.
    destruct (body data opts cfg st w) as [[r|e] w1] eqn:B; [|discriminate].
    apply body_world in B
      as (t & w2 & A & [(s1 & -> & P & T)|(s1 & -> & P & T)]);
      apply (attempt_cost _ _ _ _ _ _ Len) in A
        as (l & Tl & S & M & LMt & Lt).
    + unfold ret. intros H. inversion H; subst; clear H.
      split; [now rewrite T, P|].
      exists l. rewrite T, S, M. split; [exact Tl|lia].
    + intros L. apply IH in L as (LM' & l2 & T2 & C2).
      * split; [exact LM'|].
        exists ((l ++ [EvCheckTimeout]) ++ l2). split.
        -- rewrite T2, T, Tl, <- !app_assoc. reflexivity.
        -- rewrite !count_app, C2, S, M.
           change (count is_model [EvCheckTimeout]) with 0%nat.
           change (count is_step [EvCheckTimeout]) with 0%nat. nia.
      * simpl. now rewrite P.
      * simpl. rewrite T, last_model_app_check, P. exact LMt.
Qed.

(** X22. A fit that returns has evaluated the model function once for the
    initial error and, for each call of [step], as often as one iteration
    needs: twice plus once (twice with central differences) per parameter
    whose step is not [0]. *)
Theorem model_evaluations_of_a_fit data opts w cfg w1 r w' :
  checkOptions data opts w = (Ok cfg, w1) ->
  levenbergMarquardt data opts w = (Ok r, w') ->
  exists l,
    trace w' = trace w ++ l
    /\ count is_model l
       = (1 + count is_step l * evaluationsPerIteration cfg)%nat.
Proof.
  intros C. unfold levenbergMarquardt, bind. rewrite C.
  rewrite errorCalculation_run.
  destruct (loop _ _ _ _ _ _) as [[st|?] w3] eqn:L; [|discriminate].
  unfold ret. intros H. inversion H; subst; clear H.
  apply checkOptions_trace in C.
  apply loop_calls in L as (_ & l & T & K); simpl; auto.
  - exists (EvModel (Cfg.parameters cfg) :: l). split.
    + simpl in T. rewrite T, C, <- app_assoc. reflexivity.
    + change (EvModel (Cfg.parameters cfg) :: l)
        with ([EvModel (Cfg.parameters cfg)] ++ l).
      rewrite !count_app, K. reflexivity.
  - apply last_model_app_model.
Qed.

(** X23. The last call of the model function in a fit that returns was
    made at the parameters it returns, whether the last step was accepted
    or rejected. *)
Theorem last_evaluation_is_at_returned_parameters data opts w r w' :
  levenbergMarquardt data opts w = (Ok r, w') ->
  last_model (trace w') = Some (Fit.parameterValues r).
Proof.
  unfold levenbergMarquardt, bind.
  destruct (checkOptions data opts w) as [[cfg|?] w1] eqn:C; [|discriminate].
  rewrite errorCalculation_run.
  destruct (loop _ _ _ _ _ _) as [[st|?] w3] eqn:L; [|discriminate].
  unfold ret. intros H. inversion H; subst; clear H.
  apply loop_calls in L as (LM & _); simpl; auto.
  apply last_model_app_model.
Qed.

(** ** What the validation accepts *)

(** X24. The validation asks for nothing else: samples that are two arrays
    of one length, at least [2], a damping that is not [<= 0] (NaN
    passes), initial values that are absent or an array, bound vectors of
    equal length, and [gradientDifference], [weights] and [timeout] of
    the right types are accepted, and the initial parameters are the
    array given, or the ones. *)
Theorem well_formed_input_is_accepted data opts w xs ys params :
  Data.x data = JS.VArray xs -> Data.y data = JS.VArray ys ->
  (2 <= length xs)%nat -> length xs = length ys ->
  (JS.default_opt (Opt.damping opts) 1e-2 <=? 0) = false ->
  (if JS.truthy (Opt.initialValues opts) then Opt.initialValues opts
   else JS.VArray (repeat 1 arity)) = JS.VArray params ->
  length (JS.default_opt (Opt.maxValues opts)
            (repeat JS.MAX_SAFE_INTEGER (length params)))
  = length (JS.default_opt (Opt.minValues opts)
              (repeat JS.MIN_SAFE_INTEGER (length params))) ->
  (forall b len, Opt.gradientDifference opts <> JS.VOther b len) ->
  (forall b len, Opt.weights opts <> JS.VOther b len) ->
  (Opt.timeout opts = JS.VUndefined
   \/ exists t, Opt.timeout opts = JS.VNumber t) ->
  exists cfg w',
    checkOptions data opts w = (Ok cfg, w')
    /\ Cfg.parameters cfg = params.
Proof.
  intros Hx Hy L2 Len D P B G W T.
  unfold checkOptions. rewrite Hx, Hy, D, P.
  cbn [JS.truthy JS.isArray JS.elements JS.length_of JS.new_Array_length
       negb orb].
  rewrite <- Len.
  destruct (Nat.ltb_spec (length xs) 2); [lia|]. cbn [orb].
  rewrite Nat.eqb_refl. cbn [negb]. rewrite B, Nat.eqb_refl. cbn [negb].
  unfold bind, gradientDifferenceArray, weightFiller, timeoutClosure, ret,
    bind, now.
  destruct (Opt.gradientDifference opts) as [|g|g|b l]; cbn [JS.default];
    [| | |now destruct (G b l)];
    destruct (Opt.weights opts) as [|v|ws|b l]; cbn [JS.default];
    try (now destruct (W b l));
    repeat match goal with
           | |- context [if ?c then _ else _] => destruct c
           end;
    destruct T as [->|[t ->]]; eexists; eexists; split; reflexivity.
Qed.

(** ** NaN in the model *)

Lemma is_nan_add_l a b : is_nan a = true -> is_nan (a + b) = true.
Proof.
  rewrite !is_nan_spec, add_spec. now intros ->.
Qed.

Lemma is_nan_add_r a b : is_nan b = true -> is_nan (a + b) = true.
Proof.
  rewrite !is_nan_spec, add_spec. intros ->. now destruct (Prim2SF a).
Qed.

Lemma is_nan_sub_r a b : is_nan b = true -> is_nan (a - b) = true.
Proof.
  rewrite !is_nan_spec, sub_spec. intros ->. now destruct (Prim2SF a).
Qed.

Lemma is_nan_square_over a b :
  is_nan a = true -> is_nan (JS.Math_pow2 a / b) = true.
Proof.
  unfold JS.Math_pow2. rewrite !is_nan_spec, div_spec, mul_spec.
  now intros ->.
Qed.

Lemma sum_stays_nan (term : nat -> float) l :
  forall acc, is_nan acc = true ->
    is_nan (fold_left (fun error i => error + term i) l acc) = true.
Proof.
  induction l as [|i l IH]; intros acc N; simpl; auto.
  apply IH. now apply is_nan_add_l.
Qed.

Lemma sum_with_nan_term (term : nat -> float) l i :
  In i l -> is_nan (term i) = true ->
  forall acc,
    is_nan (fold_left (fun error i => error + term i) l acc) = true.
Proof.
  induction l as [|j l IH]; intros I N acc; simpl; [destruct I|].
  destruct I as [->|I].
  - apply sum_stays_nan. now apply is_nan_add_r.
  - now apply IH.
Qed.

(** X25. When the model function is NaN at one of the samples, the error
    is NaN, whatever the weights and the other samples. *)
Theorem nan_model_value_gives_nan_error data p ws w i :
  (i < length (JS.elements (Data.x data)))%nat ->
  is_nan (parameterizedFunction p (JS.at_ (JS.elements (Data.x data)) i))
  = true ->
  exists e w',
    errorCalculation data p ws w = (Ok e, w') /\ is_nan e = true.
Proof.
  intros L N. rewrite errorCalculation_run. do 2 eexists.
  split; [reflexivity|].
  apply (sum_with_nan_term
           (fun i =>
              JS.Math_pow2
                (JS.at_ (JS.elements (Data.y data)) i
                 - parameterizedFunction p
                     (JS.at_ (JS.elements (Data.x data)) i))
              / JS.at_ ws i)
           _ i).
  - apply in_seq. lia.
  - apply is_nan_square_over, is_nan_sub_r, N.
Qed.

End LevenbergMarquardt.

(** * The properties at concrete fits *)

Lemma error_never_negative_accepted_steps_decrease_witness :
  (improved.(Trial.error) <? before.(Loop.error)) = true
  /\ Loop.error (settle defaults before improved) = Trial.error improved.
Proof.
  pose proof (error_never_negative_accepted_steps_decrease
                still proportional 1 (samples [2; 4]) (starting_at [1] 100)
                start defaults start
                ltac:(vm_compute; reflexivity)) as (_ & A & _).
  destruct (A before improved ltac:(vm_compute; reflexivity)) as [E D].
  split; [apply D; vm_compute; reflexivity|exact E].
Defined.

(** C1 fails as stated: with [improvementThreshold: -10] the first step of
    this fit is accepted although it raises the recorded error from
    [4.39453125] to more than [25]. *)
Lemma negative_threshold_accepts_an_increase :
  let data := samples [1; 2] in
  let st := Loop.mk [0.25] 4.39453125 1e-2 0 false in
  exists cfg t w1 w2,
    checkOptions still 1 data lenient start = (Ok cfg, start)
    /\ errorCalculation quadratic data (Cfg.parameters cfg)
         (Cfg.weightSquare cfg) start = (Ok (Loop.error st), w1)
    /\ attempt quadratic reciprocal data cfg st w1 = (Ok t, w2)
    /\ (Cfg.improvementThreshold cfg <? improvementMetric st t) = true
    /\ (Loop.error st <? Loop.error (settle cfg st t)) = true
    /\ (25 <? Trial.error t) = true
    /\ fst (levenbergMarquardt still quadratic 1 reciprocal data lenient
              start)
       = Ok (Fit.mk (Trial.parameters t) (Trial.error t) 1).
Proof.
  intros data st. do 4 eexists.
  split; [vm_compute; reflexivity|].
  split; [vm_compute; reflexivity|].
  split; [vm_compute; reflexivity|].
  repeat split; vm_compute; reflexivity.
Qed.

Lemma rejected_step_keeps_trial_parameters_witness :
  let data := samples [10; 20] in
  let st := Loop.mk [1] 405 1e-2 0 false in
  exists cfg t w1,
    checkOptions still 1 data kept_positive start = (Ok cfg, start)
    /\ attempt hyperbola reciprocal data cfg st start = (Ok t, w1)
    /\ settle cfg st t
       = Loop.mk (Trial.parameters t) 405
                 (JS.Math_min (1e-2 * 11) 1e7) 0 false.
Proof.
  intros data st. do 3 eexists.
  split; [vm_compute; reflexivity|].
  split; [vm_compute; reflexivity|].
  refine (proj1 (proj2 (rejected_step_keeps_trial_parameters
                           still hyperbola reciprocal data kept_positive
                           _ st start _ _ _ _ _)));
    vm_compute; reflexivity.
Defined.

Lemma damping_stays_in_range_witness :
  exists l,
    trace (snd (levenbergMarquardt still proportional 1 reciprocal
                  (samples [2; 4]) Opt.empty start))
    = trace start ++ l
    /\ forall d, In (EvStep d) l -> in_range d.
Proof.
  apply (damping_stays_in_range still proportional 1 reciprocal
           (samples [2; 4]) Opt.empty start
           (fst (levenbergMarquardt still proportional 1 reciprocal
                   (samples [2; 4]) Opt.empty start))).
  - split; reflexivity.
  - reflexivity.
  - reflexivity.
  - apply surjective_pairing.
Defined.

(** C3 fails as stated: the strictly positive damping option [1e8] is
    handed to [step] as it is, and so is its successor, which also exceeds
    [1e7]. *)
Lemma damping_option_used_unclamped :
  let run := levenbergMarquardt still proportional 1 reciprocal
               (samples [2; 4]) heavily_damped start in
  (0 <? 1e8) = true
  /\ In (EvStep 1e8) (trace (snd run))
  /\ (1e8 <=? 1e7) = false
  /\ In (EvStep (JS.Math_max (1e8 / 9) 1e-7)) (trace (snd run))
  /\ (JS.Math_max (1e8 / 9) 1e-7 <=? 1e7) = false.
Proof.
  vm_compute. repeat split; auto 20.
Qed.

(** C4 fails as stated: with the steps [[0, 0.5]] one parameter is active,
    yet the matrix has two rows (the second all [0]) and the matrix handed
    to the inverse is 2 x 2. *)
Lemma zero_step_row_is_kept :
  let gradientDifference := [Some 0; Some 0.5] in
  let J := Matrix.mk 2 2 [[-1; -2]; [0; 0]] in
  fst (gradientFunction line (samples [3; 5]) [2; 3] [1; 1]
         gradientDifference false start) = Ok J
  /\ length (activeParameters gradientDifference 2) = 1%nat
  /\ Matrix.rows J = 2%nat
  /\ Matrix.rows (dampedNormalMatrix [1; 1] 1e-2 J [1; 1]) = 2%nat
  /\ length (Matrix.data (dampedNormalMatrix [1; 1] 1e-2 J [1; 1])) = 2%nat.
Proof.
  vm_compute. repeat split; reflexivity.
Qed.



Lemma input_error_before_model_witness :
  exists msg,
    levenbergMarquardt still proportional 1 reciprocal
      (Data.mk (JS.VArray [1]) (JS.VArray [1; 2])) Opt.empty start
    = (Throw (Error msg), start).
Proof.
  apply (input_error_before_model still proportional 1 reciprocal
           (Data.mk (JS.VArray [1]) (JS.VArray [1; 2])) Opt.empty start
           [1] [1; 2]).
  - reflexivity.
  - reflexivity.
  - left. simpl. lia.
Defined.

Lemma equal_bounds_freeze_parameters_witness :
  exists r w',
    levenbergMarquardt still proportional 1 reciprocal (samples [2; 4])
      pinned start = (Ok r, w')
    /\ Forall2 kept_or_nan [1] (Fit.parameterValues r)
    /\ (Fit.iterations r <= 100)%nat.
Proof.
  do 2 eexists. split; [vm_compute; reflexivity|].
  destruct (equal_bounds_freeze_parameters still proportional 1 reciprocal
              (samples [2; 4]) pinned start [1] _ _ eq_refl eq_refl eq_refl
              ltac:(vm_compute; reflexivity)) as (F & L & _).
  split; [exact F|exact L].
Defined.

(** C7 fails as stated: the bounds equal the initial value [1], and yet the
    parameter changes, to NaN, because the model is NaN at the perturbed
    parameter. *)
Lemma equal_bounds_nan_parameter :
  exists fit,
    fst (levenbergMarquardt still root 1 reciprocal (samples [1; 2]) pinned
           start) = Ok fit
    /\ Fit.parameterValues fit = [nan]
    /\ Fit.parameterValues fit <> [1].
Proof.
  eexists. split; [vm_compute; reflexivity|]. split; [reflexivity|].
  intros H. apply (f_equal (fun l => is_nan (nth 0 l 0))) in H.
  vm_compute in H. discriminate.
Qed.

Lemma uniform_weight_vector_witness :
  levenbergMarquardt still proportional 1 reciprocal (samples [2; 4])
    (Opt.set_weights Opt.empty (JS.VArray [2; 2])) start
  = levenbergMarquardt still proportional 1 reciprocal (samples [2; 4])
      (Opt.set_weights Opt.empty (JS.VNumber 2)) start.
Proof.
  apply (uniform_weight_vector still proportional 1 reciprocal
           (samples [2; 4]) Opt.empty start [2; 2] 2).
  - discriminate.
  - intros x [<-|[<-|[]]]; reflexivity.
Defined.

Lemma gradientDifference_normalized_witness :
  let opts :=
    Opt.set_gradientDifference (starting_at [1; 1] 100) (JS.VArray [0.5]) in
  exists cfg w',
    checkOptions still 2 (samples [3; 5]) opts start = (Ok cfg, w')
    /\ Cfg.gradientDifference cfg = [Some 0.5; Some 0.5].
Proof.
  intros opts. do 2 eexists. split; [vm_compute; reflexivity|].
  pose proof (proj1 (gradientDifference_normalized still 2 (samples [3; 5])
                       opts start) _ _
                    ltac:(vm_compute; reflexivity)) as N.
  simpl in N. apply (proj1 N). discriminate.
Defined.

Lemma converged_at_once_witness :
  levenbergMarquardt still proportional 1 reciprocal (samples [1; 2])
    (starting_at [1] 100) start
  = (Ok (Fit.mk [1] 0 0), mkWorld 0 [EvModel [1]]).
Proof.
  apply (proj1 (converged_at_once still proportional 1 reciprocal
                  (samples [1; 2]) (starting_at [1] 100) start defaults
                  start 0 (mkWorld 0 [EvModel [1]])
                  ltac:(vm_compute; reflexivity)
                  ltac:(vm_compute; reflexivity)
                  ltac:(vm_compute; reflexivity))).
Defined.

(** * The arity of the model function *)

(** X26. The declared arity of the model function is used for nothing but
    the default initial values: with [initialValues] given (and truthy),
    two model functions that differ in their arity only give the same
    run. *)
Theorem arity_only_sets_default_initialValues
    (Date_now : nat -> float)
    (parameterizedFunction : list float -> float -> float)
    (arity1 arity2 : nat) (inverse : Matrix.t -> outcome Matrix.t)
    data opts w :
  JS.truthy (Opt.initialValues opts) = true ->
  levenbergMarquardt Date_now parameterizedFunction arity1 inverse data opts w
  = levenbergMarquardt Date_now parameterizedFunction arity2 inverse data
      opts w.
Proof.
  intros T.
  assert (C : checkOptions Date_now arity1 data opts w
              = checkOptions Date_now arity2 data opts w)
    by (unfold checkOptions; rewrite T; reflexivity).
  unfold levenbergMarquardt, bind. rewrite C. reflexivity.
Qed.

(** * The further properties at concrete fits *)

Lemma without_timeout_clock_is_not_read_witness :
  reads (snd (levenbergMarquardt still proportional 1 reciprocal
                (samples [2; 4]) (starting_at [1] 100) start))
  = reads start.
Proof.
  eapply (without_timeout_clock_is_not_read still proportional 1 reciprocal
           (samples [2; 4]) (starting_at [1] 100) start
           (fst (levenbergMarquardt still proportional 1 reciprocal
                   (samples [2; 4]) (starting_at [1] 100) start))).
  - reflexivity.
  - apply surjective_pairing.
Defined.

Lemma exceptions_of_a_fit_witness :
  exists w',
    levenbergMarquardt late proportional 1 reciprocal (samples [2; 4]) timed
      start = (Throw (TimeoutError (JS.VNumber 1)), w')
    /\ ((exists msg, TimeoutError (JS.VNumber 1) = Error msg /\ w' = start)
        \/ (exists m, reciprocal m = Throw (TimeoutError (JS.VNumber 1)))
        \/ (exists t k,
              Opt.timeout timed = JS.VNumber t
              /\ TimeoutError (JS.VNumber 1) = TimeoutError (JS.VNumber t)
              /\ reads w' = S k
              /\ (late (reads start) + t * 1000 <? late k) = true)).
Proof.
  eexists. split; [vm_compute; reflexivity|].
  eapply (exceptions_of_a_fit late proportional 1 reciprocal (samples [2; 4])
           timed start).
  vm_compute. reflexivity.
Defined.

Lemma fit_stops_for_a_reason_witness :
  exists r w',
    levenbergMarquardt still proportional 1 reciprocal (samples [2; 4])
      (starting_at [1] 3) start = (Ok r, w')
    /\ (Fit.iterations r <= 3)%nat
    /\ (Fit.iterations r = 3%nat
        \/ (Fit.parameterError r <=? 1e-7) = true
        \/ is_nan (Fit.parameterError r) = true).
Proof.
  do 2 eexists. split; [vm_compute; reflexivity|].
  eapply (fit_stops_for_a_reason still proportional 1 reciprocal
           (samples [2; 4]) (starting_at [1] 3) start _ _).
  vm_compute. reflexivity.
Defined.

Lemma returned_error_never_negative_witness :
  exists r w',
    levenbergMarquardt still proportional 1 reciprocal (samples [2; 4])
      (starting_at [1] 3) start = (Ok r, w')
    /\ (is_nan (Fit.parameterError r) = true
        \/ (0 <=? Fit.parameterError r) = true).
Proof.
  do 2 eexists. split; [vm_compute; reflexivity|].
  eapply (returned_error_never_negative still proportional 1 reciprocal
           (samples [2; 4]) (starting_at [1] 3) start _ _).
  vm_compute. reflexivity.
Defined.

Lemma returned_parameters_respect_bounds_witness :
  exists cfg r w',
    checkOptions still 1 (samples [10; 20]) kept_positive start
    = (Ok cfg, start)
    /\ levenbergMarquardt still hyperbola 1 reciprocal (samples [10; 20])
         kept_positive start = (Ok r, w')
    /\ length (Fit.parameterValues r) = length (Cfg.parameters cfg)
    /\ (Fit.parameterValues r = Cfg.parameters cfg
        \/ forall k, (k < length (Cfg.parameters cfg))%nat ->
             is_nan (JS.at_ (Fit.parameterValues r) k) = true
             \/ within (JS.at_ (Cfg.minValues cfg) k)
                       (JS.at_ (Cfg.maxValues cfg) k)
                       (JS.at_ (Fit.parameterValues r) k)).
Proof.
  do 3 eexists. split; [vm_compute; reflexivity|].
  split; [vm_compute; reflexivity|].
  eapply (returned_parameters_respect_bounds still hyperbola 1 reciprocal
           (samples [10; 20]) kept_positive start _ start _ _);
    vm_compute; reflexivity.
Defined.

Lemma parameter_without_bounds_becomes_nan_witness :
  exists cfg r w',
    checkOptions still 1 (samples [2; 4]) unbounded start = (Ok cfg, start)
    /\ levenbergMarquardt still proportional 1 reciprocal (samples [2; 4])
         unbounded start = (Ok r, w')
    /\ (Fit.parameterValues r = Cfg.parameters cfg
        \/ JS.at_ (Fit.parameterValues r) 0 = nan).
Proof.
  do 3 eexists. split; [vm_compute; reflexivity|].
  split; [vm_compute; reflexivity|].
  eapply (parameter_without_bounds_becomes_nan still proportional 1 reciprocal
           (samples [2; 4]) unbounded start _ start _ _ 0).
  - vm_compute. reflexivity.
  - vm_compute. reflexivity.
  - simpl. lia.
Defined.

Lemma iterations_count_the_calls_witness :
  exists r w',
    levenbergMarquardt still proportional 1 reciprocal (samples [2; 4])
      (starting_at [1] 3) start = (Ok r, w')
    /\ exists l,
         trace w' = trace start ++ l
         /\ count is_check l = Fit.iterations r
         /\ (count is_step l = Fit.iterations r
             \/ (count is_step l = S (Fit.iterations r)
                 /\ is_nan (Fit.parameterError r) = true)).
Proof.
  do 2 eexists. split; [vm_compute; reflexivity|].
  eapply (iterations_count_the_calls still proportional 1 reciprocal
           (samples [2; 4]) (starting_at [1] 3) start).
  vm_compute. reflexivity.
Defined.

Lemma exact_initial_guess_returns_at_once_witness :
  levenbergMarquardt still proportional 1 reciprocal (samples [1; 2])
    (starting_at [1] 100) start
  = (Ok (Fit.mk [1] 0 0), mkWorld 0 [EvModel [1]]).
Proof.
  eapply (exact_initial_guess_returns_at_once still proportional 1 reciprocal
           (samples [1; 2]) (starting_at [1] 100) start defaults start).
  - reflexivity.
  - intros [|[|i]] L; [split; reflexivity|split; reflexivity|simpl in L; lia].
  - reflexivity.
Defined.

Lemma weights_normalized_witness :
  exists cfg w',
    checkOptions still 1 (samples [2; 4])
      (Opt.set_weights (starting_at [1] 100) (JS.VArray [2])) start
    = (Ok cfg, w')
    /\ Cfg.weightSquare cfg = [0.25; 0.25].
Proof.
  do 2 eexists. split; [vm_compute; reflexivity|].
  eapply (weights_normalized still 1 (samples [2; 4])
           (Opt.set_weights (starting_at [1] 100) (JS.VArray [2])) start _ _
           ltac:(vm_compute; reflexivity)).
  simpl. lia.
Defined.

Lemma defaults_of_checkOptions_witness :
  checkOptions still 2 (samples [2; 4]) Opt.empty start
  = (Ok (Cfg.mk None [JS.MIN_SAFE_INTEGER; JS.MIN_SAFE_INTEGER]
                [JS.MAX_SAFE_INTEGER; JS.MAX_SAFE_INTEGER] [1; 1] [1; 1]
                1e-2 11 9 100 1e-7 false [Some 10e-2; Some 10e-2] 1e-3),
     start).
Proof.
  eapply (defaults_of_checkOptions still 2 (samples [2; 4]) start [1; 2]
           [2; 4]).
  - reflexivity.
  - reflexivity.
  - simpl. lia.
  - reflexivity.
Defined.


Lemma ill_typed_input_is_rejected_witness :
  exists msg,
    levenbergMarquardt still proportional 1 reciprocal (samples [2; 4])
      (Opt.set_weights Opt.empty (JS.VOther true None)) start
    = (Throw (Error msg), start).
Proof.
  eapply (ill_typed_input_is_rejected still proportional 1 reciprocal
           (samples [2; 4])
           (Opt.set_weights Opt.empty (JS.VOther true None)) start).
  right. right. right. right. left. exists true, None. reflexivity.
Defined.

Lemma accepted_step_takes_trial_witness :
  let st := Loop.mk [1] 5 1e-2 0 false in
  exists t w1,
    attempt proportional reciprocal (samples [2; 4]) defaults st start
    = (Ok t, w1)
    /\ settle defaults st t
       = Loop.mk (Trial.parameters t) (Trial.error t)
                 (JS.Math_max (1e-2 / 9) 1e-7) 0 false.
Proof.
  intros st. do 2 eexists. split; [vm_compute; reflexivity|].
  refine (proj1 (accepted_step_takes_trial still proportional reciprocal
                   (samples [2; 4]) Opt.empty defaults st start _ _ _ _ _));
    vm_compute; reflexivity.
Defined.

Lemma nan_metric_rejects_step_witness :
  settle defaults before stalled
  = Loop.mk [1] 5 (JS.Math_min (0.5 * 11) 1e7) 0 false.
Proof.
  eapply (nan_metric_rejects_step defaults before stalled).
  vm_compute. reflexivity.
Defined.

Lemma no_iteration_allowed_witness :
  levenbergMarquardt still proportional 1 reciprocal (samples [2; 4])
    (starting_at [1] 0) start
  = (Ok (Fit.mk [1] 5 0), mkWorld 0 [EvModel [1]]).
Proof.
  rewrite (no_iteration_allowed still proportional 1 reciprocal
             (samples [2; 4]) (starting_at [1] 0) start
             (Cfg.mk None [JS.MIN_SAFE_INTEGER] [JS.MAX_SAFE_INTEGER] [1]
                     [1; 1] 1e-2 11 9 0 1e-7 false [Some 10e-2] 1e-3)
             start eq_refl eq_refl).
  reflexivity.
Defined.

Lemma timeout_after_first_iteration_witness :
  exists w',
    levenbergMarquardt late proportional 1 reciprocal (samples [2; 4]) timed
      start
    = (Throw (TimeoutError (JS.VNumber 1)), w')
    /\ reads w' = 2%nat.
Proof.
  eexists. split.
  - refine (timeout_after_first_iteration late proportional 1 reciprocal
              (samples [2; 4]) timed start 1 _ _ _ _ _ _
              eq_refl _ _ _ _ _ _ _);
      try (vm_compute; reflexivity).
    vm_compute. lia.
  - reflexivity.
Defined.

Lemma unexpired_timeout_changes_nothing_witness :
  agree (levenbergMarquardt still proportional 1 reciprocal (samples [2; 4])
           timed start)
        (levenbergMarquardt still proportional 1 reciprocal (samples [2; 4])
           (without_timeout timed) start).
Proof.
  eapply (unexpired_timeout_changes_nothing still proportional 1 reciprocal
           (samples [2; 4]) timed start 1).
  - reflexivity.
  - intros k. vm_compute. reflexivity.
Defined.

Lemma step_calls_witness :
  snd (step proportional reciprocal (samples [2; 4]) [1] 1e-2 [Some 10e-2]
         false [1; 1] start)
  = mkWorld 0 [EvStep 1e-2; EvModel [1]; EvModel [1 + 10e-2]].
Proof.
  eapply (step_calls proportional reciprocal (samples [2; 4]) [1] 1e-2
           [Some 10e-2] false [1; 1] start
           (fst (step proportional reciprocal (samples [2; 4]) [1] 1e-2
                   [Some 10e-2] false [1; 1] start))).
  apply surjective_pairing.
Defined.

Lemma model_evaluations_of_a_fit_witness :
  exists r w',
    levenbergMarquardt still proportional 1 reciprocal (samples [2; 4])
      (starting_at [1] 100) start = (Ok r, w')
    /\ exists l,
         trace w' = trace start ++ l
         /\ count is_model l = (1 + count is_step l * 3)%nat.
Proof.
  do 2 eexists. split; [vm_compute; reflexivity|].
  eapply (model_evaluations_of_a_fit still proportional 1 reciprocal
           (samples [2; 4]) (starting_at [1] 100) start defaults start).
  - reflexivity.
  - vm_compute. reflexivity.
Defined.

Lemma last_evaluation_is_at_returned_parameters_witness :
  exists r w',
    levenbergMarquardt still hyperbola 1 reciprocal (samples [10; 20])
      kept_positive start = (Ok r, w')
    /\ last_model (trace w') = Some (Fit.parameterValues r).
Proof.
  do 2 eexists. split; [vm_compute; reflexivity|].
  eapply (last_evaluation_is_at_returned_parameters still hyperbola 1
           reciprocal (samples [10; 20]) kept_positive start).
  vm_compute. reflexivity.
Defined.

Lemma well_formed_input_is_accepted_witness :
  exists cfg w',
    checkOptions still 1 (samples [2; 4]) timed start = (Ok cfg, w')
    /\ Cfg.parameters cfg = [1].
Proof.
  eapply (well_formed_input_is_accepted still 1 (samples [2; 4]) timed start
            [1; 2] [2; 4] [1]).
  - reflexivity.
  - reflexivity.
  - simpl. lia.
  - reflexivity.
  - reflexivity.
  - reflexivity.
  - reflexivity.
  - discriminate.
  - discriminate.
  - right. exists 1. reflexivity.
Defined.

Lemma nan_model_value_gives_nan_error_witness :
  exists e w',
    errorCalculation root (samples [1; 2]) [1 + 10e-2] [1; 1] start
    = (Ok e, w')
    /\ is_nan e = true.
Proof.
  eapply (nan_model_value_gives_nan_error root (samples [1; 2]) [1 + 10e-2]
            [1; 1] start 0).
  - simpl. lia.
  - vm_compute. reflexivity.
Defined.

Lemma arity_only_sets_default_initialValues_witness :
  levenbergMarquardt still proportional 1 reciprocal (samples [2; 4])
    (starting_at [1] 100) start
  = levenbergMarquardt still proportional 2 reciprocal (samples [2; 4])
      (starting_at [1] 100) start.
Proof.
  eapply (arity_only_sets_default_initialValues still proportional 1 2
            reciprocal (samples [2; 4]) (starting_at [1] 100) start).
  reflexivity.
Defined.
